(** * AMP runtime: shared arena, boot handshake, semaphore, mailbox, ring buffer

    A shallow embedding of [runtime/src/amp_shmem.c], [amp_boot.c],
    [amp_semaphore.c], [amp_mailbox.c] and [amp_ringbuf.c], followed by the
    properties of the inter-core primitives.

    Conventions.
    - The target is the 32-bit dual-core MCU named in the sources (addresses
      are [uint32_t] in [amp_config.h]): [uint32_t], [size_t] and pointers
      are all 32 bits wide.  Machine integers are [Z] and every C operation
      that can wrap is followed by an explicit reduction ([u32], [usize],
      [uptr]).
    - A pointer is its address; [NULL] is address 0.  A handle to a control
      block is [option block]: [None] is the null handle.
    - Caller buffers are [list byte]; payload storage inside the arena is a
      map from byte offset to byte.
    - Loops that the C code does not bound ([while (1)], busy waits) take a
      fuel argument and answer [None] when it runs out. *)

From Stdlib Require Import ZArith List Lia Bool.
From Stdlib.Strings Require Import Byte.
Import ListNotations.
Local Open Scope Z_scope.

Ltac Zify.zify_post_hook ::= Z.to_euclidean_division_equations.

(** ** Machine arithmetic *)

Definition u32 (x : Z) : Z := x mod 2 ^ 32.
Definition usize (x : Z) : Z := x mod 2 ^ 32.
Definition uptr (x : Z) : Z := x mod 2 ^ 32.
Definition NULL : Z := 0.

Definition is_u32 (x : Z) : Prop := 0 <= x < 2 ^ 32.

(** The busy-wait loops count down with [--count == 0] on a [uint32_t]:
    started at [count], the test first holds on this turn. *)
Definition countdown_turns (count : Z) : Z :=
  if count =? 0 then 2 ^ 32 else count.

(** Bytes of raw memory, addressed by offset. *)
Definition bytes := Z -> byte.

Definition memset (m : bytes) (p : Z) (c : byte) (n : Z) : bytes :=
  fun a => if (p <=? a) && (a <? p + n) then c else m a.

(** [src[i]] for a caller buffer. *)
Definition peek (l : list byte) (i : Z) : byte := nth (Z.to_nat i) l x00.

(** [dst[i] = v] for a caller buffer. *)
Fixpoint poke_nat (l : list byte) (n : nat) (v : byte) : list byte :=
  match l, n with
  | [], _ => []
  | _ :: t, O => v :: t
  | x :: t, S k => x :: poke_nat t k v
  end.

Definition poke (l : list byte) (i : Z) (v : byte) : list byte :=
  poke_nat l (Z.to_nat i) v.

(** ** amp_shmem.c *)

Module Shmem.

Record amp_shmem_pool_t := mk_pool {
  base : Z;
  size : Z;
  allocated : Z
}.

(** [static amp_shmem_pool_t g_shmem_pool = {0};] *)
Definition g_shmem_pool : amp_shmem_pool_t := mk_pool NULL 0 0.

Definition amp_shmem_init (g : amp_shmem_pool_t) (mem : bytes) (base size : Z)
  : Z * amp_shmem_pool_t * bytes :=
  if (base =? NULL) || (size =? 0) then (-1, g, mem)
  else (0, mk_pool base size 0, memset mem base x00 size).

Definition amp_shmem_alloc (g : amp_shmem_pool_t) (size : Z)
  : Z * amp_shmem_pool_t :=
  if (size =? 0) || (Shmem.base g =? NULL) then (NULL, g)
  else
    let size := Z.land (usize (size + 7)) (usize (Z.lnot 7)) in
    if usize (allocated g + size) >? Shmem.size g then (NULL, g)
    else
      let ptr := uptr (Shmem.base g + allocated g) in
      (ptr, mk_pool (Shmem.base g) (Shmem.size g) (usize (allocated g + size))).

(** A run of calls to [amp_shmem_alloc], collecting the returned pointers. *)
Fixpoint alloc_all (g : amp_shmem_pool_t) (sizes : list Z)
  : list Z * amp_shmem_pool_t :=
  match sizes with
  | [] => ([], g)
  | s :: rest =>
      let '(p, g1) := amp_shmem_alloc g s in
      let '(ps, g2) := alloc_all g1 rest in
      (p :: ps, g2)
  end.

(** Pools that a program can hold: a successful [amp_shmem_init] followed by
    any number of [amp_shmem_alloc] calls, successful or not. *)
Inductive reachable (b sz : Z) : amp_shmem_pool_t -> Prop :=
| reach_init g mem g' mem' :
    amp_shmem_init g mem b sz = (0, g', mem') -> reachable b sz g'
| reach_alloc g n :
    reachable b sz g -> reachable b sz (snd (amp_shmem_alloc g n)).

(** [round_up(s, 8)] over the integers, as the specification writes it. *)
Definition round_up8 (s : Z) : Z := (s + 7) / 8 * 8.

(** Blocks [ps] of the requested [sizes] laid end to end from address [lo],
    each as long as its rounded size, the last one ending at or before
    [hi]. *)
Fixpoint laid_out (lo hi : Z) (ps sizes : list Z) : Prop :=
  match ps, sizes with
  | [], [] => lo <= hi
  | p :: ps', s :: sizes' => p = lo /\ laid_out (lo + round_up8 s) hi ps' sizes'
  | _, _ => False
  end.

(** The sum of the rounded sizes. *)
Definition total_rounded (sizes : list Z) : Z :=
  fold_right (fun s acc => round_up8 s + acc) 0 sizes.

(** [amp_shmem_free]: the pointer is ignored, the pool is as it was. *)
Definition amp_shmem_free (g : amp_shmem_pool_t) (ptr : Z) : amp_shmem_pool_t :=
  g.

(** Pools reached from a successful [amp_shmem_init] by calls to
    [amp_shmem_alloc] and [amp_shmem_free]. *)
Inductive live (b sz : Z) : amp_shmem_pool_t -> Prop :=
| live_init g mem g' mem' :
    amp_shmem_init g mem b sz = (0, g', mem') -> live b sz g'
| live_alloc g n :
    live b sz g -> live b sz (snd (amp_shmem_alloc g n))
| live_free g ptr :
    live b sz g -> live b sz (amp_shmem_free g ptr).

End Shmem.

Module ShmemRegion.

Record amp_shmem_region_t := mk_region {
  base : Z;
  size : Z;
  flags : Z
}.

(** [region] is the caller's descriptor ([None] for a null pointer); the
    result is the status and the descriptor afterwards. *)
Definition amp_shmem_get_region (g : Shmem.amp_shmem_pool_t) (ptr : Z)
  (region : option amp_shmem_region_t) : Z * option amp_shmem_region_t :=
  match region with
  | None => (-1, region)
  | Some _ =>
      if (ptr =? NULL) || (Shmem.base g =? NULL) then (-1, region)
      else
        let addr := ptr in
        let base := Shmem.base g in
        if (addr <? base) || (addr >=? uptr (base + Shmem.allocated g))
        then (-1, region)
        else (0, Some (mk_region (Shmem.base g) (Shmem.size g) 0))
  end.

End ShmemRegion.

(** ** amp_boot.c *)

Module Boot.

Definition AMP_CORE0 : Z := 0.
Definition AMP_CORE1 : Z := 1.
Definition AMP_CORE_COUNT : Z := 2.

Inductive amp_boot_status_t :=
| AMP_BOOT_SUCCESS
| AMP_BOOT_ERROR_INVALID_CORE
| AMP_BOOT_ERROR_ALREADY_RUNNING
| AMP_BOOT_ERROR_TIMEOUT
| AMP_BOOT_ERROR_CONFIG.

(** The state is the word [core_ready_flags]; [amp_get_core_id()] is the
    platform hook, passed in as [self]. *)

Definition amp_boot_init (self : Z) (core_ready_flags : Z)
  : amp_boot_status_t * Z :=
  if negb (self =? AMP_CORE0) then (AMP_BOOT_ERROR_INVALID_CORE, core_ready_flags)
  else
    let core_ready_flags := 0 in
    let core_ready_flags := u32 (Z.lor core_ready_flags (Z.shiftl 1 AMP_CORE0)) in
    (AMP_BOOT_SUCCESS, core_ready_flags).

(** The generic (weak) implementation. *)
Definition amp_boot_core (core_id entry_point stack_pointer : Z)
  (core_ready_flags : Z) : amp_boot_status_t * Z :=
  if (core_id >=? AMP_CORE_COUNT) || (core_id =? AMP_CORE0)
  then (AMP_BOOT_ERROR_INVALID_CORE, core_ready_flags)
  else (AMP_BOOT_SUCCESS, core_ready_flags).

(** The polling loop of [amp_boot_wait_core_ready]: the flags are only read. *)
Fixpoint wait_loop (fuel : nat) (core_ready_flags mask timeout_ms count : Z)
  : option amp_boot_status_t :=
  match fuel with
  | O => None
  | S fuel' =>
      if negb (Z.land core_ready_flags mask =? 0) then Some AMP_BOOT_SUCCESS
      else if timeout_ms >? 0 then
        let count := u32 (count - 1) in
        if count =? 0 then Some AMP_BOOT_ERROR_TIMEOUT
        else wait_loop fuel' core_ready_flags mask timeout_ms count
      else wait_loop fuel' core_ready_flags mask timeout_ms count
  end.

Definition amp_boot_wait_core_ready (fuel : nat) (core_id timeout_ms : Z)
  (core_ready_flags : Z) : option amp_boot_status_t * Z :=
  if core_id >=? AMP_CORE_COUNT
  then (Some AMP_BOOT_ERROR_INVALID_CORE, core_ready_flags)
  else
    let mask := u32 (Z.shiftl 1 core_id) in
    let count := u32 (timeout_ms * 1000) in
    (wait_loop fuel core_ready_flags mask timeout_ms count, core_ready_flags).

Definition amp_boot_signal_ready (self : Z) (core_ready_flags : Z) : Z :=
  let core_id := self in
  u32 (Z.lor core_ready_flags (Z.shiftl 1 core_id)).

(** One boot operation, as issued by core [self]. *)
Inductive boot_op :=
| op_init
| op_boot_core (core_id entry_point stack_pointer : Z)
| op_wait_core_ready (fuel : nat) (core_id timeout_ms : Z)
| op_signal_ready.

Definition boot_exec (self : Z) (op : boot_op) (flags : Z) : Z :=
  match op with
  | op_init => snd (amp_boot_init self flags)
  | op_boot_core c e s => snd (amp_boot_core c e s flags)
  | op_wait_core_ready f c t => snd (amp_boot_wait_core_ready f c t flags)
  | op_signal_ready => amp_boot_signal_ready self flags
  end.

(** States reached from [core_ready_flags = 0] by boot operations issued by
    the two cores. *)
Inductive reachable : Z -> Prop :=
| reach_start : reachable 0
| reach_step flags self op :
    reachable flags -> 0 <= self < AMP_CORE_COUNT ->
    reachable (boot_exec self op flags).

End Boot.

(** ** amp_config.c *)

Module Config.

(** The generic (weak) [amp_get_core_id]: always the primary core. *)
Definition amp_get_core_id : Z := Boot.AMP_CORE0.

(** Boot states of a build that keeps the generic [amp_get_core_id]. *)
Inductive reachable : Z -> Prop :=
| reach_start : reachable 0
| reach_step flags op :
    reachable flags -> reachable (Boot.boot_exec amp_get_core_id op flags).

End Config.

(** The two cores of the MCU, for the interleaving models below. *)
Inductive core := core0 | core1.

(** ** amp_semaphore.c *)

Module Semaphore.

Record amp_semaphore_s := mk_sem {
  count : Z;
  max_count : Z
}.

(** [sizeof(struct amp_semaphore_s)]: two [uint32_t]. *)
Definition sizeof_amp_semaphore_s : Z := 8.

(** [atomic_cas(ptr, old_val, new_val)] on the word [cell]: the outcome and
    the word afterwards. *)
Definition atomic_cas (cell old_val new_val : Z) : bool * Z :=
  if cell =? old_val then (true, new_val) else (false, cell).

Definition amp_semaphore_create (g : Shmem.amp_shmem_pool_t)
  (initial_count max_count : Z)
  : option amp_semaphore_s * Shmem.amp_shmem_pool_t :=
  if (initial_count >? max_count) || (max_count =? 0) then (None, g)
  else
    let '(sem, g') := Shmem.amp_shmem_alloc g sizeof_amp_semaphore_s in
    if sem =? NULL then (None, g')
    else (Some (mk_sem initial_count max_count), g').

(** The [while (1)] loop of [amp_semaphore_try_wait], run by one core alone. *)
Fixpoint try_wait_loop (fuel : nat) (sem : amp_semaphore_s)
  : option (Z * amp_semaphore_s) :=
  match fuel with
  | O => None
  | S fuel' =>
      let current := count sem in
      if current =? 0 then Some (-1, sem)
      else
        let '(ok, c) := atomic_cas (count sem) current (u32 (current - 1)) in
        if ok then Some (0, mk_sem c (max_count sem))
        else try_wait_loop fuel' (mk_sem c (max_count sem))
  end.

Definition amp_semaphore_try_wait (fuel : nat) (sem : option amp_semaphore_s)
  : option (Z * option amp_semaphore_s) :=
  match sem with
  | None => Some (-1, None)
  | Some s =>
      match try_wait_loop fuel s with
      | Some (r, s') => Some (r, Some s')
      | None => None
      end
  end.

Fixpoint post_loop (fuel : nat) (sem : amp_semaphore_s)
  : option (Z * amp_semaphore_s) :=
  match fuel with
  | O => None
  | S fuel' =>
      let current := count sem in
      if current >=? max_count sem then Some (-1, sem)
      else
        let '(ok, c) := atomic_cas (count sem) current (u32 (current + 1)) in
        if ok then Some (0, mk_sem c (max_count sem))
        else post_loop fuel' (mk_sem c (max_count sem))
  end.

Definition amp_semaphore_post (fuel : nat) (sem : option amp_semaphore_s)
  : option (Z * option amp_semaphore_s) :=
  match sem with
  | None => Some (-1, None)
  | Some s =>
      match post_loop fuel s with
      | Some (r, s') => Some (r, Some s')
      | None => None
      end
  end.

Definition amp_semaphore_get_count (sem : option amp_semaphore_s) : Z :=
  match sem with
  | None => 0
  | Some s => count s
  end.

(** The busy-wait loop of [amp_semaphore_wait], with no other core running. *)
Fixpoint wait_loop (fuel : nat) (sem : option amp_semaphore_s)
  (timeout_ms count : Z) : option (Z * option amp_semaphore_s) :=
  match fuel with
  | O => None
  | S fuel' =>
      match amp_semaphore_try_wait fuel sem with
      | None => None
      | Some (r, sem') =>
          if negb (r =? 0) then
            if timeout_ms >? 0 then
              let count := u32 (count - 1) in
              if count =? 0 then Some (-1, sem')
              else wait_loop fuel' sem' timeout_ms count
            else wait_loop fuel' sem' timeout_ms count
          else Some (0, sem')
      end
  end.

Definition amp_semaphore_wait (fuel : nat) (sem : option amp_semaphore_s)
  (timeout_ms : Z) : option (Z * option amp_semaphore_s) :=
  let count := u32 (timeout_ms * 1000) in
  wait_loop fuel sem timeout_ms count.

(** *** Two cores on one semaphore

    Each core runs at most one call at a time.  A call is cut at its accesses
    to [sem->count]: the load at the top of the loop and the CAS.  Any core
    may take the next step. *)

Inductive call := call_try_wait | call_post.

Inductive pc :=
| idle
| wait_load
| wait_cas (current : Z)
| post_load
| post_cas (current : Z).

(** A call that has returned: which call, the value of [current] it last
    loaded, and the value it returned. *)
Record event := mk_event {
  ev_call : call;
  ev_observed : Z;
  ev_result : Z
}.

Definition thread_step (sem : amp_semaphore_s) (p : pc)
  : amp_semaphore_s * pc * option event :=
  match p with
  | idle => (sem, idle, None)
  | wait_load =>
      let current := count sem in
      if current =? 0
      then (sem, idle, Some (mk_event call_try_wait current (-1)))
      else (sem, wait_cas current, None)
  | wait_cas current =>
      let '(ok, c) := atomic_cas (count sem) current (u32 (current - 1)) in
      if ok
      then (mk_sem c (max_count sem), idle,
            Some (mk_event call_try_wait current 0))
      else (mk_sem c (max_count sem), wait_load, None)
  | post_load =>
      let current := count sem in
      if current >=? max_count sem
      then (sem, idle, Some (mk_event call_post current (-1)))
      else (sem, post_cas current, None)
  | post_cas current =>
      let '(ok, c) := atomic_cas (count sem) current (u32 (current + 1)) in
      if ok
      then (mk_sem c (max_count sem), idle,
            Some (mk_event call_post current 0))
      else (mk_sem c (max_count sem), post_load, None)
  end.

Record system := mk_system {
  sem : amp_semaphore_s;
  pc0 : pc;
  pc1 : pc;
  log : list event
}.

Inductive action :=
| enter (c : core) (f : call)
| step (c : core).

Definition pc_of (c : core) (s : system) : pc :=
  match c with core0 => pc0 s | core1 => pc1 s end.

Definition with_pc (c : core) (p : pc) (se : amp_semaphore_s)
  (l : list event) (s : system) : system :=
  match c with
  | core0 => mk_system se p (pc1 s) l
  | core1 => mk_system se (pc0 s) p l
  end.

Definition entry (f : call) : pc :=
  match f with call_try_wait => wait_load | call_post => post_load end.

Definition system_step (a : action) (s : system) : system :=
  match a with
  | enter c f =>
      match pc_of c s with
      | idle => with_pc c (entry f) (sem s) (log s) s
      | _ => s
      end
  | step c =>
      let '(se, p, e) := thread_step (sem s) (pc_of c s) in
      with_pc c p se (match e with Some ev => ev :: log s | None => log s end) s
  end.

Definition run (sched : list action) (s : system) : system :=
  fold_left (fun st a => system_step a st) sched s.

Definition start (se : amp_semaphore_s) : system := mk_system se idle idle [].

(** Number of logged calls of kind [f] that returned 0. *)
Definition same_call (f g : call) : bool :=
  match f, g with
  | call_try_wait, call_try_wait | call_post, call_post => true
  | _, _ => false
  end.

Definition successes (f : call) (l : list event) : Z :=
  Z.of_nat (length (filter (fun e => same_call f (ev_call e) && (ev_result e =? 0)) l)).

(** What a logged call must satisfy: [amp_semaphore_try_wait] answers -1
    exactly when it loaded 0, [amp_semaphore_post] exactly when it loaded a
    value at or above [max_count]; otherwise they answer 0. *)
Definition answers_as_specified (max : Z) (e : event) : Prop :=
  (ev_result e = 0 \/ ev_result e = -1) /\
  match ev_call e with
  | call_try_wait => ev_result e = -1 <-> ev_observed e = 0
  | call_post => ev_result e = -1 <-> ev_observed e >= max
  end.

(** What a core between its load and its CAS has already tested. *)
Definition tested (max : Z) (p : pc) : Prop :=
  match p with
  | wait_cas current => current <> 0
  | post_cas current => current < max
  | _ => True
  end.

(** The change of [count] that a returned call accounts for. *)
Definition credit (e : option event) : Z :=
  match e with
  | Some ev =>
      if ev_result ev =? 0
      then match ev_call ev with call_post => 1 | call_try_wait => -1 end
      else 0
  | None => 0
  end.

Definition invariant (initial max : Z) (s : system) : Prop :=
  max_count (sem s) = max /\
  0 <= count (sem s) <= max /\
  successes call_post (log s) - successes call_try_wait (log s)
  = count (sem s) - initial /\
  tested max (pc0 s) /\ tested max (pc1 s) /\
  Forall (answers_as_specified max) (log s).

(** The call a core is in the middle of. *)
Definition call_of (p : pc) : option call :=
  match p with
  | idle => None
  | wait_load | wait_cas _ => Some call_try_wait
  | post_load | post_cas _ => Some call_post
  end.

(** The function of amp_semaphore.c behind a call of the machine. *)
Definition call_fn (f : call)
  : nat -> option amp_semaphore_s -> option (Z * option amp_semaphore_s) :=
  match f with
  | call_try_wait => amp_semaphore_try_wait
  | call_post => amp_semaphore_post
  end.

(** Core [c] runs call [f] to its end while the other core stands still: it
    enters the call unless it is already in one, then takes three steps (a
    CAS that another core has beaten, the load again, the CAS). *)
Definition alone (c : core) (f : call) : list action :=
  [enter c f; step c; step c; step c].

End Semaphore.

(** ** amp_mailbox.c *)

Module MailboxConfig.

Record amp_mailbox_config_t := mk_config {
  msg_size : Z;
  msg_slots : Z
}.

End MailboxConfig.

Module Mailbox.

Record amp_mailbox_s := mk_mbox {
  write_idx : Z;
  read_idx : Z;
  msg_size : Z;
  msg_slots : Z;
  mask : Z;
  data : bytes
}.

(** [sizeof(struct amp_mailbox_s)]: five [uint32_t] before the flexible array. *)
Definition sizeof_amp_mailbox_s : Z := 20.

(** [memcpy(&data[dest], src, n)] into payload storage. *)
Definition memcpy_in (m : bytes) (dest : Z) (src : list byte) (n : Z) : bytes :=
  fun a => if (dest <=? a) && (a <? dest + n) then peek src (a - dest) else m a.

(** [memcpy(dst, &data[src], n)] into a caller buffer. *)
Fixpoint memcpy_out_loop (n : nat) (i : Z) (dst : list byte) (m : bytes)
  (src : Z) : list byte :=
  match n with
  | O => dst
  | S n' => memcpy_out_loop n' (i + 1) (poke dst i (m (src + i))) m src
  end.

Definition memcpy_out (dst : list byte) (m : bytes) (src n : Z) : list byte :=
  memcpy_out_loop (Z.to_nat n) 0 dst m src.

(** The rounding of [slots] to the next power of two in [amp_mailbox_create]. *)
Definition round_slots (slots : Z) : Z :=
  let slots := u32 (slots - 1) in
  let slots := Z.lor slots (Z.shiftr slots 1) in
  let slots := Z.lor slots (Z.shiftr slots 2) in
  let slots := Z.lor slots (Z.shiftr slots 4) in
  let slots := Z.lor slots (Z.shiftr slots 8) in
  let slots := Z.lor slots (Z.shiftr slots 16) in
  u32 (slots + 1).

(** [mem] is the content of the arena when the mailbox is created: the
    payload array is the storage that follows the header. *)
Definition amp_mailbox_create (g : Shmem.amp_shmem_pool_t) (mem : bytes)
  (config : option MailboxConfig.amp_mailbox_config_t)
  : option amp_mailbox_s * Shmem.amp_shmem_pool_t :=
  match config with
  | None => (None, g)
  | Some c =>
      if (MailboxConfig.msg_size c =? 0) || (MailboxConfig.msg_slots c =? 0)
      then (None, g)
      else
        let slots := MailboxConfig.msg_slots c in
        let slots :=
          if negb (Z.land slots (u32 (slots - 1)) =? 0)
          then round_slots slots else slots in
        let total_size :=
          usize (sizeof_amp_mailbox_s + u32 (MailboxConfig.msg_size c * slots)) in
        let '(mbox, g') := Shmem.amp_shmem_alloc g total_size in
        if mbox =? NULL then (None, g')
        else
          (Some (mk_mbox 0 0 (MailboxConfig.msg_size c) slots (u32 (slots - 1))
                   (fun i => mem (mbox + sizeof_amp_mailbox_s + i))), g')
  end.

Definition amp_mailbox_try_send (mbox : option amp_mailbox_s)
  (msg : option (list byte)) : Z * option amp_mailbox_s :=
  match mbox, msg with
  | Some m, Some src =>
      let write_idx := Mailbox.write_idx m in
      let read_idx := Mailbox.read_idx m in
      if u32 (write_idx - read_idx) >=? msg_slots m then (-1, mbox)
      else
        let slot := Z.land write_idx (mask m) in
        let dest := u32 (slot * msg_size m) in
        let data' := memcpy_in (data m) dest src (msg_size m) in
        (0, Some (mk_mbox (u32 (write_idx + 1)) (Mailbox.read_idx m)
                    (msg_size m) (msg_slots m) (mask m) data'))
  | _, _ => (-1, mbox)
  end.

(** Returns the status, the mailbox and the caller's buffer afterwards. *)
Definition amp_mailbox_try_recv (mbox : option amp_mailbox_s)
  (msg : option (list byte))
  : Z * option amp_mailbox_s * option (list byte) :=
  match mbox, msg with
  | Some m, Some dst =>
      let write_idx := Mailbox.write_idx m in
      let read_idx := Mailbox.read_idx m in
      if read_idx >=? write_idx then (-1, mbox, msg)
      else
        let slot := Z.land read_idx (mask m) in
        let src := u32 (slot * msg_size m) in
        let dst' := memcpy_out dst (data m) src (msg_size m) in
        (0, Some (mk_mbox (Mailbox.write_idx m) (u32 (read_idx + 1))
                    (msg_size m) (msg_slots m) (mask m) (data m)), Some dst')
  | _, _ => (-1, mbox, msg)
  end.

(** The busy-wait loop of [amp_mailbox_send], with no other core running. *)
Fixpoint send_loop (fuel : nat) (mbox : option amp_mailbox_s)
  (msg : option (list byte)) (timeout_ms count : Z)
  : option (Z * option amp_mailbox_s) :=
  match fuel with
  | O => None
  | S fuel' =>
      let '(r, mbox') := amp_mailbox_try_send mbox msg in
      if negb (r =? 0) then
        if timeout_ms >? 0 then
          let count := u32 (count - 1) in
          if count =? 0 then Some (-1, mbox')
          else send_loop fuel' mbox' msg timeout_ms count
        else send_loop fuel' mbox' msg timeout_ms count
      else Some (0, mbox')
  end.

Definition amp_mailbox_send (fuel : nat) (mbox : option amp_mailbox_s)
  (msg : option (list byte)) (timeout_ms : Z)
  : option (Z * option amp_mailbox_s) :=
  let count := u32 (timeout_ms * 1000) in
  send_loop fuel mbox msg timeout_ms count.

Fixpoint recv_loop (fuel : nat) (mbox : option amp_mailbox_s)
  (msg : option (list byte)) (timeout_ms count : Z)
  : option (Z * option amp_mailbox_s * option (list byte)) :=
  match fuel with
  | O => None
  | S fuel' =>
      let '(r, mbox', msg') := amp_mailbox_try_recv mbox msg in
      if negb (r =? 0) then
        if timeout_ms >? 0 then
          let count := u32 (count - 1) in
          if count =? 0 then Some (-1, mbox', msg')
          else recv_loop fuel' mbox' msg' timeout_ms count
        else recv_loop fuel' mbox' msg' timeout_ms count
      else Some (0, mbox', msg')
  end.

Definition amp_mailbox_recv (fuel : nat) (mbox : option amp_mailbox_s)
  (msg : option (list byte)) (timeout_ms : Z)
  : option (Z * option amp_mailbox_s * option (list byte)) :=
  let count := u32 (timeout_ms * 1000) in
  recv_loop fuel mbox msg timeout_ms count.

(** *** One producer core and one consumer core

    [amp_mailbox_try_send] runs on the producer and [amp_mailbox_try_recv] on
    the consumer, each cut at its accesses to the two indices: load
    [write_idx], load [read_idx], test and copy, store the advanced index.
    The steps of the two cores interleave in any order. *)

Inductive producer_pc :=
| p_idle
| p_load_write (msg : list byte)
| p_load_read (msg : list byte) (write_idx : Z)
| p_copy (msg : list byte) (write_idx read_idx : Z)
| p_publish (write_idx : Z).

Inductive consumer_pc :=
| c_idle
| c_load_write (msg : list byte)
| c_load_read (msg : list byte) (write_idx : Z)
| c_copy (msg : list byte) (write_idx read_idx : Z)
| c_publish (msg : list byte) (read_idx : Z).

Definition set_write_idx (m : amp_mailbox_s) (w : Z) : amp_mailbox_s :=
  mk_mbox w (read_idx m) (msg_size m) (msg_slots m) (mask m) (data m).

Definition set_read_idx (m : amp_mailbox_s) (r : Z) : amp_mailbox_s :=
  mk_mbox (write_idx m) r (msg_size m) (msg_slots m) (mask m) (data m).

Definition set_data (m : amp_mailbox_s) (d : bytes) : amp_mailbox_s :=
  mk_mbox (write_idx m) (read_idx m) (msg_size m) (msg_slots m) (mask m) d.

(** A step gives the mailbox, the next program point and, when the call
    returns, its status. *)
Definition producer_step (m : amp_mailbox_s) (p : producer_pc)
  : amp_mailbox_s * producer_pc * option Z :=
  match p with
  | p_idle => (m, p_idle, None)
  | p_load_write msg => (m, p_load_read msg (write_idx m), None)
  | p_load_read msg w => (m, p_copy msg w (read_idx m), None)
  | p_copy msg w r =>
      if u32 (w - r) >=? msg_slots m then (m, p_idle, Some (-1))
      else
        let slot := Z.land w (mask m) in
        let dest := u32 (slot * msg_size m) in
        (set_data m (memcpy_in (data m) dest msg (msg_size m)), p_publish w, None)
  | p_publish w => (set_write_idx m (u32 (w + 1)), p_idle, Some 0)
  end.

(** The consumer also hands back the filled buffer when it returns 0. *)
Definition consumer_step (m : amp_mailbox_s) (p : consumer_pc)
  : amp_mailbox_s * consumer_pc * option (Z * list byte) :=
  match p with
  | c_idle => (m, c_idle, None)
  | c_load_write msg => (m, c_load_read msg (write_idx m), None)
  | c_load_read msg w => (m, c_copy msg w (read_idx m), None)
  | c_copy msg w r =>
      if r >=? w then (m, c_idle, Some (-1, msg))
      else
        let slot := Z.land r (mask m) in
        let src := u32 (slot * msg_size m) in
        (m, c_publish (memcpy_out msg (data m) src (msg_size m)) r, None)
  | c_publish msg r => (set_read_idx m (u32 (r + 1)), c_idle, Some (0, msg))
  end.

Record system := mk_system {
  mbox : amp_mailbox_s;
  producer : producer_pc;
  consumer : consumer_pc;
  sent : list Z;
  received : list (Z * list byte)
}.

Inductive action :=
| call_try_send (msg : list byte)
| call_try_recv (msg : list byte)
| step_producer
| step_consumer.

Definition system_step (a : action) (s : system) : system :=
  match a with
  | call_try_send msg =>
      match producer s with
      | p_idle => mk_system (mbox s) (p_load_write msg) (consumer s) (sent s) (received s)
      | _ => s
      end
  | call_try_recv msg =>
      match consumer s with
      | c_idle => mk_system (mbox s) (producer s) (c_load_write msg) (sent s) (received s)
      | _ => s
      end
  | step_producer =>
      let '(m, p, r) := producer_step (mbox s) (producer s) in
      mk_system m p (consumer s)
        (match r with Some v => v :: sent s | None => sent s end) (received s)
  | step_consumer =>
      let '(m, p, r) := consumer_step (mbox s) (consumer s) in
      mk_system m (producer s) p (sent s)
        (match r with Some v => v :: received s | None => received s end)
  end.

Definition run (sched : list action) (s : system) : system :=
  fold_left (fun st a => system_step a st) sched s.

Definition start (m : amp_mailbox_s) : system := mk_system m p_idle c_idle [] [].

(** The capacity invariant of the specification. *)
Definition capacity_ok (m : amp_mailbox_s) : Prop :=
  0 <= u32 (write_idx m - read_idx m) <= msg_slots m.

(** What each core knows between its steps.  The producer owns
    [write_idx], so its copy is exact, while its copy [r] of [read_idx] may
    be stale: the consumer has moved from [r] towards [write_idx] since.
    Symmetrically for the consumer and its copy [w] of [write_idx]. *)
Definition producer_ok (m : amp_mailbox_s) (p : producer_pc) : Prop :=
  match p with
  | p_idle | p_load_write _ => True
  | p_load_read _ w => w = write_idx m
  | p_copy _ w r =>
      w = write_idx m /\ is_u32 r /\
      u32 (read_idx m - r) + u32 (write_idx m - read_idx m)
      = u32 (write_idx m - r)
  | p_publish w =>
      w = write_idx m /\ u32 (write_idx m - read_idx m) < msg_slots m
  end.

Definition consumer_ok (m : amp_mailbox_s) (p : consumer_pc) : Prop :=
  match p with
  | c_idle | c_load_write _ => True
  | c_load_read _ w =>
      is_u32 w /\
      u32 (write_idx m - w) + u32 (w - read_idx m)
      = u32 (write_idx m - read_idx m)
  | c_copy _ w r =>
      r = read_idx m /\ is_u32 w /\
      u32 (write_idx m - w) + u32 (w - read_idx m)
      = u32 (write_idx m - read_idx m)
  | c_publish _ r =>
      r = read_idx m /\ 1 <= u32 (write_idx m - read_idx m)
  end.

Definition invariant (s : system) : Prop :=
  is_u32 (write_idx (mbox s)) /\ is_u32 (read_idx (mbox s)) /\
  is_u32 (msg_slots (mbox s)) /\
  capacity_ok (mbox s) /\
  producer_ok (mbox s) (producer s) /\
  consumer_ok (mbox s) (consumer s).

(** The message held in the slot of running index [idx]: the [msg_size]
    bytes at [data[(idx & mask) * msg_size]]. *)
Definition slot_bytes (m : amp_mailbox_s) (idx : Z) : list byte :=
  map (fun j => data m (u32 (Z.land idx (mask m) * msg_size m) + Z.of_nat j))
    (seq 0 (Z.to_nat (msg_size m))).

(** The messages sent and not yet received, oldest first: the slots of the
    running indices from [read_idx] up to [write_idx]. *)
Definition pending (m : amp_mailbox_s) : list (list byte) :=
  map (fun i => slot_bytes m (u32 (read_idx m + Z.of_nat i)))
    (seq 0 (Z.to_nat (u32 (write_idx m - read_idx m)))).

(** The control-block invariants: word-sized indices, a power-of-two slot
    count with its mask, a payload of [msg_slots * msg_size] bytes that a
    32-bit offset can address, and a fill level within the slot count. *)
Definition well_formed (m : amp_mailbox_s) : Prop :=
  is_u32 (write_idx m) /\ is_u32 (read_idx m) /\
  (exists k, 0 <= k < 32 /\ msg_slots m = 2 ^ k) /\
  mask m = msg_slots m - 1 /\
  0 < msg_size m /\ msg_size m * msg_slots m <= 2 ^ 32 /\
  u32 (write_idx m - read_idx m) <= msg_slots m.

(** [k] rounds of one [amp_mailbox_try_send] followed by one
    [amp_mailbox_try_recv], on one core. *)
Fixpoint rounds (k : nat) (msg : list byte) (mbox : option amp_mailbox_s)
  : option amp_mailbox_s :=
  match k with
  | O => mbox
  | S k' =>
      let m1 := snd (amp_mailbox_try_send (rounds k' msg mbox) (Some msg)) in
      snd (fst (amp_mailbox_try_recv m1 (Some msg)))
  end.

End Mailbox.

(** ** amp_ringbuf.c *)

Module Ringbuf.

Record amp_ringbuf_s := mk_ringbuf {
  write_idx : Z;
  read_idx : Z;
  size : Z;
  mask : Z;
  data : bytes
}.

(** [sizeof(struct amp_ringbuf_s)]: four [uint32_t] before the flexible array. *)
Definition sizeof_amp_ringbuf_s : Z := 16.

(** [mem] is the content of the arena when the buffer is created. *)
Definition amp_ringbuf_create (g : Shmem.amp_shmem_pool_t) (mem : bytes)
  (size : Z) : option amp_ringbuf_s * Shmem.amp_shmem_pool_t :=
  if (size =? 0) || negb (Z.land size (usize (size - 1)) =? 0) then (None, g)
  else
    let total_size := usize (sizeof_amp_ringbuf_s + size) in
    let '(rb, g') := Shmem.amp_shmem_alloc g total_size in
    if rb =? NULL then (None, g')
    else
      (Some (mk_ringbuf 0 0 (u32 size) (u32 (size - 1))
               (fun i => mem (rb + sizeof_amp_ringbuf_s + i))), g').

Definition amp_ringbuf_available (rb : option amp_ringbuf_s) : Z :=
  match rb with
  | None => 0
  | Some b =>
      let write_idx := Ringbuf.write_idx b in
      let read_idx := Ringbuf.read_idx b in
      u32 (write_idx - read_idx)
  end.

Definition amp_ringbuf_free_space (rb : option amp_ringbuf_s) : Z :=
  match rb with
  | None => 0
  | Some b => usize (size b - amp_ringbuf_available rb)
  end.

(** [for (i = i0; i < i0 + n; i++) data[(write_idx + i) & mask] = src[i];] *)
Fixpoint write_loop (n : nat) (i : Z) (write_idx mask : Z) (src : list byte)
  (d : bytes) : bytes :=
  match n with
  | O => d
  | S n' =>
      let at_ := Z.land (u32 (write_idx + i)) mask in
      write_loop n' (i + 1) write_idx mask src
        (fun a => if a =? at_ then peek src i else d a)
  end.

Definition amp_ringbuf_write (rb : option amp_ringbuf_s)
  (data : option (list byte)) (len : Z) : Z * option amp_ringbuf_s :=
  match rb, data with
  | Some b, Some src =>
      if len =? 0 then (0, rb)
      else
        let free_space := amp_ringbuf_free_space rb in
        let len := if len >? free_space then free_space else len in
        let write_idx := Ringbuf.write_idx b in
        let d := write_loop (Z.to_nat len) 0 write_idx (mask b) src (Ringbuf.data b) in
        (len, Some (mk_ringbuf (u32 (write_idx + u32 len)) (read_idx b)
                      (size b) (mask b) d))
  | _, _ => (0, rb)
  end.

(** [for (i = i0; i < i0 + n; i++) dst[i] = data[(read_idx + i) & mask];] *)
Fixpoint read_loop (n : nat) (i : Z) (read_idx mask : Z) (d : bytes)
  (dst : list byte) : list byte :=
  match n with
  | O => dst
  | S n' =>
      read_loop n' (i + 1) read_idx mask d
        (poke dst i (d (Z.land (u32 (read_idx + i)) mask)))
  end.

(** Returns the count, the buffer block and the caller's buffer afterwards. *)
Definition amp_ringbuf_read (rb : option amp_ringbuf_s)
  (data : option (list byte)) (len : Z)
  : Z * option amp_ringbuf_s * option (list byte) :=
  match rb, data with
  | Some b, Some dst =>
      if len =? 0 then (0, rb, data)
      else
        let available := amp_ringbuf_available rb in
        let len := if len >? available then available else len in
        let read_idx := Ringbuf.read_idx b in
        let dst' := read_loop (Z.to_nat len) 0 read_idx (mask b) (Ringbuf.data b) dst in
        (len, Some (mk_ringbuf (write_idx b) (u32 (read_idx + u32 len))
                      (size b) (mask b) (Ringbuf.data b)), Some dst')
  | _, _ => (0, rb, data)
  end.

Definition amp_ringbuf_clear (rb : option amp_ringbuf_s) : option amp_ringbuf_s :=
  match rb with
  | None => None
  | Some b =>
      Some (mk_ringbuf (write_idx b) (write_idx b) (size b) (mask b) (Ringbuf.data b))
  end.

(** The control-block invariants of the specification: the fields are
    [uint32_t] values, [size] is a power of two, [mask = size - 1], and the
    fill level does not exceed [size]. *)
Definition well_formed (b : amp_ringbuf_s) : Prop :=
  is_u32 (write_idx b) /\ is_u32 (read_idx b) /\
  (exists k, 0 <= k < 32 /\ size b = 2 ^ k) /\
  mask b = size b - 1 /\
  u32 (write_idx b - read_idx b) <= size b.

(** Slot of a running index: [idx & mask] on the wrapped index. *)
Definition slot (b : amp_ringbuf_s) (idx : Z) : Z := Z.land (u32 idx) (mask b).

(** [b'] is [b] after [n] bytes of [src] were stored at the write index:
    the bytes sit in consecutive slots, nothing else changed, and
    [write_idx] moved on by [n]. *)
Definition stored (b : amp_ringbuf_s) (src : list byte) (n : Z)
  (b' : amp_ringbuf_s) : Prop :=
  write_idx b' = u32 (write_idx b + n) /\ read_idx b' = read_idx b /\
  size b' = size b /\ mask b' = mask b /\
  (forall j, 0 <= j < n -> data b' (slot b (write_idx b + j)) = peek src j) /\
  (forall a, (forall j, 0 <= j < n -> slot b (write_idx b + j) <> a) ->
             data b' a = data b a).

(** [b'] and [out] are [b] and the caller buffer [dst] after [n] bytes were
    loaded from the read index: [out] starts with the bytes of consecutive
    slots, the rest of the buffer and the payload are unchanged, and
    [read_idx] moved on by [n]. *)
Definition loaded (b : amp_ringbuf_s) (dst : list byte) (n : Z)
  (b' : amp_ringbuf_s) (out : list byte) : Prop :=
  write_idx b' = write_idx b /\ read_idx b' = u32 (read_idx b + n) /\
  size b' = size b /\ mask b' = mask b /\
  (forall a, data b' a = data b a) /\
  length out = length dst /\
  (forall j, 0 <= j < n -> j < Z.of_nat (length dst) ->
             peek out j = data b (slot b (read_idx b + j))) /\
  (forall j, 0 <= j -> n <= j -> peek out j = peek dst j).

(** *** One writer core and one reader core

    [amp_ringbuf_write] runs on the writer and [amp_ringbuf_read] on the
    reader, each cut at its accesses to the two indices: the two loads
    inside [amp_ringbuf_available], the load of its own index, the copy
    loop, the store of the advanced index.  The steps of the two cores
    interleave in any order. *)

Inductive writer_pc :=
| w_idle
| w_avail_write (src : list byte) (len : Z)
| w_avail_read (src : list byte) (len : Z) (write_idx : Z)
| w_load (src : list byte) (len : Z)
| w_copy (src : list byte) (len : Z) (write_idx : Z)
| w_publish (len : Z) (write_idx : Z).

Inductive reader_pc :=
| r_idle
| r_avail_write (dst : list byte) (len : Z)
| r_avail_read (dst : list byte) (len : Z) (write_idx : Z)
| r_load (dst : list byte) (len : Z)
| r_copy (dst : list byte) (len : Z) (read_idx : Z)
| r_publish (dst : list byte) (len : Z) (read_idx : Z).

Definition set_write_idx (b : amp_ringbuf_s) (w : Z) : amp_ringbuf_s :=
  mk_ringbuf w (read_idx b) (size b) (mask b) (data b).

Definition set_read_idx (b : amp_ringbuf_s) (r : Z) : amp_ringbuf_s :=
  mk_ringbuf (write_idx b) r (size b) (mask b) (data b).

Definition set_data (b : amp_ringbuf_s) (d : bytes) : amp_ringbuf_s :=
  mk_ringbuf (write_idx b) (read_idx b) (size b) (mask b) d.

(** A step gives the buffer, the next program point and, when the call
    returns, the count. *)
Definition writer_step (b : amp_ringbuf_s) (p : writer_pc)
  : amp_ringbuf_s * writer_pc * option Z :=
  match p with
  | w_idle => (b, w_idle, None)
  | w_avail_write src len => (b, w_avail_read src len (write_idx b), None)
  | w_avail_read src len w =>
      let available := u32 (w - read_idx b) in
      let free_space := usize (size b - available) in
      let len := if len >? free_space then free_space else len in
      (b, w_load src len, None)
  | w_load src len => (b, w_copy src len (write_idx b), None)
  | w_copy src len w =>
      (set_data b (write_loop (Z.to_nat len) 0 w (mask b) src (data b)),
       w_publish len w, None)
  | w_publish len w => (set_write_idx b (u32 (w + u32 len)), w_idle, Some len)
  end.

(** The reader also hands back the filled buffer when it returns. *)
Definition reader_step (b : amp_ringbuf_s) (p : reader_pc)
  : amp_ringbuf_s * reader_pc * option (Z * list byte) :=
  match p with
  | r_idle => (b, r_idle, None)
  | r_avail_write dst len => (b, r_avail_read dst len (write_idx b), None)
  | r_avail_read dst len w =>
      let available := u32 (w - read_idx b) in
      let len := if len >? available then available else len in
      (b, r_load dst len, None)
  | r_load dst len => (b, r_copy dst len (read_idx b), None)
  | r_copy dst len r =>
      (b, r_publish (read_loop (Z.to_nat len) 0 r (mask b) (data b) dst) len r,
       None)
  | r_publish dst len r =>
      (set_read_idx b (u32 (r + u32 len)), r_idle, Some (len, dst))
  end.

Record system := mk_system {
  rb : amp_ringbuf_s;
  writer : writer_pc;
  reader : reader_pc;
  written : list Z;
  taken : list (Z * list byte)
}.

(** The calls carry non-null pointers; [len] is a [size_t]. *)
Inductive action :=
| call_write (src : list byte) (len : Z)
| call_read (dst : list byte) (len : Z)
| step_writer
| step_reader.

Definition system_step (a : action) (s : system) : system :=
  match a with
  | call_write src len =>
      match writer s with
      | w_idle =>
          if len =? 0
          then mk_system (rb s) w_idle (reader s) (0 :: written s) (taken s)
          else mk_system (rb s) (w_avail_write src len) (reader s)
                 (written s) (taken s)
      | _ => s
      end
  | call_read dst len =>
      match reader s with
      | r_idle =>
          if len =? 0
          then mk_system (rb s) (writer s) r_idle (written s)
                 ((0, dst) :: taken s)
          else mk_system (rb s) (writer s) (r_avail_write dst len)
                 (written s) (taken s)
      | _ => s
      end
  | step_writer =>
      let '(b, p, r) := writer_step (rb s) (writer s) in
      mk_system b p (reader s)
        (match r with Some v => v :: written s | None => written s end)
        (taken s)
  | step_reader =>
      let '(b, p, r) := reader_step (rb s) (reader s) in
      mk_system b (writer s) p (written s)
        (match r with Some v => v :: taken s | None => taken s end)
  end.

Definition run (sched : list action) (s : system) : system :=
  fold_left (fun st a => system_step a st) sched s.

Definition start (b : amp_ringbuf_s) : system :=
  mk_system b w_idle r_idle [] [].

(** An action whose [len] is a [size_t] value. *)
Definition typed (a : action) : Prop :=
  match a with
  | call_write _ len | call_read _ len => is_u32 len
  | _ => True
  end.

(** What each core knows between its steps.  The writer has checked room
    for [len] more bytes, and the reader can only have made more; the reader
    has checked that [len] bytes are there, and the writer can only have
    added more. *)
Definition writer_ok (b : amp_ringbuf_s) (p : writer_pc) : Prop :=
  match p with
  | w_idle => True
  | w_avail_write _ len => 0 <= len
  | w_avail_read _ len w => 0 <= len /\ w = write_idx b
  | w_load _ len =>
      0 <= len /\ u32 (write_idx b - read_idx b) + len <= size b
  | w_copy _ len w | w_publish len w =>
      0 <= len /\ w = write_idx b /\
      u32 (write_idx b - read_idx b) + len <= size b
  end.

Definition reader_ok (b : amp_ringbuf_s) (p : reader_pc) : Prop :=
  match p with
  | r_idle => True
  | r_avail_write _ len => 0 <= len
  | r_avail_read _ len w =>
      0 <= len /\ is_u32 w /\
      u32 (write_idx b - w) + u32 (w - read_idx b)
      = u32 (write_idx b - read_idx b)
  | r_load _ len => 0 <= len <= u32 (write_idx b - read_idx b)
  | r_copy _ len r | r_publish _ len r =>
      r = read_idx b /\ 0 <= len <= u32 (write_idx b - read_idx b)
  end.

Definition invariant (s : system) : Prop :=
  well_formed (rb s) /\
  writer_ok (rb s) (writer s) /\ reader_ok (rb s) (reader s).

(** The bytes written and not yet read, oldest first: the slots of the
    running indices from [read_idx] up to [write_idx]. *)
Definition contents (b : amp_ringbuf_s) : list byte :=
  map (fun i => data b (slot b (read_idx b + Z.of_nat i)))
    (seq 0 (Z.to_nat (u32 (write_idx b - read_idx b)))).

End Ringbuf.

(** ** examples/shared-counter/shared_counter.c *)

Module SharedCounter.

Record shared_counter_t := mk_counter {
  counter : Z;
  core0_increments : Z;
  core1_increments : Z
}.

(** The timeout [increment_counter] passes to [amp_semaphore_wait]. *)
Definition WAIT_TIMEOUT_MS : Z := 1000.

(** [increment_counter(core_id)] on core [core_id], with the bodies of
    [amp_semaphore_wait], [amp_semaphore_try_wait] and [amp_semaphore_post]
    in place, cut at each access to the semaphore count and to the shared
    counter.  [count] is the countdown of [amp_semaphore_wait]. *)
Inductive pc :=
| idle
| wait_load (count : Z)
| wait_cas (count : Z) (current : Z)
| crit_load
| crit_store (old_value : Z)
| crit_track
| post_load
| post_cas (current : Z).

Definition thread_step (c : core) (se : Semaphore.amp_semaphore_s)
  (sh : shared_counter_t) (p : pc)
  : Semaphore.amp_semaphore_s * shared_counter_t * pc :=
  match p with
  | idle => (se, sh, idle)
  | wait_load count =>
      let current := Semaphore.count se in
      if current =? 0 then
        if WAIT_TIMEOUT_MS >? 0 then
          let count := u32 (count - 1) in
          if count =? 0 then (se, sh, idle)
          else (se, sh, wait_load count)
        else (se, sh, wait_load count)
      else (se, sh, wait_cas count current)
  | wait_cas count current =>
      let '(ok, v) :=
        Semaphore.atomic_cas (Semaphore.count se) current (u32 (current - 1)) in
      if ok then (Semaphore.mk_sem v (Semaphore.max_count se), sh, crit_load)
      else (Semaphore.mk_sem v (Semaphore.max_count se), sh, wait_load count)
  | crit_load => (se, sh, crit_store (counter sh))
  | crit_store old_value =>
      (se, mk_counter (u32 (old_value + 1)) (core0_increments sh)
             (core1_increments sh), crit_track)
  | crit_track =>
      (se,
       match c with
       | core0 => mk_counter (counter sh) (u32 (core0_increments sh + 1))
                    (core1_increments sh)
       | core1 => mk_counter (counter sh) (core0_increments sh)
                    (u32 (core1_increments sh + 1))
       end, post_load)
  | post_load =>
      let current := Semaphore.count se in
      if current >=? Semaphore.max_count se then (se, sh, idle)
      else (se, sh, post_cas current)
  | post_cas current =>
      let '(ok, v) :=
        Semaphore.atomic_cas (Semaphore.count se) current (u32 (current + 1)) in
      if ok then (Semaphore.mk_sem v (Semaphore.max_count se), sh, idle)
      else (Semaphore.mk_sem v (Semaphore.max_count se), sh, post_load)
  end.

Record system := mk_system {
  sem : Semaphore.amp_semaphore_s;
  shared : shared_counter_t;
  pc0 : pc;
  pc1 : pc
}.

Inductive action :=
| call (c : core)
| step (c : core).

Definition system_step (a : action) (s : system) : system :=
  match a with
  | call core0 =>
      match pc0 s with
      | idle => mk_system (sem s) (shared s)
                  (wait_load (u32 (WAIT_TIMEOUT_MS * 1000))) (pc1 s)
      | _ => s
      end
  | call core1 =>
      match pc1 s with
      | idle => mk_system (sem s) (shared s) (pc0 s)
                  (wait_load (u32 (WAIT_TIMEOUT_MS * 1000)))
      | _ => s
      end
  | step core0 =>
      let '(se, sh, p) := thread_step core0 (sem s) (shared s) (pc0 s) in
      mk_system se sh p (pc1 s)
  | step core1 =>
      let '(se, sh, p) := thread_step core1 (sem s) (shared s) (pc1 s) in
      mk_system se sh (pc0 s) p
  end.

Definition run (sched : list action) (s : system) : system :=
  fold_left (fun st a => system_step a st) sched s.

(** As [main] sets up: a zeroed counter and [amp_semaphore_create(1, 1)]. *)
Definition start : system :=
  mk_system (Semaphore.mk_sem 1 1) (mk_counter 0 0 0) idle idle.

(** 1 while the core is between taking and releasing the semaphore. *)
Definition holding (p : pc) : Z :=
  match p with
  | crit_load | crit_store _ | crit_track | post_load | post_cas _ => 1
  | _ => 0
  end.

(** 1 while the core has stored the counter and not yet its own tally. *)
Definition tallying (p : pc) : Z :=
  match p with
  | crit_track => 1
  | _ => 0
  end.

Definition pc_ok (sh : shared_counter_t) (p : pc) : Prop :=
  match p with
  | wait_cas _ current => current <> 0
  | crit_store old_value => old_value = counter sh
  | _ => True
  end.

(** The invariant, seen from a core at [p] with the other core at [q]: the
    semaphore is binary, its count and the holders add up to 1, and the
    counter is the two tallies plus those still to be written. *)
Definition invariant_of (se : Semaphore.amp_semaphore_s)
  (sh : shared_counter_t) (p q : pc) : Prop :=
  Semaphore.max_count se = 1 /\
  0 <= Semaphore.count se /\
  Semaphore.count se + holding p + holding q = 1 /\
  counter sh
  = u32 (core0_increments sh + core1_increments sh + tallying p + tallying q) /\
  pc_ok sh p /\ pc_ok sh q.

Definition invariant (s : system) : Prop :=
  invariant_of (sem s) (shared s) (pc0 s) (pc1 s).

End SharedCounter.

(** * Properties *)

(** ** Machine arithmetic *)

Lemma two_32 : 2 ^ 32 = 4294967296.
Proof. reflexivity. Qed.

Ltac unwrap :=
  unfold u32, usize, uptr, is_u32, NULL in *; rewrite ?two_32 in *.

Lemma u32_range x : is_u32 (u32 x).
Proof. unwrap. lia. Qed.

Lemma u32_small x : is_u32 x -> u32 x = x.
Proof. unwrap. lia. Qed.

Lemma land_low3_zero x y : y mod 8 = 0 -> Z.land x y mod 8 = 0.
Proof.
  intros Hy.
  change 8 with (2 ^ 3) in *.
  rewrite <- Z.land_ones in * by lia.
  rewrite <- Z.land_assoc, Hy.
  apply Z.land_0_r.
Qed.

Lemma testbit_u32 x i : 0 <= i < 32 -> Z.testbit (u32 x) i = Z.testbit x i.
Proof. intros Hi. unfold u32. apply Z.mod_pow2_bits_low. lia. Qed.

(** A positive word with [n & (n - 1) == 0] is a power of two. *)
Lemma pow2_of_land n :
  0 < n -> Z.land n (n - 1) = 0 -> n = 2 ^ Z.log2 n.
Proof.
  intros Hn Hland.
  destruct (Z.log2_spec n Hn) as [Hlo Hhi].
  destruct (Z.eq_dec n (2 ^ Z.log2 n)) as [|Hne]; [assumption|].
  exfalso.
  assert (Hk : 0 <= Z.log2 n) by apply Z.log2_nonneg.
  assert (Hlog : Z.log2 (n - 1) = Z.log2 n).
  { apply Z.log2_unique; [assumption|]. split; [lia|]. eapply Z.lt_trans; [|exact Hhi]. lia. }
  assert (Hb1 : Z.testbit n (Z.log2 n) = true) by (apply Z.bit_log2; lia).
  assert (Hb2 : Z.testbit (n - 1) (Z.log2 n) = true).
  { rewrite <- Hlog. apply Z.bit_log2. lia. }
  assert (Hb : Z.testbit (Z.land n (n - 1)) (Z.log2 n) = true).
  { rewrite Z.land_spec, Hb1, Hb2. reflexivity. }
  rewrite Hland, Z.bits_0 in Hb. discriminate.
Qed.

(** ** Caller buffers *)

Lemma length_poke_nat l n v : length (poke_nat l n v) = length l.
Proof.
  revert n. induction l as [|x t IH]; intros [|n]; simpl; auto.
Qed.

Lemma nth_poke_nat_same l n v d :
  (n < length l)%nat -> nth n (poke_nat l n v) d = v.
Proof.
  revert n. induction l as [|x t IH]; intros [|n]; simpl; intros H;
    try lia; auto. apply IH. lia.
Qed.

Lemma nth_poke_nat_other l n k v d :
  n <> k -> nth k (poke_nat l n v) d = nth k l d.
Proof.
  revert n k. induction l as [|x t IH]; intros [|n] [|k]; simpl; intros H;
    try congruence; auto.
Qed.

Lemma length_poke l i v : length (poke l i v) = length l.
Proof. apply length_poke_nat. Qed.

Lemma peek_poke_same l i v :
  0 <= i < Z.of_nat (length l) -> peek (poke l i v) i = v.
Proof.
  intros H. unfold peek, poke. apply nth_poke_nat_same. lia.
Qed.

Lemma peek_poke_other l i k v :
  0 <= i -> 0 <= k -> i <> k -> peek (poke l i v) k = peek l k.
Proof.
  intros Hi Hk H. unfold peek, poke. apply nth_poke_nat_other. lia.
Qed.

(** ** Shared arena *)

Lemma alloc_rounded_size_aligned s :
  Z.land (usize (s + 7)) (usize (Z.lnot 7)) mod 8 = 0.
Proof. apply land_low3_zero. reflexivity. Qed.

Lemma shmem_init_ok g mem b sz :
  b <> NULL -> sz <> 0 ->
  Shmem.amp_shmem_init g mem b sz
  = (0, Shmem.mk_pool b sz 0, memset mem b x00 sz).
Proof.
  intros Hb Hsz. unfold Shmem.amp_shmem_init.
  destruct (Z.eqb_spec b NULL); [contradiction|].
  destruct (Z.eqb_spec sz 0); [contradiction|]. reflexivity.
Qed.

Lemma shmem_init_success g mem b sz g' mem' :
  Shmem.amp_shmem_init g mem b sz = (0, g', mem') ->
  b <> NULL /\ sz <> 0 /\ g' = Shmem.mk_pool b sz 0.
Proof.
  unfold Shmem.amp_shmem_init.
  destruct (Z.eqb_spec b NULL); simpl; [discriminate|].
  destruct (Z.eqb_spec sz 0); simpl; [discriminate|].
  intros H. inversion H. auto.
Qed.

(** What every pool a program can hold satisfies: the base and size are
    those given to [amp_shmem_init], and the bump offset is a word that is a
    multiple of 8. *)
Lemma reachable_pool b sz g :
  Shmem.reachable b sz g ->
  Shmem.base g = b /\ Shmem.size g = sz /\ b <> NULL /\
  0 <= Shmem.allocated g < 2 ^ 32 /\ Shmem.allocated g mod 8 = 0.
Proof.
  induction 1 as [g0 mem g' mem' Hinit | g n Hr IH].
  - apply shmem_init_success in Hinit. destruct Hinit as (Hb & _ & ->).
    simpl. repeat split; auto; lia.
  - destruct IH as (Hb & Hs & Hnn & Hrange & Hal).
    unfold Shmem.amp_shmem_alloc.
    destruct ((n =? 0) || (Shmem.base g =? NULL)); simpl; [tauto|].
    destruct (_ >? _); simpl; [tauto|].
    repeat split; auto.
    + unfold usize. apply Z.mod_pos_bound. lia.
    + unfold usize. apply Z.mod_pos_bound. lia.
    + pose proof (alloc_rounded_size_aligned n) as Hr8.
      set (r := Z.land _ _) in *. unfold usize at 1. rewrite two_32. lia.
Qed.

(** C9: every non-null pointer returned by [amp_shmem_alloc] is the pool
    base plus an offset that is a multiple of 8; [amp_shmem_init] accepts
    every non-null base with a non-zero size, aligned or not; so a returned
    pointer is 8-byte aligned exactly when the base given to
    [amp_shmem_init] is. *)
Theorem shmem_alloc_alignment_follows_base :
  (forall g mem b sz,
      b <> NULL -> sz <> 0 ->
      fst (fst (Shmem.amp_shmem_init g mem b sz)) = 0 /\
      Shmem.base (snd (fst (Shmem.amp_shmem_init g mem b sz))) = b) /\
  (forall b sz g n,
      Shmem.reachable b sz g ->
      fst (Shmem.amp_shmem_alloc g n) <> NULL ->
      (exists off, 0 <= off /\ off mod 8 = 0 /\
                   fst (Shmem.amp_shmem_alloc g n) = uptr (b + off)) /\
      (fst (Shmem.amp_shmem_alloc g n) mod 8 = 0 <-> b mod 8 = 0)).
Proof.
  split.
  - intros g mem b sz Hb Hsz. rewrite shmem_init_ok by assumption. auto.
  - intros b sz g n Hr Hp.
    destruct (reachable_pool _ _ _ Hr) as (Hb & Hs & Hnn & Hrange & Hal).
    unfold Shmem.amp_shmem_alloc in *.
    destruct ((n =? 0) || (Shmem.base g =? NULL)); simpl in *; [congruence|].
    destruct (_ >? _); simpl in *; [congruence|].
    rewrite Hb. split.
    + exists (Shmem.allocated g). repeat split; auto; lia.
    + unfold uptr. rewrite two_32. lia.
Qed.

(** An arena whose base is odd: [amp_shmem_init] accepts it, the allocation
    succeeds and the pointer is not aligned. *)
Lemma shmem_alloc_alignment_follows_base_witness :
  let g := Shmem.mk_pool 537133057 16384 0 in
  (fst (fst (Shmem.amp_shmem_init Shmem.g_shmem_pool (fun _ => x00)
               537133057 16384)) = 0 /\
   Shmem.base (snd (fst (Shmem.amp_shmem_init Shmem.g_shmem_pool
                           (fun _ => x00) 537133057 16384))) = 537133057) /\
  (exists off, 0 <= off /\ off mod 8 = 0 /\
               fst (Shmem.amp_shmem_alloc g 24) = uptr (537133057 + off)) /\
  (fst (Shmem.amp_shmem_alloc g 24) mod 8 = 0 <-> 537133057 mod 8 = 0).
Proof.
  split.
  - apply (proj1 shmem_alloc_alignment_follows_base); discriminate.
  - apply (proj2 shmem_alloc_alignment_follows_base 537133057 16384).
    + apply (Shmem.reach_init _ _ Shmem.g_shmem_pool (fun _ => x00) _
               (memset (fun _ => x00) 537133057 x00 16384)).
      reflexivity.
    + vm_compute. discriminate.
Defined.

(** C3: the bounds test of [amp_shmem_alloc] adds in [size_t] and wraps.  In
    an arena of 16 bytes at 0x20040000, requests of 8, 0xFFFFFFF8 and 8 bytes
    all return a pointer: the second range runs far past the arena, the
    counter ends at 8 while the rounded sizes sum to 2^32 + 8, and the third
    pointer is the first one again. *)
Theorem shmem_alloc_wraps_on_large_request :
  let g := snd (fst (Shmem.amp_shmem_init Shmem.g_shmem_pool (fun _ => x00)
                       537133056 16)) in
  Shmem.alloc_all g [8; 4294967288; 8]
  = ([537133056; 537133064; 537133056], Shmem.mk_pool 537133056 16 8) /\
  Shmem.round_up8 8 + Shmem.round_up8 4294967288 + Shmem.round_up8 8
  = 2 ^ 32 + 8.
Proof. split; reflexivity. Qed.

(** Short of that wrap-around the allocator is the one the specification
    describes.  The rounding first: *)
Lemma alloc_rounding y :
  Z.land (usize y) (usize (Z.lnot 7)) = usize y / 8 * 8.
Proof.
  unfold usize at 2.
  rewrite <- (Z.land_ones (Z.lnot 7) 32) by lia.
  rewrite (Z.land_comm (Z.lnot 7)), Z.land_assoc.
  rewrite (Z.land_ones _ 32) by lia.
  unfold usize. rewrite Z.mod_mod by (rewrite two_32; lia).
  rewrite <- Z.ldiff_land. change 7 with (Z.ones 3).
  rewrite Z.ldiff_ones_r, Z.shiftl_mul_pow2, Z.shiftr_div_pow2 by lia.
  reflexivity.
Qed.

(** One call, when neither the rounding nor the space test can wrap: null
    exactly for a zero size or a rounded request that does not fit, else the
    bump pointer, and the counter advances by the rounded size. *)
Lemma shmem_alloc_exact g s :
  0 <= s -> 0 <= Shmem.allocated g <= Shmem.size g ->
  Shmem.round_up8 s + Shmem.size g < 2 ^ 32 ->
  0 < Shmem.base g -> Shmem.base g + Shmem.size g <= 2 ^ 32 ->
  Shmem.amp_shmem_alloc g s
  = if (s =? 0) || (Shmem.allocated g + Shmem.round_up8 s >? Shmem.size g)
    then (NULL, g)
    else (Shmem.base g + Shmem.allocated g,
          Shmem.mk_pool (Shmem.base g) (Shmem.size g)
            (Shmem.allocated g + Shmem.round_up8 s)).
Proof.
  intros Hs Ha Hfit Hb Hregion. unfold Shmem.amp_shmem_alloc.
  destruct (Z.eqb_spec s 0) as [|Hnz]; cbn [orb]; [reflexivity|].
  destruct (Z.eqb_spec (Shmem.base g) NULL) as [Hnull|_];
    [unfold NULL in Hnull; lia|].
  rewrite alloc_rounding. unfold Shmem.round_up8 in *.
  rewrite two_32 in *.
  assert (Hround : usize (s + 7) / 8 * 8 = (s + 7) / 8 * 8)
    by (unfold usize; rewrite two_32; lia).
  rewrite Hround.
  assert (Hsum : usize (Shmem.allocated g + (s + 7) / 8 * 8)
                 = Shmem.allocated g + (s + 7) / 8 * 8)
    by (unfold usize; rewrite two_32; lia).
  rewrite Hsum.
  destruct (Z.gtb_spec (Shmem.allocated g + (s + 7) / 8 * 8) (Shmem.size g));
    [reflexivity|].
  f_equal. unfold uptr. rewrite two_32. apply Z.mod_small. lia.
Qed.

(** A run of successful calls: the blocks lie end to end from the bump
    pointer, none reaches past the arena, and the counter has advanced by the
    sum of the rounded sizes. *)
Lemma shmem_alloc_all_laid_out :
  forall sizes g ps g',
    0 <= Shmem.allocated g <= Shmem.size g ->
    0 < Shmem.base g -> Shmem.base g + Shmem.size g <= 2 ^ 32 ->
    Forall (fun s => 0 <= s /\ Shmem.round_up8 s + Shmem.size g < 2 ^ 32) sizes ->
    Shmem.alloc_all g sizes = (ps, g') ->
    Forall (fun p => p <> NULL) ps ->
    Shmem.allocated g' = Shmem.allocated g + Shmem.total_rounded sizes /\
    Shmem.laid_out (Shmem.base g + Shmem.allocated g)
      (Shmem.base g + Shmem.size g) ps sizes.
Proof.
  induction sizes as [|s sizes IH]; intros g ps g' Ha Hb Hregion Hsizes Hrun Hok.
  - cbn in Hrun. inversion Hrun; subst. cbn. lia.
  - cbn [Shmem.alloc_all] in Hrun.
    inversion Hsizes as [|? ? [Hs Hfit] Hrest]; subst.
    rewrite (shmem_alloc_exact g s Hs Ha Hfit Hb Hregion) in Hrun.
    destruct ((s =? 0) || (_ >? _)) eqn:E.
    + destruct (Shmem.alloc_all g sizes) as [ps1 g1].
      inversion Hrun; subst. inversion Hok; subst. congruence.
    + apply orb_false_iff in E. destruct E as [_ E].
      rewrite Z.gtb_ltb in E. apply Z.ltb_ge in E.
      set (g1 := Shmem.mk_pool _ _ _) in *.
      destruct (Shmem.alloc_all g1 sizes) as [ps1 g2] eqn:Hrun1.
      inversion Hrun; subst ps g'. inversion Hok; subst.
      assert (Hs0 : 0 <= Shmem.round_up8 s)
        by (unfold Shmem.round_up8; lia).
      destruct (IH g1 ps1 g2) as (Hal & Hlay); subst g1; cbn; auto; try lia.
      cbn [Shmem.total_rounded fold_right Shmem.laid_out].
      cbn in Hal, Hlay. fold (Shmem.total_rounded sizes).
      split; [lia|]. split; [reflexivity|].
      rewrite <- Z.add_assoc. exact Hlay.
Qed.

(** ** Semaphore: the count of a null handle *)

(** C10: [amp_semaphore_get_count] returns 0 for the null handle, which is
    also what it returns for a semaphore whose count is 0, whatever its
    maximum. *)
Theorem semaphore_get_count_null :
  Semaphore.amp_semaphore_get_count None = 0 /\
  forall max_count,
    Semaphore.amp_semaphore_get_count (Some (Semaphore.mk_sem 0 max_count))
    = Semaphore.amp_semaphore_get_count None.
Proof. split; reflexivity. Qed.

(** Such a semaphore is one that [amp_semaphore_create] hands out. *)
Lemma semaphore_create_count g initial_count max_count s g' :
  Semaphore.amp_semaphore_create g initial_count max_count = (Some s, g') ->
  s = Semaphore.mk_sem initial_count max_count /\
  initial_count <= max_count /\ max_count <> 0.
Proof.
  unfold Semaphore.amp_semaphore_create.
  destruct (Z.gtb_spec initial_count max_count); simpl; [discriminate|].
  destruct (Z.eqb_spec max_count 0); simpl; [discriminate|].
  destruct (Shmem.amp_shmem_alloc g Semaphore.sizeof_amp_semaphore_s) as [p g1].
  destruct (p =? NULL); [discriminate|].
  intros Heq. inversion Heq. auto.
Qed.

(** ** Boot handshake *)

Lemma boot_wait_keeps_flags fuel core_id timeout_ms flags :
  snd (Boot.amp_boot_wait_core_ready fuel core_id timeout_ms flags) = flags.
Proof.
  unfold Boot.amp_boot_wait_core_ready.
  destruct (core_id >=? Boot.AMP_CORE_COUNT); reflexivity.
Qed.

Lemma boot_core_keeps_flags core_id entry_point stack_pointer flags :
  snd (Boot.amp_boot_core core_id entry_point stack_pointer flags) = flags.
Proof.
  unfold Boot.amp_boot_core.
  destruct ((core_id >=? Boot.AMP_CORE_COUNT) || (core_id =? Boot.AMP_CORE0));
    reflexivity.
Qed.

Lemma boot_signal_ready_keeps_bits self flags i :
  0 <= i < 32 -> Z.testbit flags i = true ->
  Z.testbit (Boot.amp_boot_signal_ready self flags) i = true.
Proof.
  intros Hi Hbit. unfold Boot.amp_boot_signal_ready.
  rewrite testbit_u32 by assumption.
  rewrite Z.lor_spec, Hbit. reflexivity.
Qed.

(** C7, as the code has it, each boot operation taken as one uninterrupted
    call: a ready bit that is set stays set across every boot operation of
    every core other than [amp_boot_init] on the primary core, an
    [amp_boot_init] that a non-primary core attempts being rejected with the
    word untouched; [amp_boot_init] run on the primary core stores 0 and then
    sets the primary's bit, which leaves [core_ready_flags] equal to 1
    whatever the word held before. *)
Theorem boot_ready_bit_kept_except_by_init
  (self : Z) (op : Boot.boot_op) (flags i : Z) :
  0 <= i < 32 ->
  Z.testbit flags i = true ->
  (Z.testbit (Boot.boot_exec self op flags) i = true \/
   (op = Boot.op_init /\ self = Boot.AMP_CORE0 /\
    Boot.boot_exec self op flags = 1)) /\
  (op <> Boot.op_init \/ self <> Boot.AMP_CORE0 ->
   Z.testbit (Boot.boot_exec self op flags) i = true) /\
  (self <> Boot.AMP_CORE0 ->
   Boot.amp_boot_init self flags
   = (Boot.AMP_BOOT_ERROR_INVALID_CORE, flags)) /\
  (forall w : Z,
     Boot.amp_boot_init Boot.AMP_CORE0 w = (Boot.AMP_BOOT_SUCCESS, 1)).
Proof.
  intros Hi Hbit.
  assert (Hrejected : self <> Boot.AMP_CORE0 ->
                      Boot.amp_boot_init self flags
                      = (Boot.AMP_BOOT_ERROR_INVALID_CORE, flags)).
  { intros Hne. unfold Boot.amp_boot_init.
    destruct (Z.eqb_spec self Boot.AMP_CORE0); [contradiction | reflexivity]. }
  assert (Hkept : op <> Boot.op_init \/ self <> Boot.AMP_CORE0 ->
                  Z.testbit (Boot.boot_exec self op flags) i = true).
  { intros Hother. destruct op as [|c e s|f c t|]; cbn [Boot.boot_exec].
    - destruct Hother as [Hop|Hne]; [contradiction|].
      rewrite (Hrejected Hne). assumption.
    - rewrite boot_core_keeps_flags. assumption.
    - rewrite boot_wait_keeps_flags. assumption.
    - apply boot_signal_ready_keeps_bits; assumption. }
  assert (Hinit : forall w : Z,
             Boot.amp_boot_init Boot.AMP_CORE0 w = (Boot.AMP_BOOT_SUCCESS, 1))
    by (intros w; reflexivity).
  split; [|split; [assumption|split; assumption]].
  destruct op as [|c e s|f c t|];
    try (left; apply Hkept; left; discriminate).
  destruct (Z.eq_dec self Boot.AMP_CORE0) as [->|Hne].
  - right. split; [reflexivity|]. split; [reflexivity|].
    cbn [Boot.boot_exec]. rewrite Hinit. reflexivity.
  - left. apply Hkept. right. assumption.
Qed.

(** Both cores are ready and core 1 attempts [amp_boot_init]: it is turned
    away and its ready bit stays. *)
Lemma boot_ready_bit_kept_except_by_init_witness :
  (Z.testbit (Boot.boot_exec Boot.AMP_CORE1 Boot.op_init 3) 1 = true \/
   (Boot.op_init = Boot.op_init /\ Boot.AMP_CORE1 = Boot.AMP_CORE0 /\
    Boot.boot_exec Boot.AMP_CORE1 Boot.op_init 3 = 1)) /\
  (Boot.op_init <> Boot.op_init \/ Boot.AMP_CORE1 <> Boot.AMP_CORE0 ->
   Z.testbit (Boot.boot_exec Boot.AMP_CORE1 Boot.op_init 3) 1 = true) /\
  (Boot.AMP_CORE1 <> Boot.AMP_CORE0 ->
   Boot.amp_boot_init Boot.AMP_CORE1 3
   = (Boot.AMP_BOOT_ERROR_INVALID_CORE, 3)) /\
  (forall w : Z,
     Boot.amp_boot_init Boot.AMP_CORE0 w = (Boot.AMP_BOOT_SUCCESS, 1)).
Proof.
  apply (boot_ready_bit_kept_except_by_init Boot.AMP_CORE1 Boot.op_init 3 1).
  - lia.
  - reflexivity.
Defined.

(** C7, as the specification has it, fails: core 1 signals ready, then the
    primary core runs [amp_boot_init]; bit 1 was set and is now clear. *)
Lemma boot_init_clears_ready_bit :
  Boot.reachable (Boot.boot_exec Boot.AMP_CORE1 Boot.op_signal_ready 0) /\
  Z.testbit (Boot.boot_exec Boot.AMP_CORE1 Boot.op_signal_ready 0) 1 = true /\
  Z.testbit
    (Boot.boot_exec Boot.AMP_CORE0 Boot.op_init
       (Boot.boot_exec Boot.AMP_CORE1 Boot.op_signal_ready 0)) 1 = false.
Proof.
  split; [|split; reflexivity].
  apply Boot.reach_step; [apply Boot.reach_start|].
  unfold Boot.AMP_CORE1, Boot.AMP_CORE_COUNT. lia.
Qed.

(** ** Mailbox: sequential calls *)

Lemma try_send_null msg :
  Mailbox.amp_mailbox_try_send None msg = (-1, None).
Proof. reflexivity. Qed.

(** C8: with a null handle and [timeout_ms = 0] the busy-wait loop of
    [amp_mailbox_send] has no exit: [amp_mailbox_try_send] answers -1 on
    every turn and the timeout test is skipped, so no amount of fuel yields
    a return value. *)
Theorem mailbox_send_null_no_timeout_never_returns :
  forall fuel msg, Mailbox.amp_mailbox_send fuel None msg 0 = None.
Proof.
  intros fuel msg. unfold Mailbox.amp_mailbox_send.
  generalize (u32 (0 * 1000)) as count.
  induction fuel as [|fuel IH]; intros count; simpl; [reflexivity|].
  apply IH.
Qed.

(** With a positive timeout the countdown runs out and -1 is returned. *)
Lemma send_loop_null_counts_down msg timeout_ms :
  0 < timeout_ms ->
  forall (k fuel : nat),
    (S k <= fuel)%nat -> Z.of_nat (S k) < 2 ^ 32 ->
    Mailbox.send_loop fuel None msg timeout_ms (Z.of_nat (S k))
    = Some (-1, None).
Proof.
  intros Ht. induction k as [|k IH]; intros fuel Hfuel Hk;
    (destruct fuel as [|fuel]; [lia|]);
    cbn [Mailbox.send_loop]; rewrite try_send_null; cbn [negb Z.eqb];
    destruct (Z.gtb_spec timeout_ms 0); try lia.
  - reflexivity.
  - rewrite Nat2Z.inj_succ.
    replace (u32 (Z.succ (Z.of_nat (S k)) - 1)) with (Z.of_nat (S k))
      by (unwrap; lia).
    destruct (Z.eqb_spec (Z.of_nat (S k)) 0); [lia|].
    apply IH; lia.
Qed.

Lemma mailbox_send_null_times_out msg timeout_ms fuel :
  0 < timeout_ms -> 2 ^ 32 <= Z.of_nat fuel ->
  Mailbox.amp_mailbox_send fuel None msg timeout_ms = Some (-1, None).
Proof.
  intros Ht Hfuel. unfold Mailbox.amp_mailbox_send.
  pose proof (u32_range (timeout_ms * 1000)) as Hc.
  set (c := u32 (timeout_ms * 1000)) in *. unfold is_u32 in Hc.
  destruct (Z.eq_dec c 0) as [Hz|Hnz].
  - destruct fuel as [|fuel]; [rewrite two_32 in Hfuel; lia|].
    cbn [Mailbox.send_loop]. rewrite try_send_null. cbn [negb Z.eqb].
    destruct (Z.gtb_spec timeout_ms 0); try lia.
    rewrite Hz. change (u32 (0 - 1)) with (2 ^ 32 - 1).
    change (2 ^ 32 - 1 =? 0) with false. cbv iota.
    replace (2 ^ 32 - 1) with (Z.of_nat (S (Z.to_nat (2 ^ 32 - 2))))
      by (rewrite Nat2Z.inj_succ, Z2Nat.id; rewrite ?two_32; lia).
    apply send_loop_null_counts_down; [assumption| |].
    + rewrite two_32 in *. lia.
    + rewrite Nat2Z.inj_succ, Z2Nat.id; rewrite ?two_32; lia.
  - replace c with (Z.of_nat (S (Z.to_nat (c - 1))))
      by (rewrite Nat2Z.inj_succ, Z2Nat.id; lia).
    apply send_loop_null_counts_down; [assumption| |].
    + rewrite two_32 in *. lia.
    + rewrite Nat2Z.inj_succ, Z2Nat.id; lia.
Qed.

(** C1: [amp_mailbox_try_recv] tests [read_idx >= write_idx] on the raw
    words, not the unsigned difference.  Once [write_idx] has wrapped to 0
    while [read_idx] is still 0xFFFFFFFF, one message is pending
    ([write_idx - read_idx] is 1) and the capacity invariant holds, yet the
    call answers -1 and leaves mailbox and buffer as they were. *)
Theorem mailbox_try_recv_fails_after_wrap :
  u32 (0 - 4294967295) = 1 /\
  Mailbox.capacity_ok (Mailbox.mk_mbox 0 4294967295 4 2 1 (fun _ => x00)) /\
  Mailbox.amp_mailbox_try_recv
    (Some (Mailbox.mk_mbox 0 4294967295 4 2 1 (fun _ => x00)))
    (Some [x00; x00; x00; x00])
  = (-1, Some (Mailbox.mk_mbox 0 4294967295 4 2 1 (fun _ => x00)),
     Some [x00; x00; x00; x00]).
Proof.
  split; [reflexivity|]. split; [|reflexivity].
  unfold Mailbox.capacity_ok. simpl. unwrap. lia.
Qed.

(** The state above is one a program gets to: send and receive one message
    at a time. *)
Lemma mailbox_rounds_indices msg m0 :
  Mailbox.write_idx m0 = 0 -> Mailbox.read_idx m0 = 0 ->
  1 <= Mailbox.msg_slots m0 ->
  forall k : nat, Z.of_nat k < 2 ^ 32 ->
    exists m, Mailbox.rounds k msg (Some m0) = Some m /\
              Mailbox.write_idx m = Z.of_nat k /\
              Mailbox.read_idx m = Z.of_nat k /\
              Mailbox.msg_slots m = Mailbox.msg_slots m0.
Proof.
  intros Hw Hr Hslots. induction k as [|k IH]; intros Hk.
  - exists m0. simpl. auto.
  - destruct IH as (m & Hm & Hmw & Hmr & Hms); [lia|].
    cbn [Mailbox.rounds]. rewrite Hm. unfold Mailbox.amp_mailbox_try_send.
    rewrite Hmw, Hmr, Hms, Z.sub_diag.
    change (u32 0) with 0.
    destruct (Z.geb_spec 0 (Mailbox.msg_slots m0)); [lia|].
    cbn [snd]. unfold Mailbox.amp_mailbox_try_recv. cbn [Mailbox.write_idx Mailbox.read_idx].
    assert (Hnext : u32 (Z.of_nat k + 1) = Z.of_nat (S k)) by (unwrap; lia).
    rewrite Hnext.
    destruct (Z.geb_spec (Z.of_nat k) (Z.of_nat (S k))); [lia|].
    cbn [fst snd]. eexists. split; [reflexivity|].
    cbn [Mailbox.write_idx Mailbox.read_idx Mailbox.msg_slots]. auto.
Qed.

Lemma nat_of_word_max : exists k : nat, Z.of_nat k = 4294967295.
Proof. exists (Z.to_nat 4294967295). apply Z2Nat.id. lia. Qed.

Lemma mailbox_wrapped_state_reached msg buf m0 :
  Mailbox.write_idx m0 = 0 -> Mailbox.read_idx m0 = 0 ->
  1 <= Mailbox.msg_slots m0 ->
  exists (k : nat) m,
    snd (Mailbox.amp_mailbox_try_send (Mailbox.rounds k msg (Some m0)) (Some msg))
    = Some m /\
    u32 (Mailbox.write_idx m - Mailbox.read_idx m) = 1 /\
    Mailbox.amp_mailbox_try_recv (Some m) (Some buf) = (-1, Some m, Some buf).
Proof.
  intros Hw Hr Hslots.
  destruct nat_of_word_max as [k Hk]. exists k.
  destruct (mailbox_rounds_indices msg m0 Hw Hr Hslots k)
    as (m & Hm & Hmw & Hmr & Hms).
  { rewrite two_32; lia. }
  rewrite Hk in Hmw, Hmr. clear Hk.
  rewrite Hm. unfold Mailbox.amp_mailbox_try_send.
  rewrite Hmw, Hmr, Hms, Z.sub_diag. change (u32 0) with 0.
  destruct (Z.geb_spec 0 (Mailbox.msg_slots m0)); [lia|].
  cbn [snd]. eexists. split; [reflexivity|].
  cbn [Mailbox.write_idx Mailbox.read_idx]. split; [reflexivity|].
  unfold Mailbox.amp_mailbox_try_recv. cbn [Mailbox.write_idx Mailbox.read_idx].
  reflexivity.
Qed.

(** ** Semaphore: two cores *)

Lemma semaphore_successes_cons f ev l :
  Semaphore.successes f (ev :: l)
  = Semaphore.successes f l
    + (if Semaphore.same_call f (Semaphore.ev_call ev)
          && (Semaphore.ev_result ev =? 0) then 1 else 0).
Proof.
  unfold Semaphore.successes. cbn [filter].
  destruct (_ && _); cbn [length]; lia.
Qed.

Lemma semaphore_credit_log e l :
  Semaphore.successes Semaphore.call_post
    (match e with Some ev => ev :: l | None => l end)
  - Semaphore.successes Semaphore.call_try_wait
      (match e with Some ev => ev :: l | None => l end)
  = Semaphore.successes Semaphore.call_post l
    - Semaphore.successes Semaphore.call_try_wait l + Semaphore.credit e.
Proof.
  destruct e as [ev|]; cbn [Semaphore.credit]; [|lia].
  rewrite !semaphore_successes_cons.
  destruct (Semaphore.ev_call ev), (Semaphore.ev_result ev =? 0);
    cbn [Semaphore.same_call andb]; lia.
Qed.

(** One step of one core: the count stays a word in [0, max], moves by what
    the returned call accounts for, and the call answers as specified. *)
Lemma semaphore_thread_step max se p se' p' e :
  is_u32 max ->
  Semaphore.max_count se = max -> 0 <= Semaphore.count se <= max ->
  Semaphore.tested max p ->
  Semaphore.thread_step se p = (se', p', e) ->
  Semaphore.max_count se' = max /\
  0 <= Semaphore.count se' <= max /\
  Semaphore.count se' = Semaphore.count se + Semaphore.credit e /\
  Semaphore.tested max p' /\
  match e with
  | Some ev => Semaphore.answers_as_specified max ev
  | None => True
  end.
Proof.
  intros Hmax Hm Hc Hp Hstep. destruct p as [| |cur| |cur];
    cbn [Semaphore.thread_step Semaphore.tested] in *.
  - inversion Hstep; subst. cbn. repeat split; auto; lia.
  - destruct (Z.eqb_spec (Semaphore.count se) 0) as [Hz|Hnz];
      inversion Hstep; subst; cbn; unfold Semaphore.answers_as_specified; cbn;
      repeat split; auto; try lia.
  - unfold Semaphore.atomic_cas in Hstep.
    destruct (Z.eqb_spec (Semaphore.count se) cur) as [He|Hne];
      inversion Hstep; subst; cbn; unfold Semaphore.answers_as_specified; cbn;
      repeat split; auto; try (unwrap; lia).
  - destruct (Z.geb_spec (Semaphore.count se) (Semaphore.max_count se));
      inversion Hstep; subst; cbn; unfold Semaphore.answers_as_specified; cbn;
      repeat split; auto; try lia.
  - unfold Semaphore.atomic_cas in Hstep.
    destruct (Z.eqb_spec (Semaphore.count se) cur) as [He|Hne];
      inversion Hstep; subst; cbn; unfold Semaphore.answers_as_specified; cbn;
      repeat split; auto; try (unwrap; lia).
Qed.

Lemma semaphore_step_invariant initial max a s :
  is_u32 max ->
  Semaphore.invariant initial max s ->
  Semaphore.invariant initial max (Semaphore.system_step a s).
Proof.
  intros Hmax (Hm & Hc & Hbal & Hp0 & Hp1 & Hlog).
  destruct a as [c f|c]; cbn [Semaphore.system_step].
  - destruct c; cbn [Semaphore.pc_of].
    + destruct (Semaphore.pc0 s) eqn:E;
        try (unfold Semaphore.invariant; rewrite E; tauto).
      unfold Semaphore.invariant; destruct f; cbn; tauto.
    + destruct (Semaphore.pc1 s) eqn:E;
        try (unfold Semaphore.invariant; rewrite E; tauto).
      unfold Semaphore.invariant; destruct f; cbn; tauto.
  - destruct (Semaphore.thread_step (Semaphore.sem s) (Semaphore.pc_of c s))
      as [[se p] e] eqn:Hstep.
    assert (Hp : Semaphore.tested max (Semaphore.pc_of c s))
      by (destruct c; assumption).
    destruct (semaphore_thread_step _ _ _ _ _ _ Hmax Hm Hc Hp Hstep)
      as (Hm' & Hc' & Hcount & Hp' & He).
    unfold Semaphore.invariant.
    destruct c; cbn [Semaphore.with_pc Semaphore.sem Semaphore.pc0
                       Semaphore.pc1 Semaphore.log];
      rewrite semaphore_credit_log;
      (repeat split; try assumption; try lia;
       destruct e; [constructor|]; assumption).
Qed.

Lemma semaphore_run_invariant initial max sched s :
  is_u32 max ->
  Semaphore.invariant initial max s ->
  Semaphore.invariant initial max (Semaphore.run sched s).
Proof.
  intros Hmax. revert s. unfold Semaphore.run.
  induction sched as [|a sched IH]; intros s Hinv; cbn [fold_left].
  - assumption.
  - apply IH. apply semaphore_step_invariant; assumption.
Qed.

Lemma semaphore_word_pred c max :
  is_u32 max -> 0 <= c <= max -> c <> 0 -> u32 (c - 1) = c - 1.
Proof. intros. unwrap. lia. Qed.

Lemma semaphore_word_succ c max :
  is_u32 max -> 0 <= c <= max -> c < max -> u32 (c + 1) = c + 1.
Proof. intros. unwrap. lia. Qed.

Ltac semaphore_unfold :=
  cbv beta iota zeta delta
    [Semaphore.alone Semaphore.run fold_left Semaphore.call_fn
     Semaphore.amp_semaphore_try_wait Semaphore.try_wait_loop
     Semaphore.amp_semaphore_post Semaphore.post_loop Semaphore.atomic_cas
     Semaphore.sem Semaphore.log Semaphore.count Semaphore.max_count].

(** The innermost pending step of the machine, taken on its own. *)
Ltac semaphore_one :=
  match goal with
  | |- context [Semaphore.system_step ?a (Semaphore.mk_system ?se ?p ?q ?l)] =>
      let t := eval cbv beta iota zeta delta
                 [Semaphore.system_step Semaphore.pc_of Semaphore.with_pc
                  Semaphore.entry Semaphore.thread_step Semaphore.atomic_cas
                  Semaphore.sem Semaphore.pc0 Semaphore.pc1 Semaphore.log
                  Semaphore.count Semaphore.max_count]
               in (Semaphore.system_step a (Semaphore.mk_system se p q l)) in
      change (Semaphore.system_step a (Semaphore.mk_system se p q l)) with t
  end.

Ltac semaphore_branch :=
  match goal with
  | |- context [Z.eqb ?a ?b] => destruct (Z.eqb_spec a b); try subst a
  | |- context [Z.geb ?a ?b] => destruct (Z.geb_spec a b)
  end.

Ltac semaphore_steps :=
  semaphore_unfold;
  repeat (first [semaphore_one | semaphore_branch]; cbv beta iota zeta).

Ltac semaphore_words max :=
  repeat match goal with
         | |- context [u32 (?c - 1)] =>
             rewrite (semaphore_word_pred c max) by (assumption || lia)
         | |- context [u32 (?c + 1)] =>
             rewrite (semaphore_word_succ c max) by (assumption || lia)
         end.

(** Whatever point of a call a core is at, once the other core stands still
    the call returns within three steps of its own core, with the answer and
    the semaphore that the function of amp_semaphore.c gives from the count
    as it is now. *)
Lemma semaphore_alone_returns initial max s c f :
  is_u32 max ->
  Semaphore.invariant initial max s ->
  Semaphore.call_of (Semaphore.pc_of c s) = None \/
  Semaphore.call_of (Semaphore.pc_of c s) = Some f ->
  exists r se',
    Semaphore.call_fn f 1 (Some (Semaphore.sem s)) = Some (r, Some se') /\
    Semaphore.run (Semaphore.alone c f) s
    = Semaphore.with_pc c Semaphore.idle se'
        (Semaphore.mk_event f (Semaphore.count (Semaphore.sem s)) r
         :: Semaphore.log s) s /\
    match f with
    | Semaphore.call_try_wait =>
        if Semaphore.count (Semaphore.sem s) =? 0
        then r = -1 /\ se' = Semaphore.sem s
        else r = 0 /\
             se' = Semaphore.mk_sem (Semaphore.count (Semaphore.sem s) - 1) max
    | Semaphore.call_post =>
        if Semaphore.count (Semaphore.sem s) >=? max
        then r = -1 /\ se' = Semaphore.sem s
        else r = 0 /\
             se' = Semaphore.mk_sem (Semaphore.count (Semaphore.sem s) + 1) max
    end.
Proof.
  intros Hmax (Hm & Hc & _ & Hp0 & Hp1 & _) Hpc.
  destruct s as [[cnt mx] p0 p1 l].
  cbn [Semaphore.sem Semaphore.pc0 Semaphore.pc1 Semaphore.count
       Semaphore.max_count] in Hm, Hc, Hp0, Hp1.
  subst mx.
  assert (Hp : Semaphore.tested max
                 (Semaphore.pc_of c (Semaphore.mk_system
                                       (Semaphore.mk_sem cnt max) p0 p1 l)))
    by (destruct c; assumption).
  clear Hp0 Hp1.
  destruct c; cbn [Semaphore.pc_of Semaphore.pc0 Semaphore.pc1] in Hpc, Hp.
  - destruct p0 as [| |cur| |cur]; cbn [Semaphore.call_of Semaphore.tested] in *;
      destruct f; try (destruct Hpc; discriminate);
      semaphore_steps; try lia; try contradiction;
      semaphore_words max;
      cbv [Semaphore.with_pc Semaphore.pc0 Semaphore.pc1];
      do 2 eexists; repeat split; reflexivity.
  - destruct p1 as [| |cur| |cur]; cbn [Semaphore.call_of Semaphore.tested] in *;
      destruct f; try (destruct Hpc; discriminate);
      semaphore_steps; try lia; try contradiction;
      semaphore_words max;
      cbv [Semaphore.with_pc Semaphore.pc0 Semaphore.pc1];
      do 2 eexists; repeat split; reflexivity.
Qed.

(** C4: take a semaphore that [amp_semaphore_create initial max] returned
    and let the two cores run [amp_semaphore_try_wait] and
    [amp_semaphore_post] calls, their loads and CAS attempts interleaved in
    any order.  At every point the posts that returned 0 minus the waits that
    returned 0 equal [count - initial], [0 <= count <= max], a wait has
    returned -1 exactly when it loaded 0, and a post has returned -1 exactly
    when it loaded a value [>= max_count].  And the calls do answer: at every
    such point, a core that starts a call or is in the middle of one returns
    from it within three steps once the other core stands still, with the
    result of [amp_semaphore_try_wait] or [amp_semaphore_post] on the count
    as it is then: -1 and no change when a wait finds 0 or a post finds
    [max], else 0 and the count moved by one. *)
Theorem semaphore_conservation
  (g g' : Shmem.amp_shmem_pool_t) (initial max : Z)
  (s : Semaphore.amp_semaphore_s) (sched : list Semaphore.action) :
  is_u32 initial -> is_u32 max ->
  Semaphore.amp_semaphore_create g initial max = (Some s, g') ->
  initial <= max /\ 1 <= max /\
  Semaphore.successes Semaphore.call_post
    (Semaphore.log (Semaphore.run sched (Semaphore.start s)))
  - Semaphore.successes Semaphore.call_try_wait
      (Semaphore.log (Semaphore.run sched (Semaphore.start s)))
  = Semaphore.count (Semaphore.sem (Semaphore.run sched (Semaphore.start s)))
    - initial /\
  0 <= Semaphore.count (Semaphore.sem (Semaphore.run sched (Semaphore.start s)))
    <= max /\
  Forall (Semaphore.answers_as_specified max)
    (Semaphore.log (Semaphore.run sched (Semaphore.start s))) /\
  (forall (c : core) (f : Semaphore.call),
     let st := Semaphore.run sched (Semaphore.start s) in
     Semaphore.call_of (Semaphore.pc_of c st) = None \/
     Semaphore.call_of (Semaphore.pc_of c st) = Some f ->
     exists r se',
       Semaphore.call_fn f 1 (Some (Semaphore.sem st)) = Some (r, Some se') /\
       Semaphore.run (Semaphore.alone c f) st
       = Semaphore.with_pc c Semaphore.idle se'
           (Semaphore.mk_event f (Semaphore.count (Semaphore.sem st)) r
            :: Semaphore.log st) st /\
       match f with
       | Semaphore.call_try_wait =>
           if Semaphore.count (Semaphore.sem st) =? 0
           then r = -1 /\ se' = Semaphore.sem st
           else r = 0 /\
                se' = Semaphore.mk_sem
                        (Semaphore.count (Semaphore.sem st) - 1) max
       | Semaphore.call_post =>
           if Semaphore.count (Semaphore.sem st) >=? max
           then r = -1 /\ se' = Semaphore.sem st
           else r = 0 /\
                se' = Semaphore.mk_sem
                        (Semaphore.count (Semaphore.sem st) + 1) max
       end).
Proof.
  intros Hi Hmax Hcreate.
  apply semaphore_create_count in Hcreate. destruct Hcreate as (-> & Hle & Hnz).
  assert (Hstart : Semaphore.invariant initial max
                     (Semaphore.start (Semaphore.mk_sem initial max))).
  { unfold Semaphore.invariant, Semaphore.start, Semaphore.successes; cbn.
    unfold is_u32 in *. repeat split; auto; lia. }
  pose proof (semaphore_run_invariant initial max sched _ Hmax Hstart) as Hinv.
  pose proof Hinv as (_ & Hc & Hbal & _ & _ & Hlog).
  split; [assumption|]. split; [unfold is_u32 in *; lia|].
  split; [assumption|]. split; [assumption|]. split; [assumption|].
  intros c f st Hpc.
  exact (semaphore_alone_returns initial max st c f Hmax Hinv Hpc).
Qed.

(** A binary semaphore contended by both cores: both load 1, core 0 wins the
    CAS, core 1 loses it, reloads 0 and gives up; core 0 then posts. *)
Lemma semaphore_conservation_witness :
  let sched :=
    [Semaphore.enter core0 Semaphore.call_try_wait;
     Semaphore.enter core1 Semaphore.call_try_wait;
     Semaphore.step core0; Semaphore.step core1;
     Semaphore.step core0; Semaphore.step core1; Semaphore.step core1;
     Semaphore.enter core0 Semaphore.call_post;
     Semaphore.step core0; Semaphore.step core0] in
  let st := Semaphore.run sched (Semaphore.start (Semaphore.mk_sem 1 1)) in
  1 <= 1 /\ 1 <= 1 /\
  Semaphore.successes Semaphore.call_post (Semaphore.log st)
  - Semaphore.successes Semaphore.call_try_wait (Semaphore.log st)
  = Semaphore.count (Semaphore.sem st) - 1 /\
  0 <= Semaphore.count (Semaphore.sem st) <= 1 /\
  Forall (Semaphore.answers_as_specified 1) (Semaphore.log st) /\
  (forall (c : core) (f : Semaphore.call),
     Semaphore.call_of (Semaphore.pc_of c st) = None \/
     Semaphore.call_of (Semaphore.pc_of c st) = Some f ->
     exists r se',
       Semaphore.call_fn f 1 (Some (Semaphore.sem st)) = Some (r, Some se') /\
       Semaphore.run (Semaphore.alone c f) st
       = Semaphore.with_pc c Semaphore.idle se'
           (Semaphore.mk_event f (Semaphore.count (Semaphore.sem st)) r
            :: Semaphore.log st) st /\
       match f with
       | Semaphore.call_try_wait =>
           if Semaphore.count (Semaphore.sem st) =? 0
           then r = -1 /\ se' = Semaphore.sem st
           else r = 0 /\
                se' = Semaphore.mk_sem
                        (Semaphore.count (Semaphore.sem st) - 1) 1
       | Semaphore.call_post =>
           if Semaphore.count (Semaphore.sem st) >=? 1
           then r = -1 /\ se' = Semaphore.sem st
           else r = 0 /\
                se' = Semaphore.mk_sem
                        (Semaphore.count (Semaphore.sem st) + 1) 1
       end).
Proof.
  apply (semaphore_conservation
           (Shmem.mk_pool 537133056 16384 0) (Shmem.mk_pool 537133056 16384 8)
           1 1 (Semaphore.mk_sem 1 1)).
  - unfold is_u32. lia.
  - unfold is_u32. lia.
  - reflexivity.
Defined.

(** Run by one core alone, the CAS of either call succeeds at once: the
    loops return within one turn. *)
Lemma semaphore_try_wait_alone fuel s :
  Semaphore.amp_semaphore_try_wait (S fuel) (Some s)
  = Some (if Semaphore.count s =? 0 then (-1, Some s)
          else (0, Some (Semaphore.mk_sem (u32 (Semaphore.count s - 1))
                           (Semaphore.max_count s)))).
Proof.
  unfold Semaphore.amp_semaphore_try_wait. cbn [Semaphore.try_wait_loop].
  destruct (Semaphore.count s =? 0); [reflexivity|].
  unfold Semaphore.atomic_cas. rewrite Z.eqb_refl. reflexivity.
Qed.

Lemma semaphore_post_alone fuel s :
  Semaphore.amp_semaphore_post (S fuel) (Some s)
  = Some (if Semaphore.count s >=? Semaphore.max_count s then (-1, Some s)
          else (0, Some (Semaphore.mk_sem (u32 (Semaphore.count s + 1))
                           (Semaphore.max_count s)))).
Proof.
  unfold Semaphore.amp_semaphore_post. cbn [Semaphore.post_loop].
  destruct (Semaphore.count s >=? Semaphore.max_count s); [reflexivity|].
  unfold Semaphore.atomic_cas. rewrite Z.eqb_refl. reflexivity.
Qed.

(** ** Mailbox: one producer and one consumer *)

Ltac mailbox_fields :=
  cbn [Mailbox.mbox Mailbox.producer Mailbox.consumer
       Mailbox.set_write_idx Mailbox.set_read_idx Mailbox.set_data
       Mailbox.write_idx Mailbox.read_idx Mailbox.msg_slots
       Mailbox.producer_ok Mailbox.consumer_ok] in *.

Lemma mailbox_producer_step_invariant s :
  Mailbox.invariant s ->
  Mailbox.invariant (Mailbox.system_step Mailbox.step_producer s).
Proof.
  destruct s as [m p c tx rx]. unfold Mailbox.invariant, Mailbox.capacity_ok.
  cbn [Mailbox.system_step Mailbox.mbox Mailbox.producer Mailbox.consumer].
  intros (Hw & Hr & Hs & Hcap & Hp & Hc).
  destruct p as [|msg|msg w|msg w r|w]; cbn [Mailbox.producer_step];
    mailbox_fields.
  - tauto.
  - tauto.
  - repeat split; try tauto; unwrap; lia.
  - destruct Hp as (-> & Hr0 & Hbetween).
    destruct (Z.geb_spec (u32 (Mailbox.write_idx m - r)) (Mailbox.msg_slots m));
      mailbox_fields.
    + tauto.
    + repeat split; try tauto; unwrap; lia.
  - destruct Hp as (-> & Hroom).
    assert (Hnext : u32 (u32 (Mailbox.write_idx m + 1) - Mailbox.read_idx m)
                    = u32 (Mailbox.write_idx m - Mailbox.read_idx m) + 1)
      by (unwrap; lia).
    repeat split; try tauto; try apply u32_range; try (unwrap; lia).
    destruct c as [|buf|buf w|buf w r|buf r]; mailbox_fields; try tauto.
    + destruct Hc as (Hw0 & Hbetween). split; [assumption|].
      rewrite Hnext. unwrap. lia.
    + destruct Hc as (-> & Hw0 & Hbetween).
      split; [reflexivity|]. split; [assumption|].
      rewrite Hnext. unwrap. lia.
    + destruct Hc as (-> & Hsome). split; [reflexivity|]. lia.
Qed.

Lemma mailbox_consumer_step_invariant s :
  Mailbox.invariant s ->
  Mailbox.invariant (Mailbox.system_step Mailbox.step_consumer s).
Proof.
  destruct s as [m p c tx rx]. unfold Mailbox.invariant, Mailbox.capacity_ok.
  cbn [Mailbox.system_step Mailbox.mbox Mailbox.producer Mailbox.consumer].
  intros (Hw & Hr & Hs & Hcap & Hp & Hc).
  destruct c as [|buf|buf w|buf w r|buf r]; cbn [Mailbox.consumer_step];
    mailbox_fields.
  - tauto.
  - repeat split; try tauto; unwrap; lia.
  - tauto.
  - destruct Hc as (-> & Hw0 & Hbetween).
    destruct (Z.geb_spec (Mailbox.read_idx m) w); mailbox_fields.
    + tauto.
    + repeat split; try tauto; unwrap; lia.
  - destruct Hc as (-> & Hsome).
    assert (Hnext : u32 (Mailbox.write_idx m - u32 (Mailbox.read_idx m + 1))
                    = u32 (Mailbox.write_idx m - Mailbox.read_idx m) - 1)
      by (unwrap; lia).
    repeat split; try tauto; try apply u32_range; try (unwrap; lia).
    destruct p as [|msg|msg w|msg w r|w]; mailbox_fields; try tauto.
    + destruct Hp as (-> & Hr0 & Hbetween).
      split; [reflexivity|]. split; [assumption|].
      rewrite Hnext. unwrap. lia.
    + destruct Hp as (-> & Hroom). split; [reflexivity|]. lia.
Qed.

Lemma mailbox_step_invariant a s :
  Mailbox.invariant s -> Mailbox.invariant (Mailbox.system_step a s).
Proof.
  destruct a as [msg|msg| |].
  - intros Hinv. cbn [Mailbox.system_step].
    destruct (Mailbox.producer s) eqn:E; try assumption.
    unfold Mailbox.invariant in *. rewrite E in Hinv. cbn. tauto.
  - intros Hinv. cbn [Mailbox.system_step].
    destruct (Mailbox.consumer s) eqn:E; try assumption.
    unfold Mailbox.invariant in *. rewrite E in Hinv. cbn. tauto.
  - apply mailbox_producer_step_invariant.
  - apply mailbox_consumer_step_invariant.
Qed.

Lemma mailbox_run_invariant sched s :
  Mailbox.invariant s -> Mailbox.invariant (Mailbox.run sched s).
Proof.
  revert s. unfold Mailbox.run.
  induction sched as [|a sched IH]; intros s Hinv; cbn [fold_left].
  - assumption.
  - apply IH. apply mailbox_step_invariant. assumption.
Qed.

(** What [amp_mailbox_create] hands out: both indices at 0 and a slot count
    that fits a word. *)
Lemma mailbox_create_fresh g mem cfg m g' :
  is_u32 (MailboxConfig.msg_slots cfg) ->
  Mailbox.amp_mailbox_create g mem (Some cfg) = (Some m, g') ->
  Mailbox.write_idx m = 0 /\ Mailbox.read_idx m = 0 /\
  is_u32 (Mailbox.msg_slots m) /\
  Mailbox.msg_size m = MailboxConfig.msg_size cfg /\
  Mailbox.mask m = u32 (Mailbox.msg_slots m - 1).
Proof.
  intros Hslots. unfold Mailbox.amp_mailbox_create.
  destruct ((MailboxConfig.msg_size cfg =? 0) || (MailboxConfig.msg_slots cfg =? 0));
    [discriminate|].
  set (slots := if negb _ then _ else _).
  assert (Hs : is_u32 slots).
  { unfold slots. destruct (negb _); [apply u32_range | assumption]. }
  destruct (Shmem.amp_shmem_alloc g _) as [p g1].
  destruct (p =? NULL); [discriminate|].
  intros Heq. inversion Heq. cbn. auto.
Qed.

(** C2: take a mailbox that [amp_mailbox_create] returned and let a producer
    core run [amp_mailbox_try_send] calls and a consumer core run
    [amp_mailbox_try_recv] calls, their loads and stores of the two indices
    interleaved in any order.  At every point
    [0 <= write_idx - read_idx <= msg_slots] in arithmetic modulo 2^32. *)
Theorem mailbox_capacity_invariant
  (g g' : Shmem.amp_shmem_pool_t) (mem : bytes)
  (cfg : MailboxConfig.amp_mailbox_config_t) (m : Mailbox.amp_mailbox_s)
  (sched : list Mailbox.action) :
  is_u32 (MailboxConfig.msg_slots cfg) ->
  Mailbox.amp_mailbox_create g mem (Some cfg) = (Some m, g') ->
  Mailbox.capacity_ok (Mailbox.mbox (Mailbox.run sched (Mailbox.start m))).
Proof.
  intros Hslots Hcreate.
  destruct (mailbox_create_fresh _ _ _ _ _ Hslots Hcreate)
    as (Hw & Hr & Hs & _).
  assert (Hstart : Mailbox.invariant (Mailbox.start m)).
  { unfold Mailbox.invariant, Mailbox.capacity_ok, Mailbox.start. cbn.
    rewrite Hw, Hr. unfold is_u32 in *. change (u32 (0 - 0)) with 0.
    repeat split; auto; lia. }
  apply (mailbox_run_invariant sched) in Hstart.
  destruct Hstart as (_ & _ & _ & Hcap & _). exact Hcap.
Qed.

(** A mailbox of 3 requested slots (rounded to 4): the producer has filled
    one slot and is about to publish a second while the consumer, which
    loaded [write_idx] early, drains the first. *)
Lemma mailbox_capacity_invariant_witness :
  Mailbox.capacity_ok
    (Mailbox.mbox
       (Mailbox.run
          [Mailbox.call_try_send [x01; x02; x03; x04];
           Mailbox.step_producer; Mailbox.step_producer;
           Mailbox.step_producer; Mailbox.step_producer;
           Mailbox.call_try_recv [x00; x00; x00; x00];
           Mailbox.step_consumer;
           Mailbox.call_try_send [x05; x06; x07; x08];
           Mailbox.step_producer; Mailbox.step_producer;
           Mailbox.step_consumer; Mailbox.step_producer;
           Mailbox.step_consumer; Mailbox.step_consumer;
           Mailbox.step_producer]
          (Mailbox.start (Mailbox.mk_mbox 0 0 4 4 3 (fun _ => x00))))).
Proof.
  apply (mailbox_capacity_invariant
           (Shmem.mk_pool 537133056 16384 0) (Shmem.mk_pool 537133056 16384 40)
           (fun _ => x00) (MailboxConfig.mk_config 4 3)).
  - unfold is_u32. simpl. lia.
  - reflexivity.
Defined.

(** The producer's four steps, run without interruption, are
    [amp_mailbox_try_send]; likewise for the consumer. *)
Lemma mailbox_producer_steps_are_try_send m msg c tx rx :
  Mailbox.mbox
    (Mailbox.run
       [Mailbox.call_try_send msg; Mailbox.step_producer;
        Mailbox.step_producer; Mailbox.step_producer; Mailbox.step_producer]
       (Mailbox.mk_system m Mailbox.p_idle c tx rx))
  = match snd (Mailbox.amp_mailbox_try_send (Some m) (Some msg)) with
    | Some m' => m'
    | None => m
    end.
Proof.
  unfold Mailbox.run, Mailbox.amp_mailbox_try_send.
  cbn [fold_left Mailbox.system_step Mailbox.producer Mailbox.mbox
       Mailbox.consumer Mailbox.sent Mailbox.received Mailbox.producer_step].
  destruct (u32 (Mailbox.write_idx m - Mailbox.read_idx m) >=? Mailbox.msg_slots m);
    reflexivity.
Qed.

Lemma mailbox_consumer_steps_are_try_recv m buf p tx rx :
  Mailbox.mbox
    (Mailbox.run
       [Mailbox.call_try_recv buf; Mailbox.step_consumer;
        Mailbox.step_consumer; Mailbox.step_consumer; Mailbox.step_consumer]
       (Mailbox.mk_system m p Mailbox.c_idle tx rx))
  = match snd (fst (Mailbox.amp_mailbox_try_recv (Some m) (Some buf))) with
    | Some m' => m'
    | None => m
    end.
Proof.
  unfold Mailbox.run, Mailbox.amp_mailbox_try_recv.
  cbn [fold_left Mailbox.system_step Mailbox.producer Mailbox.mbox
       Mailbox.consumer Mailbox.sent Mailbox.received Mailbox.consumer_step].
  destruct (Mailbox.read_idx m >=? Mailbox.write_idx m); [reflexivity|].
  destruct m; reflexivity.
Qed.

(** ** Ring buffer *)

(** With [mask = 2^k - 1], masking a wrapped index is reduction modulo the
    capacity. *)
Lemma ringbuf_slot k x :
  0 <= k < 32 -> Z.land (u32 x) (2 ^ k - 1) = x mod 2 ^ k.
Proof.
  intros Hk.
  replace (2 ^ k - 1) with (Z.ones k) by (rewrite Z.ones_equiv; lia).
  rewrite Z.land_ones by lia. unfold u32. apply Z.mod_mod_divide.
  exists (2 ^ (32 - k)). rewrite <- Z.pow_add_r by lia. f_equal. lia.
Qed.

(** Fewer than [size] consecutive indices land in distinct slots. *)
Lemma ringbuf_slots_distinct sz w i j :
  0 < sz -> 0 <= i < j -> j - i < sz ->
  (w + i) mod sz <> (w + j) mod sz.
Proof.
  intros Hsz Hij Hlt Heq.
  assert (H0 : (j - i) mod sz = 0).
  { replace (j - i) with ((w + j) - (w + i)) by lia.
    rewrite Zminus_mod, Heq, Z.sub_diag. apply Z.mod_0_l. lia. }
  rewrite Z.mod_small in H0 by lia. lia.
Qed.

Lemma write_loop_elsewhere w mask src a :
  forall (n : nat) (i : Z) (d : bytes),
    (forall j, i <= j < i + Z.of_nat n -> Z.land (u32 (w + j)) mask <> a) ->
    Ringbuf.write_loop n i w mask src d a = d a.
Proof.
  induction n as [|n IH]; intros i d Hno; cbn [Ringbuf.write_loop].
  - reflexivity.
  - rewrite IH by (intros j Hj; apply Hno; lia).
    destruct (Z.eqb_spec a (Z.land (u32 (w + i)) mask)) as [Heq|]; [|reflexivity].
    exfalso. apply (Hno i); [lia | congruence].
Qed.

Lemma write_loop_stored w mask src :
  forall (n : nat) (i : Z) (d : bytes) (j : Z),
    i <= j < i + Z.of_nat n ->
    (forall j', j < j' < i + Z.of_nat n ->
                Z.land (u32 (w + j')) mask <> Z.land (u32 (w + j)) mask) ->
    Ringbuf.write_loop n i w mask src d (Z.land (u32 (w + j)) mask)
    = peek src j.
Proof.
  induction n as [|n IH]; intros i d j Hj Hlater; [lia|].
  cbn [Ringbuf.write_loop].
  destruct (Z.eq_dec j i) as [->|Hne].
  - rewrite write_loop_elsewhere by (intros j' Hj'; apply Hlater; lia).
    rewrite Z.eqb_refl. reflexivity.
  - apply IH; [lia|]. intros j' Hj'. apply Hlater. lia.
Qed.

Lemma read_loop_length r mask d :
  forall (n : nat) (i : Z) (dst : list byte),
    length (Ringbuf.read_loop n i r mask d dst) = length dst.
Proof.
  induction n as [|n IH]; intros i dst; cbn [Ringbuf.read_loop];
    [reflexivity|]. rewrite IH. apply length_poke.
Qed.

Lemma read_loop_elsewhere r mask d :
  forall (n : nat) (i : Z) (dst : list byte) (j : Z),
    0 <= i -> 0 <= j -> (j < i \/ i + Z.of_nat n <= j) ->
    peek (Ringbuf.read_loop n i r mask d dst) j = peek dst j.
Proof.
  induction n as [|n IH]; intros i dst j Hi Hj Hout; cbn [Ringbuf.read_loop];
    [reflexivity|].
  rewrite IH by lia. apply peek_poke_other; lia.
Qed.

Lemma read_loop_loaded r mask d :
  forall (n : nat) (i : Z) (dst : list byte) (j : Z),
    0 <= i -> i <= j < i + Z.of_nat n -> j < Z.of_nat (length dst) ->
    peek (Ringbuf.read_loop n i r mask d dst) j
    = d (Z.land (u32 (r + j)) mask).
Proof.
  induction n as [|n IH]; intros i dst j Hi Hj Hlen; [lia|].
  cbn [Ringbuf.read_loop].
  destruct (Z.eq_dec j i) as [->|Hne].
  - rewrite read_loop_elsewhere by lia. apply peek_poke_same. lia.
  - apply IH; [lia | lia | rewrite length_poke; assumption].
Qed.

Lemma ringbuf_wf_slots_distinct b w i j :
  Ringbuf.well_formed b -> 0 <= i < j -> j - i < Ringbuf.size b ->
  Ringbuf.slot b (w + i) <> Ringbuf.slot b (w + j).
Proof.
  intros (_ & _ & (k & Hk & Hsize) & Hmask & _) Hij Hlt.
  unfold Ringbuf.slot. rewrite Hmask, Hsize, !ringbuf_slot by assumption.
  rewrite <- Hsize. apply ringbuf_slots_distinct; try assumption.
  rewrite Hsize. apply Z.pow_pos_nonneg; lia.
Qed.

Lemma ringbuf_clamp len room :
  (if len >? room then room else len) = Z.min len room.
Proof. destruct (Z.gtb_spec len room); lia. Qed.

Lemma ringbuf_wf_free_space b :
  Ringbuf.well_formed b ->
  Ringbuf.amp_ringbuf_free_space (Some b)
  = Ringbuf.size b - u32 (Ringbuf.write_idx b - Ringbuf.read_idx b).
Proof.
  intros (_ & _ & (k & Hk & Hsize) & _ & Hfill).
  unfold Ringbuf.amp_ringbuf_free_space, Ringbuf.amp_ringbuf_available.
  assert (Ringbuf.size b < 2 ^ 32).
  { rewrite Hsize. apply Z.pow_lt_mono_r; lia. }
  unwrap. lia.
Qed.

(** What [amp_ringbuf_write] returns, and where the bytes go. *)
Lemma ringbuf_write_count b src len :
  fst (Ringbuf.amp_ringbuf_write (Some b) (Some src) len)
  = Z.min len (Ringbuf.amp_ringbuf_free_space (Some b)).
Proof.
  unfold Ringbuf.amp_ringbuf_write.
  destruct (Z.eqb_spec len 0) as [->|Hnz]; cbn [fst].
  - unfold Ringbuf.amp_ringbuf_free_space, usize. rewrite two_32. lia.
  - apply ringbuf_clamp.
Qed.

Lemma ringbuf_write_stores b src len :
  Ringbuf.well_formed b ->
  exists b',
    snd (Ringbuf.amp_ringbuf_write (Some b) (Some src) len) = Some b' /\
    Ringbuf.stored b src
      (Z.min len (Ringbuf.amp_ringbuf_free_space (Some b))) b'.
Proof.
  intros Hwf. pose proof (ringbuf_wf_free_space b Hwf) as Hfree.
  pose proof Hwf as (Hw & Hr & _ & _ & Hfill).
  pose proof (u32_range (Ringbuf.write_idx b - Ringbuf.read_idx b)) as Hav.
  unfold Ringbuf.amp_ringbuf_write.
  destruct (Z.eqb_spec len 0) as [->|Hnz]; cbn [snd].
  - exists b. split; [reflexivity|].
    replace (Z.min 0 _) with 0 by (unfold is_u32 in *; lia).
    unfold Ringbuf.stored. rewrite Z.add_0_r, u32_small by assumption.
    repeat split; auto. intros j Hj. lia.
  - rewrite ringbuf_clamp.
    set (n := Z.min len (Ringbuf.amp_ringbuf_free_space (Some b))) in *.
    eexists. split; [reflexivity|].
    unfold Ringbuf.stored.
    cbn [Ringbuf.write_idx Ringbuf.read_idx Ringbuf.size Ringbuf.mask Ringbuf.data].
    repeat split.
    + unwrap. lia.
    + intros j Hj. apply (write_loop_stored _ (Ringbuf.mask b)); [lia|].
      intros j' Hj'. apply not_eq_sym.
      apply (ringbuf_wf_slots_distinct b); [assumption | lia |].
      unfold is_u32 in *. lia.
    + intros a Hno. apply write_loop_elsewhere.
      intros j Hj. apply Hno. lia.
Qed.

(** What [amp_ringbuf_read] returns, and what it puts in the buffer. *)
Lemma ringbuf_read_count b dst len :
  fst (fst (Ringbuf.amp_ringbuf_read (Some b) (Some dst) len))
  = Z.min len (Ringbuf.amp_ringbuf_available (Some b)).
Proof.
  unfold Ringbuf.amp_ringbuf_read.
  destruct (Z.eqb_spec len 0) as [->|Hnz]; cbn [fst].
  - unfold Ringbuf.amp_ringbuf_available, u32. rewrite two_32. lia.
  - apply ringbuf_clamp.
Qed.

Lemma ringbuf_read_loads b dst len :
  is_u32 (Ringbuf.read_idx b) ->
  exists b' out,
    snd (fst (Ringbuf.amp_ringbuf_read (Some b) (Some dst) len)) = Some b' /\
    snd (Ringbuf.amp_ringbuf_read (Some b) (Some dst) len) = Some out /\
    Ringbuf.loaded b dst
      (Z.min len (Ringbuf.amp_ringbuf_available (Some b))) b' out.
Proof.
  intros Hr.
  pose proof (u32_range (Ringbuf.write_idx b - Ringbuf.read_idx b)) as Hav.
  unfold Ringbuf.amp_ringbuf_read.
  destruct (Z.eqb_spec len 0) as [->|Hnz]; cbn [fst snd].
  - exists b, dst. split; [reflexivity|]. split; [reflexivity|].
    replace (Z.min 0 _) with 0
      by (unfold Ringbuf.amp_ringbuf_available, is_u32 in *; lia).
    unfold Ringbuf.loaded. rewrite Z.add_0_r, u32_small by assumption.
    repeat split; auto. intros j Hj. lia.
  - rewrite ringbuf_clamp.
    set (n := Z.min len (Ringbuf.amp_ringbuf_available (Some b))) in *.
    eexists. eexists. split; [reflexivity|]. split; [reflexivity|].
    unfold Ringbuf.loaded.
    cbn [Ringbuf.write_idx Ringbuf.read_idx Ringbuf.size Ringbuf.mask Ringbuf.data].
    repeat split.
    + unwrap. lia.
    + apply read_loop_length.
    + intros j Hj Hlen. unfold Ringbuf.slot.
      apply read_loop_loaded; lia.
    + intros j Hj Hn. apply read_loop_elsewhere; lia.
Qed.

(** C6: [amp_ringbuf_write] returns [min(len, free_space)] with
    [free_space = size - (write_idx - read_idx)] in unsigned arithmetic, and
    [amp_ringbuf_read] returns [min(len, write_idx - read_idx)]; a count
    below [len] is the whole answer, there is no error value.  Either call
    returns 0 and changes nothing when the handle is null, the data pointer
    is null or [len] is 0.  On a buffer that satisfies the invariants of its
    control block, exactly that many bytes are stored in, or loaded from,
    consecutive slots, and the index of the calling side advances by the
    count. *)
Theorem ringbuf_short_transfers
  (b : Ringbuf.amp_ringbuf_s) (src dst : list byte) (len : Z) :
  (forall data, Ringbuf.amp_ringbuf_write None data len = (0, None)) /\
  Ringbuf.amp_ringbuf_write (Some b) None len = (0, Some b) /\
  Ringbuf.amp_ringbuf_write (Some b) (Some src) 0 = (0, Some b) /\
  (forall data, Ringbuf.amp_ringbuf_read None data len = (0, None, data)) /\
  Ringbuf.amp_ringbuf_read (Some b) None len = (0, Some b, None) /\
  Ringbuf.amp_ringbuf_read (Some b) (Some dst) 0 = (0, Some b, Some dst) /\
  fst (Ringbuf.amp_ringbuf_write (Some b) (Some src) len)
  = Z.min len
      (usize (Ringbuf.size b - u32 (Ringbuf.write_idx b - Ringbuf.read_idx b))) /\
  fst (fst (Ringbuf.amp_ringbuf_read (Some b) (Some dst) len))
  = Z.min len (u32 (Ringbuf.write_idx b - Ringbuf.read_idx b)) /\
  (Ringbuf.well_formed b ->
   (exists b',
       snd (Ringbuf.amp_ringbuf_write (Some b) (Some src) len) = Some b' /\
       Ringbuf.stored b src
         (Z.min len
            (usize (Ringbuf.size b
                    - u32 (Ringbuf.write_idx b - Ringbuf.read_idx b)))) b') /\
   (exists b' out,
       snd (fst (Ringbuf.amp_ringbuf_read (Some b) (Some dst) len)) = Some b' /\
       snd (Ringbuf.amp_ringbuf_read (Some b) (Some dst) len) = Some out /\
       Ringbuf.loaded b dst
         (Z.min len (u32 (Ringbuf.write_idx b - Ringbuf.read_idx b))) b' out)).
Proof.
  split; [intros [|]; reflexivity|].
  split; [reflexivity|]. split; [reflexivity|].
  split; [intros [|]; reflexivity|].
  split; [reflexivity|]. split; [reflexivity|].
  split; [apply ringbuf_write_count|].
  split; [apply ringbuf_read_count|].
  intros Hwf. split.
  - apply ringbuf_write_stores. assumption.
  - apply ringbuf_read_loads. apply Hwf.
Qed.

(** A buffer of 16 bytes holding 4: a write of 14 bytes stores 12. *)
Lemma ringbuf_short_transfers_witness :
  fst (Ringbuf.amp_ringbuf_write
         (Some (Ringbuf.mk_ringbuf 10 6 16 15 (fun _ => x00)))
         (Some (repeat x01 14)) 14) = 12 /\
  exists b',
    snd (Ringbuf.amp_ringbuf_write
           (Some (Ringbuf.mk_ringbuf 10 6 16 15 (fun _ => x00)))
           (Some (repeat x01 14)) 14) = Some b' /\
    Ringbuf.stored (Ringbuf.mk_ringbuf 10 6 16 15 (fun _ => x00))
      (repeat x01 14) 12 b'.
Proof.
  destruct (ringbuf_short_transfers
              (Ringbuf.mk_ringbuf 10 6 16 15 (fun _ => x00))
              (repeat x01 14) [] 14)
    as (_ & _ & _ & _ & _ & _ & Hcount & _ & Hmove).
  split; [exact Hcount|].
  apply Hmove.
  unfold Ringbuf.well_formed, is_u32. simpl.
  repeat split; try lia.
  - exists 4. split; [lia | reflexivity].
  - unwrap. lia.
Defined.

Lemma firstn_of_peek (out data : list byte) (n : nat) :
  length data = n -> (n <= length out)%nat ->
  (forall j, 0 <= j < Z.of_nat n -> peek out j = peek data j) ->
  firstn n out = data.
Proof.
  intros Hdata Hout Hsame.
  apply (nth_ext _ _ x00 x00).
  - rewrite firstn_length_le; congruence.
  - intros k Hk. rewrite firstn_length_le in Hk by assumption.
    rewrite nth_firstn.
    destruct (Nat.ltb_spec k n); [|lia].
    specialize (Hsame (Z.of_nat k)). unfold peek in Hsame.
    rewrite Nat2Z.id in Hsame. apply Hsame. lia.
Qed.

(** What [amp_ringbuf_create] hands out: an empty buffer of the requested
    capacity that satisfies the control-block invariants. *)
Lemma ringbuf_create_fresh g mem c rb g' :
  is_u32 c ->
  Ringbuf.amp_ringbuf_create g mem c = (Some rb, g') ->
  Ringbuf.write_idx rb = 0 /\ Ringbuf.read_idx rb = 0 /\
  Ringbuf.size rb = c /\ Ringbuf.well_formed rb.
Proof.
  intros Hc. unfold Ringbuf.amp_ringbuf_create.
  destruct (Z.eqb_spec c 0) as [|Hnz]; cbn [orb]; [discriminate|].
  destruct (Z.eqb_spec (Z.land c (usize (c - 1))) 0) as [Hland|];
    cbn [negb]; [|discriminate].
  destruct (Shmem.amp_shmem_alloc g _) as [p g1].
  destruct (p =? NULL); [discriminate|].
  intros Heq. inversion Heq. subst. clear Heq.
  unfold is_u32 in Hc.
  assert (Hc1 : usize (c - 1) = c - 1) by (unwrap; lia).
  assert (Hcc : u32 c = c) by (unwrap; lia).
  rewrite Hc1 in Hland.
  assert (Hpow : c = 2 ^ Z.log2 c) by (apply pow2_of_land; [lia | assumption]).
  unfold Ringbuf.well_formed.
  cbn [Ringbuf.write_idx Ringbuf.read_idx Ringbuf.size Ringbuf.mask].
  rewrite Hcc. repeat split; try lia; try (unwrap; lia).
  exists (Z.log2 c). split; [|assumption]. split.
  - apply Z.log2_nonneg.
  - apply Z.log2_lt_pow2; lia.
Qed.

(** C5: on a ring buffer that [amp_ringbuf_create] has just returned for
    capacity [c], writing [len] bytes with [1 <= len <= c] returns [len],
    and reading [len] bytes right after returns [len] and leaves the bytes
    written, in order, at the start of the caller's buffer. *)
Theorem ringbuf_write_then_read
  (g g' : Shmem.amp_shmem_pool_t) (mem : bytes) (c : Z)
  (rb : Ringbuf.amp_ringbuf_s) (data buf : list byte) (len : Z) :
  is_u32 c ->
  Ringbuf.amp_ringbuf_create g mem c = (Some rb, g') ->
  1 <= len <= c ->
  Z.of_nat (length data) = len ->
  len <= Z.of_nat (length buf) ->
  fst (Ringbuf.amp_ringbuf_write (Some rb) (Some data) len) = len /\
  fst (fst (Ringbuf.amp_ringbuf_read
              (snd (Ringbuf.amp_ringbuf_write (Some rb) (Some data) len))
              (Some buf) len)) = len /\
  exists out,
    snd (Ringbuf.amp_ringbuf_read
           (snd (Ringbuf.amp_ringbuf_write (Some rb) (Some data) len))
           (Some buf) len) = Some out /\
    length out = length buf /\
    firstn (Z.to_nat len) out = data.
Proof.
  intros Hc Hcreate Hlen Hdata Hbuf.
  destruct (ringbuf_create_fresh _ _ _ _ _ Hc Hcreate) as (Hw & Hr & Hsz & Hwf).
  assert (Hfree : Ringbuf.amp_ringbuf_free_space (Some rb) = c).
  { rewrite ringbuf_wf_free_space by assumption.
    rewrite Hw, Hr, Hsz. change (u32 (0 - 0)) with 0. lia. }
  pose proof (ringbuf_write_count rb data len) as Hn1.
  destruct (ringbuf_write_stores rb data len Hwf) as (b1 & Hb1 & Hst).
  rewrite Hfree in Hn1, Hst. rewrite Z.min_l in Hn1, Hst by lia.
  destruct Hst as (Hw1 & Hr1 & Hsz1 & Hm1 & Hput & _).
  rewrite Hw in Hw1, Hput. rewrite Hr in Hr1.
  assert (Hwlen : Ringbuf.write_idx b1 = len).
  { rewrite Hw1. unfold is_u32 in Hc. unwrap. lia. }
  assert (Hav : Ringbuf.amp_ringbuf_available (Some b1) = len).
  { unfold Ringbuf.amp_ringbuf_available. rewrite Hwlen, Hr1.
    unfold is_u32 in Hc. unwrap. lia. }
  rewrite Hb1.
  pose proof (ringbuf_read_count b1 buf len) as Hn2.
  destruct (ringbuf_read_loads b1 buf len) as (b2 & out & _ & Hout & Hld).
  { rewrite Hr1. unfold is_u32. rewrite two_32. lia. }
  rewrite Hav in Hn2, Hld. rewrite Z.min_id in Hn2, Hld.
  destruct Hld as (_ & _ & _ & _ & _ & Hlen_out & Hget & _).
  split; [exact Hn1|]. split; [exact Hn2|].
  exists out. split; [exact Hout|]. split; [exact Hlen_out|].
  apply firstn_of_peek; try lia.
  intros j Hj. rewrite Hget by lia.
  rewrite Hr1. unfold Ringbuf.slot in *. rewrite Hm1. apply Hput. lia.
Qed.

(** A fresh buffer of capacity 8 filled to the brim and drained. *)
Lemma ringbuf_write_then_read_witness :
  let rb := Ringbuf.mk_ringbuf 0 0 8 7 (fun _ => x00) in
  let data := [x01; x02; x03; x04; x05; x06; x07; x08] in
  let buf := repeat xff 10 in
  fst (Ringbuf.amp_ringbuf_write (Some rb) (Some data) 8) = 8 /\
  fst (fst (Ringbuf.amp_ringbuf_read
              (snd (Ringbuf.amp_ringbuf_write (Some rb) (Some data) 8))
              (Some buf) 8)) = 8 /\
  exists out,
    snd (Ringbuf.amp_ringbuf_read
           (snd (Ringbuf.amp_ringbuf_write (Some rb) (Some data) 8))
           (Some buf) 8) = Some out /\
    length out = length buf /\
    firstn (Z.to_nat 8) out = data.
Proof.
  apply (ringbuf_write_then_read
           (Shmem.mk_pool 537133056 16384 0) (Shmem.mk_pool 537133056 16384 24)
           (fun _ => x00) 8).
  - unfold is_u32. lia.
  - reflexivity.
  - lia.
  - reflexivity.
  - simpl. lia.
Defined.

(** ** The end-to-end scenarios of the specification, run on the model *)

(** Ring-buffer wrap: capacity 16; write 10 bytes, read 6, write 10 more;
    the second write returns 10 and two reads of 7 recover the 14 pending
    bytes in order. *)
Example scenario_ringbuf_wrap :
  let rb0 := Some (Ringbuf.mk_ringbuf 0 0 16 15 (fun _ => x00)) in
  let d1 := [x01; x02; x03; x04; x05; x06; x07; x08; x09; x0a] in
  let d2 := [x0b; x0c; x0d; x0e; x0f; x10; x11; x12; x13; x14] in
  let w1 := Ringbuf.amp_ringbuf_write rb0 (Some d1) 10 in
  let r1 := Ringbuf.amp_ringbuf_read (snd w1) (Some (repeat xff 6)) 6 in
  let w2 := Ringbuf.amp_ringbuf_write (snd (fst r1)) (Some d2) 10 in
  let r2 := Ringbuf.amp_ringbuf_read (snd w2) (Some (repeat xff 7)) 7 in
  let r3 := Ringbuf.amp_ringbuf_read (snd (fst r2)) (Some (repeat xff 7)) 7 in
  (fst w1, fst (fst r1), fst w2, fst (fst r2), fst (fst r3)) = (10, 6, 10, 7, 7) /\
  snd r1 = Some [x01; x02; x03; x04; x05; x06] /\
  snd r2 = Some [x07; x08; x09; x0a; x0b; x0c; x0d] /\
  snd r3 = Some [x0e; x0f; x10; x11; x12; x13; x14] /\
  Ringbuf.amp_ringbuf_available (snd (fst r3)) = 0.
Proof. vm_compute. repeat split; reflexivity. Qed.

(** Full mailbox, non-blocking: two slots, three [amp_mailbox_try_send] in a
    row; the third returns -1 and leaves [write_idx = 2]. *)
Example scenario_mailbox_full :
  let m0 := Some (Mailbox.mk_mbox 0 0 4 2 1 (fun _ => x00)) in
  let msg := Some [x01; x02; x03; x04] in
  let s1 := Mailbox.amp_mailbox_try_send m0 msg in
  let s2 := Mailbox.amp_mailbox_try_send (snd s1) msg in
  let s3 := Mailbox.amp_mailbox_try_send (snd s2) msg in
  (fst s1, fst s2, fst s3) = (0, 0, -1) /\
  option_map Mailbox.write_idx (snd s3) = Some 2 /\
  option_map Mailbox.read_idx (snd s3) = Some 0.
Proof. vm_compute. repeat split; reflexivity. Qed.

(** Hello: one message sent and received byte for byte; both indices end
    at 1. *)
Example scenario_mailbox_hello :
  let m0 := Some (Mailbox.mk_mbox 0 0 6 4 3 (fun _ => x00)) in
  let msg := [x01; x48; x65; x6c; x6c; x6f] in
  let s1 := Mailbox.amp_mailbox_try_send m0 (Some msg) in
  let r1 := Mailbox.amp_mailbox_try_recv (snd s1) (Some (repeat x00 6)) in
  fst s1 = 0 /\ fst (fst r1) = 0 /\ snd r1 = Some msg /\
  option_map Mailbox.write_idx (snd (fst r1)) = Some 1 /\
  option_map Mailbox.read_idx (snd (fst r1)) = Some 1.
Proof. vm_compute. repeat split; reflexivity. Qed.

(** Bounded wait: an empty mailbox and a receive with a 10 ms timeout gives
    up after the countdown of 10000 turns and leaves both indices alone. *)
Example scenario_mailbox_recv_timeout :
  let m0 := Some (Mailbox.mk_mbox 0 0 4 2 1 (fun _ => x00)) in
  let r := Mailbox.amp_mailbox_recv (Z.to_nat 10000) m0 (Some (repeat x00 4)) 10 in
  option_map (fun x => fst (fst x)) r = Some (-1) /\
  option_map (fun x => option_map Mailbox.write_idx (snd (fst x))) r
  = Some (Some 0) /\
  option_map (fun x => option_map Mailbox.read_idx (snd (fst x))) r
  = Some (Some 0) /\
  Mailbox.amp_mailbox_recv (Z.to_nat 9999) m0 (Some (repeat x00 4)) 10 = None.
Proof. vm_compute. repeat split; reflexivity. Qed.

(** Binary semaphore: wait, a second wait is refused, post, a second post
    is refused; the count ends at 1. *)
Example scenario_binary_semaphore :
  let s0 := Some (Semaphore.mk_sem 1 1) in
  let step f s := match s with
                  | Some (r, s') => match f s' with
                                    | Some (r', s'') => Some (r ++ [r'], s'')
                                    | None => None
                                    end
                  | None => None
                  end in
  step (Semaphore.amp_semaphore_post 1)
    (step (Semaphore.amp_semaphore_post 1)
       (step (Semaphore.amp_semaphore_try_wait 1)
          (step (Semaphore.amp_semaphore_try_wait 1) (Some ([], s0)))))
  = Some ([0; -1; 0; -1], Some (Semaphore.mk_sem 1 1)).
Proof. vm_compute. reflexivity. Qed.

(** * Further properties *)

(** ** The arena: layout, bounds, regions *)

Lemma round_up8_facts s :
  0 <= s -> s <= Shmem.round_up8 s /\ Shmem.round_up8 s mod 8 = 0.
Proof. unfold Shmem.round_up8. lia. Qed.

Lemma laid_out_fits :
  forall ps sizes lo hi,
    Forall (fun s => 0 <= s) sizes ->
    Shmem.laid_out lo hi ps sizes -> lo <= hi.
Proof.
  induction ps as [|p ps IH]; intros [|s sizes] lo hi Hs Hlay;
    cbn [Shmem.laid_out] in Hlay; try tauto.
  inversion Hs; subst. destruct Hlay as [_ Hlay].
  apply IH in Hlay; [|assumption].
  pose proof (round_up8_facts s). lia.
Qed.

Lemma laid_out_end :
  forall ps sizes lo hi,
    Shmem.laid_out lo hi ps sizes -> lo + Shmem.total_rounded sizes <= hi.
Proof.
  induction ps as [|p ps IH]; intros [|s sizes] lo hi Hlay;
    cbn [Shmem.laid_out] in Hlay; try tauto.
  - cbn. lia.
  - destruct Hlay as [_ Hlay]. apply IH in Hlay.
    cbn [Shmem.total_rounded fold_right]. fold (Shmem.total_rounded sizes). lia.
Qed.

(** Blocks laid end to end lie inside the span, keep the alignment of its
    start, and an earlier block ends where a later one starts or before. *)
Lemma laid_out_blocks :
  forall ps sizes lo hi,
    Forall (fun s => 0 <= s) sizes ->
    Shmem.laid_out lo hi ps sizes ->
    (forall i, (i < length ps)%nat ->
       lo <= nth i ps 0 /\
       nth i ps 0 + Shmem.round_up8 (nth i sizes 0) <= hi /\
       (nth i ps 0 - lo) mod 8 = 0) /\
    (forall i j, (i < j < length ps)%nat ->
       nth i ps 0 + Shmem.round_up8 (nth i sizes 0) <= nth j ps 0).
Proof.
  induction ps as [|p ps IH]; intros [|s sizes] lo hi Hs Hlay;
    cbn [Shmem.laid_out] in Hlay; try tauto.
  - split; intros; cbn [length] in *; lia.
  - inversion Hs as [|? ? Hs0 Hrest]; subst. destruct Hlay as [-> Hlay].
    pose proof (round_up8_facts s Hs0) as [Hge Hal].
    pose proof (laid_out_fits _ _ _ _ Hrest Hlay) as Hfit.
    destruct (IH sizes _ hi Hrest Hlay) as [Hin Hord].
    split.
    + intros [|i] Hi; cbn [nth length] in *.
      * repeat split; lia.
      * destruct (Hin i) as (H1 & H2 & H3); [lia|].
        repeat split; lia.
    + intros [|i] [|j] Hij; cbn [nth length] in *; try lia.
      * destruct (Hin j) as (H1 & _); lia.
      * apply Hord. lia.
Qed.

(** X1.  Short of wrap-around, a run of successful allocations hands out
    blocks that lie inside the arena, are 8-byte aligned relative to its
    base, never overlap, and advance the counter by the sum of the rounded
    sizes. *)
Theorem shmem_blocks_disjoint_in_arena
  (sizes ps : list Z) (g g' : Shmem.amp_shmem_pool_t) :
  0 <= Shmem.allocated g <= Shmem.size g ->
  Shmem.allocated g mod 8 = 0 ->
  0 < Shmem.base g -> Shmem.base g + Shmem.size g <= 2 ^ 32 ->
  Forall (fun s => 0 <= s /\ Shmem.round_up8 s + Shmem.size g < 2 ^ 32) sizes ->
  Shmem.alloc_all g sizes = (ps, g') ->
  Forall (fun p => p <> NULL) ps ->
  Shmem.allocated g' = Shmem.allocated g + Shmem.total_rounded sizes /\
  Shmem.allocated g' <= Shmem.size g /\
  (forall i, (i < length ps)%nat ->
     Shmem.base g <= nth i ps 0 /\
     nth i ps 0 + Shmem.round_up8 (nth i sizes 0)
     <= Shmem.base g + Shmem.size g /\
     (nth i ps 0 - Shmem.base g) mod 8 = 0) /\
  (forall i j, (i < j < length ps)%nat ->
     nth i ps 0 + Shmem.round_up8 (nth i sizes 0) <= nth j ps 0).
Proof.
  intros Ha Hal Hb Hregion Hsizes Hrun Hok.
  destruct (shmem_alloc_all_laid_out sizes g ps g' Ha Hb Hregion Hsizes Hrun Hok)
    as [Hsum Hlay].
  assert (Hnn : Forall (fun s => 0 <= s) sizes).
  { eapply Forall_impl; [|exact Hsizes]. cbv beta. tauto. }
  pose proof (laid_out_fits _ _ _ _ Hnn Hlay) as Hfit.
  destruct (laid_out_blocks _ _ _ _ Hnn Hlay) as [Hin Hord].
  pose proof (laid_out_end _ _ _ _ Hlay) as Hend.
  split; [exact Hsum|]. split.
  - lia.
  - split; [|exact Hord].
    intros i Hi. destruct (Hin i Hi) as (H1 & H2 & H3).
    repeat split; lia.
Qed.

Lemma shmem_blocks_disjoint_in_arena_witness :
  Shmem.allocated (Shmem.mk_pool 537133056 16384 96)
  = 0 + Shmem.total_rounded [20; 1; 64] /\
  Shmem.allocated (Shmem.mk_pool 537133056 16384 96) <= 16384 /\
  (forall i, (i < 3)%nat ->
     537133056 <= nth i [537133056; 537133080; 537133088] 0 /\
     nth i [537133056; 537133080; 537133088] 0
     + Shmem.round_up8 (nth i [20; 1; 64] 0) <= 537133056 + 16384 /\
     (nth i [537133056; 537133080; 537133088] 0 - 537133056) mod 8 = 0) /\
  (forall i j, (i < j < 3)%nat ->
     nth i [537133056; 537133080; 537133088] 0
     + Shmem.round_up8 (nth i [20; 1; 64] 0)
     <= nth j [537133056; 537133080; 537133088] 0).
Proof.
  apply (shmem_blocks_disjoint_in_arena [20; 1; 64]
           [537133056; 537133080; 537133088]
           (Shmem.mk_pool 537133056 16384 0)
           (Shmem.mk_pool 537133056 16384 96)).
  - simpl. lia.
  - reflexivity.
  - simpl. lia.
  - simpl. lia.
  - repeat constructor; vm_compute; congruence.
  - reflexivity.
  - repeat constructor; discriminate.
Defined.

(** What every live pool satisfies. *)
Lemma live_pool b sz g :
  0 <= sz -> Shmem.live b sz g ->
  Shmem.base g = b /\ Shmem.size g = sz /\ b <> NULL /\
  0 <= Shmem.allocated g <= sz /\ Shmem.allocated g mod 8 = 0.
Proof.
  intros Hsz. induction 1 as [g0 mem g' mem' Hinit | g n Hr IH | g ptr Hr IH].
  - apply shmem_init_success in Hinit. destruct Hinit as (Hb & _ & ->).
    simpl. repeat split; auto; lia.
  - destruct IH as (Hb & Hs & Hnn & Hrange & Hal).
    unfold Shmem.amp_shmem_alloc.
    destruct ((n =? 0) || (Shmem.base g =? NULL)); simpl; [tauto|].
    destruct (Z.gtb_spec
                (usize (Shmem.allocated g
                        + Z.land (usize (n + 7)) (usize (Z.lnot 7))))
                (Shmem.size g)); simpl; [tauto|].
    pose proof (alloc_rounded_size_aligned n) as Hr8.
    set (r := Z.land _ _) in *.
    repeat split; auto; unfold usize in *; rewrite two_32 in *; lia.
  - exact IH.
Qed.

(** X2.  Whatever sizes are requested and whether or not the arithmetic
    wraps, the bump counter of a live pool stays a multiple of 8 between 0
    and the pool size, and base and size stay those given to
    [amp_shmem_init]. *)
Theorem shmem_counter_within_pool (b sz : Z) (g : Shmem.amp_shmem_pool_t) :
  0 <= sz -> Shmem.live b sz g ->
  Shmem.base g = b /\ Shmem.size g = sz /\
  0 <= Shmem.allocated g <= sz /\ Shmem.allocated g mod 8 = 0.
Proof.
  intros Hsz Hlive.
  destruct (live_pool b sz g Hsz Hlive) as (H1 & H2 & _ & H3 & H4). auto.
Qed.

(** The pool of the wrap-around run of C3: the counter is back inside. *)
Lemma shmem_counter_within_pool_witness :
  let g := snd (Shmem.alloc_all (Shmem.mk_pool 537133056 16 0)
                  [8; 4294967288]) in
  Shmem.base g = 537133056 /\ Shmem.size g = 16 /\
  0 <= Shmem.allocated g <= 16 /\ Shmem.allocated g mod 8 = 0.
Proof.
  apply (shmem_counter_within_pool 537133056 16).
  - lia.
  - refine (Shmem.live_alloc 537133056 16
              (Shmem.mk_pool 537133056 16 8) 4294967288 _).
    refine (Shmem.live_alloc 537133056 16
              (Shmem.mk_pool 537133056 16 0) 8 _).
    apply (Shmem.live_init _ _ Shmem.g_shmem_pool (fun _ => x00) _
             (memset (fun _ => x00) 537133056 x00 16)).
    reflexivity.
Defined.

(** X3.  [amp_shmem_get_region] answers 0 only for an address inside the
    arena, below the bump pointer, and then reports the whole pool: its base,
    its size and flags 0, whichever block the address belongs to. *)
Theorem shmem_get_region_inside_arena
  (b sz : Z) (g : Shmem.amp_shmem_pool_t) (ptr : Z)
  (region : option ShmemRegion.amp_shmem_region_t) :
  0 <= sz -> b + sz <= 2 ^ 32 -> 0 <= b -> Shmem.live b sz g ->
  fst (ShmemRegion.amp_shmem_get_region g ptr region) = 0 ->
  b <= ptr < b + Shmem.allocated g /\ ptr < b + sz /\
  snd (ShmemRegion.amp_shmem_get_region g ptr region)
  = Some (ShmemRegion.mk_region b sz 0).
Proof.
  intros Hsz Hregion Hb0 Hlive.
  destruct (live_pool b sz g Hsz Hlive) as (Hb & Hs & Hnn & Ha & _).
  unfold ShmemRegion.amp_shmem_get_region.
  destruct region as [r|]; cbn [fst snd]; [|discriminate].
  destruct ((ptr =? NULL) || (Shmem.base g =? NULL)); cbn [fst snd];
    [discriminate|].
  rewrite Hb, Hs.
  destruct (Z.ltb_spec ptr b); cbn [orb fst snd]; [discriminate|].
  destruct (Z.geb_spec ptr (uptr (b + Shmem.allocated g))); cbn [fst snd];
    [discriminate|].
  intros _.
  assert (Hu : uptr (b + Shmem.allocated g) <= b + Shmem.allocated g)
    by (unfold uptr; rewrite two_32 in *; lia).
  repeat split; try lia.
Qed.

Lemma shmem_get_region_inside_arena_witness :
  537133056 <= 537133060
  < 537133056 + Shmem.allocated (Shmem.mk_pool 537133056 16384 8) /\
  537133060 < 537133056 + 16384 /\
  snd (ShmemRegion.amp_shmem_get_region (Shmem.mk_pool 537133056 16384 8)
         537133060 (Some (ShmemRegion.mk_region 0 0 0)))
  = Some (ShmemRegion.mk_region 537133056 16384 0).
Proof.
  apply (shmem_get_region_inside_arena 537133056 16384).
  - lia.
  - rewrite two_32. lia.
  - lia.
  - refine (Shmem.live_alloc 537133056 16384
              (Shmem.mk_pool 537133056 16384 0) 8 _).
    apply (Shmem.live_init _ _ Shmem.g_shmem_pool (fun _ => x00) _
             (memset (fun _ => x00) 537133056 x00 16384)).
    reflexivity.
  - reflexivity.
Defined.

(** X4.  Short of wrap-around, once [amp_shmem_alloc] has returned a block,
    [amp_shmem_get_region] answers 0 for each of its bytes and reports the
    pool; before that call it answered -1 for the same addresses. *)
Theorem shmem_get_region_knows_block
  (g g' : Shmem.amp_shmem_pool_t) (s p q : Z)
  (r : ShmemRegion.amp_shmem_region_t) :
  0 <= Shmem.allocated g <= Shmem.size g ->
  0 < Shmem.base g -> Shmem.base g + Shmem.size g < 2 ^ 32 ->
  0 <= s -> Shmem.round_up8 s + Shmem.size g < 2 ^ 32 ->
  Shmem.amp_shmem_alloc g s = (p, g') -> p <> NULL ->
  p <= q < p + Shmem.round_up8 s ->
  ShmemRegion.amp_shmem_get_region g' q (Some r)
  = (0, Some (ShmemRegion.mk_region (Shmem.base g) (Shmem.size g) 0)) /\
  fst (ShmemRegion.amp_shmem_get_region g q (Some r)) = -1.
Proof.
  intros Ha Hb Hregion Hs Hfit Halloc Hp Hq.
  rewrite shmem_alloc_exact in Halloc by (try assumption; lia).
  destruct (Z.eqb_spec s 0); cbn [orb] in Halloc;
    [inversion Halloc; congruence|].
  destruct (Z.gtb_spec (Shmem.allocated g + Shmem.round_up8 s) (Shmem.size g));
    inversion Halloc; subst; [congruence|].
  unfold ShmemRegion.amp_shmem_get_region. cbn [Shmem.base Shmem.size Shmem.allocated].
  destruct (Z.eqb_spec q NULL); [unfold NULL in *; lia|].
  destruct (Z.eqb_spec (Shmem.base g) NULL); [unfold NULL in *; lia|].
  cbn [orb].
  destruct (Z.ltb_spec q (Shmem.base g)); [lia|]. cbn [orb].
  assert (Hu1 : uptr (Shmem.base g + (Shmem.allocated g + Shmem.round_up8 s))
                = Shmem.base g + (Shmem.allocated g + Shmem.round_up8 s))
    by (unfold uptr; rewrite two_32 in *; apply Z.mod_small; lia).
  assert (Hu0 : uptr (Shmem.base g + Shmem.allocated g)
                = Shmem.base g + Shmem.allocated g)
    by (unfold uptr; rewrite two_32 in *; apply Z.mod_small; lia).
  rewrite Hu1, Hu0.
  destruct (Z.geb_spec q (Shmem.base g + (Shmem.allocated g + Shmem.round_up8 s)));
    [lia|].
  destruct (Z.geb_spec q (Shmem.base g + Shmem.allocated g)); [|lia].
  split; reflexivity.
Qed.

Lemma shmem_get_region_knows_block_witness :
  ShmemRegion.amp_shmem_get_region (Shmem.mk_pool 537133056 16384 64)
    537133090 (Some (ShmemRegion.mk_region 0 0 0))
  = (0, Some (ShmemRegion.mk_region 537133056 16384 0)) /\
  fst (ShmemRegion.amp_shmem_get_region (Shmem.mk_pool 537133056 16384 24)
         537133090 (Some (ShmemRegion.mk_region 0 0 0))) = -1.
Proof.
  apply (shmem_get_region_knows_block
           (Shmem.mk_pool 537133056 16384 24) (Shmem.mk_pool 537133056 16384 64)
           33 537133080 537133090).
  - simpl. lia.
  - simpl. lia.
  - simpl. lia.
  - lia.
  - vm_compute. reflexivity.
  - reflexivity.
  - discriminate.
  - vm_compute. split; congruence.
Defined.

(** X5.  [amp_shmem_free] gives nothing back: short of wrap-around, the
    allocation that follows a free starts where the freed block ends. *)
Theorem shmem_free_never_recycles
  (g g1 g2 : Shmem.amp_shmem_pool_t) (s1 s2 p1 p2 : Z) :
  0 <= Shmem.allocated g <= Shmem.size g ->
  0 < Shmem.base g -> Shmem.base g + Shmem.size g <= 2 ^ 32 ->
  0 <= s1 -> Shmem.round_up8 s1 + Shmem.size g < 2 ^ 32 ->
  0 <= s2 -> Shmem.round_up8 s2 + Shmem.size g < 2 ^ 32 ->
  Shmem.amp_shmem_alloc g s1 = (p1, g1) -> p1 <> NULL ->
  Shmem.amp_shmem_alloc (Shmem.amp_shmem_free g1 p1) s2 = (p2, g2) ->
  p2 <> NULL ->
  p2 = p1 + Shmem.round_up8 s1 /\ p1 < p2.
Proof.
  intros Ha Hb Hregion Hs1 Hfit1 Hs2 Hfit2 Halloc1 Hp1 Halloc2 Hp2.
  unfold Shmem.amp_shmem_free in Halloc2.
  rewrite shmem_alloc_exact in Halloc1 by assumption.
  destruct (Z.eqb_spec s1 0); cbn [orb] in Halloc1;
    [inversion Halloc1; congruence|].
  destruct (Z.gtb_spec (Shmem.allocated g + Shmem.round_up8 s1) (Shmem.size g));
    inversion Halloc1; subst; [congruence|].
  pose proof (round_up8_facts s1 Hs1) as [Hge1 _].
  rewrite shmem_alloc_exact in Halloc2
    by (cbn [Shmem.base Shmem.size Shmem.allocated]; try assumption; lia).
  cbn [Shmem.base Shmem.size Shmem.allocated] in Halloc2.
  destruct ((s2 =? 0) || _); inversion Halloc2; subst; [congruence|].
  lia.
Qed.

Lemma shmem_free_never_recycles_witness :
  537133080 = 537133056 + Shmem.round_up8 20 /\ 537133056 < 537133080.
Proof.
  apply (shmem_free_never_recycles
           (Shmem.mk_pool 537133056 16384 0) (Shmem.mk_pool 537133056 16384 24)
           (Shmem.mk_pool 537133056 16384 32) 20 5 537133056 537133080).
  - simpl. lia.
  - simpl. lia.
  - simpl. lia.
  - lia.
  - vm_compute. reflexivity.
  - lia.
  - vm_compute. reflexivity.
  - reflexivity.
  - discriminate.
  - reflexivity.
  - discriminate.
Defined.

(** X6.  Until [amp_shmem_init] succeeds the arena is inert: a null base or
    a zero size is refused and changes nothing, every allocation returns
    null and every region query answers -1. *)
Theorem shmem_uninitialised_pool_is_inert :
  (forall mem sz,
      Shmem.amp_shmem_init Shmem.g_shmem_pool mem NULL sz
      = (-1, Shmem.g_shmem_pool, mem)) /\
  (forall mem b,
      Shmem.amp_shmem_init Shmem.g_shmem_pool mem b 0
      = (-1, Shmem.g_shmem_pool, mem)) /\
  (forall sizes,
      Shmem.alloc_all Shmem.g_shmem_pool sizes
      = (map (fun _ => NULL) sizes, Shmem.g_shmem_pool)) /\
  (forall ptr region,
      ShmemRegion.amp_shmem_get_region Shmem.g_shmem_pool ptr region
      = (-1, region)).
Proof.
  repeat split.
  - intros mem b. unfold Shmem.amp_shmem_init.
    rewrite Z.eqb_refl, orb_true_r. reflexivity.
  - induction sizes as [|s sizes IH]; [reflexivity|].
    cbn [Shmem.alloc_all map]. unfold Shmem.amp_shmem_alloc at 1.
    cbn [Shmem.base Shmem.g_shmem_pool]. rewrite Z.eqb_refl, orb_true_r.
    rewrite IH. reflexivity.
  - intros ptr [r|]; [|reflexivity].
    unfold ShmemRegion.amp_shmem_get_region.
    cbn [Shmem.base Shmem.g_shmem_pool]. rewrite Z.eqb_refl, orb_true_r.
    reflexivity.
Qed.

(** ** Boot handshake: waiting and signalling *)

Lemma testbit_u32_any x n :
  0 <= n -> Z.testbit (u32 x) n = (n <? 32) && Z.testbit x n.
Proof.
  intros Hn. unfold u32. destruct (Z.ltb_spec n 32).
  - rewrite Z.mod_pow2_bits_low by lia. reflexivity.
  - rewrite Z.mod_pow2_bits_high by lia. reflexivity.
Qed.

Lemma testbit_one_shifted c n :
  0 <= c -> 0 <= n -> Z.testbit (Z.shiftl 1 c) n = (n =? c).
Proof.
  intros Hc Hn. rewrite Z.shiftl_1_l, Z.pow2_bits_eqb by assumption.
  apply Z.eqb_sym.
Qed.

(** The test [core_ready_flags & mask] of the polling loop reads one bit. *)
Lemma boot_mask_test flags c :
  0 <= c < 32 ->
  (Z.land flags (u32 (Z.shiftl 1 c)) =? 0) = negb (Z.testbit flags c).
Proof.
  intros Hc.
  assert (Hland : Z.land flags (u32 (Z.shiftl 1 c))
                  = if Z.testbit flags c then Z.shiftl 1 c else 0).
  { apply Z.bits_inj'. intros n Hn.
    rewrite Z.land_spec, testbit_u32_any, testbit_one_shifted by lia.
    destruct (Z.eqb_spec n c) as [->|Hne].
    - destruct (Z.ltb_spec c 32); [|lia].
      destruct (Z.testbit flags c); cbn [andb].
      + rewrite testbit_one_shifted, Z.eqb_refl by lia. reflexivity.
      + rewrite Z.bits_0. reflexivity.
    - rewrite andb_false_r, andb_false_r.
      destruct (Z.testbit flags c).
      + rewrite testbit_one_shifted by lia.
        destruct (Z.eqb_spec n c); [contradiction | reflexivity].
      + rewrite Z.bits_0. reflexivity. }
  rewrite Hland. destruct (Z.testbit flags c); cbn [negb].
  - rewrite Z.shiftl_1_l. apply Z.eqb_neq.
    pose proof (Z.pow_pos_nonneg 2 c). lia.
  - reflexivity.
Qed.

Lemma countdown_next count :
  is_u32 count -> u32 (count - 1) <> 0 ->
  countdown_turns (u32 (count - 1)) = countdown_turns count - 1.
Proof.
  unfold countdown_turns. intros Hc Hnz.
  destruct (Z.eqb_spec (u32 (count - 1)) 0); [contradiction|].
  destruct (Z.eqb_spec count 0); unwrap; lia.
Qed.

Lemma countdown_last count :
  is_u32 count -> u32 (count - 1) = 0 -> countdown_turns count = 1.
Proof.
  unfold countdown_turns. intros Hc Hz.
  destruct (Z.eqb_spec count 0); unwrap; lia.
Qed.

Lemma countdown_positive count : is_u32 count -> 0 < countdown_turns count.
Proof.
  unfold countdown_turns. intros Hc.
  destruct (Z.eqb_spec count 0); unwrap; lia.
Qed.

Lemma boot_wait_loop_countdown flags mask timeout_ms :
  Z.land flags mask = 0 -> 0 < timeout_ms ->
  forall (fuel : nat) (count : Z),
    is_u32 count ->
    Boot.wait_loop fuel flags mask timeout_ms count
    = if Z.of_nat fuel <? countdown_turns count then None
      else Some Boot.AMP_BOOT_ERROR_TIMEOUT.
Proof.
  intros Hclear Ht. induction fuel as [|fuel IH]; intros count Hc.
  - pose proof (countdown_positive count Hc).
    destruct (Z.ltb_spec (Z.of_nat 0) (countdown_turns count)); [reflexivity|lia].
  - cbn [Boot.wait_loop]. rewrite Hclear. cbn [Z.eqb negb].
    destruct (Z.gtb_spec timeout_ms 0); [|lia].
    destruct (Z.eqb_spec (u32 (count - 1)) 0) as [Hz|Hnz].
    + rewrite (countdown_last count Hc Hz).
      destruct (Z.ltb_spec (Z.of_nat (S fuel)) 1); [lia|reflexivity].
    + rewrite IH by apply u32_range.
      rewrite (countdown_next count Hc Hnz).
      destruct (Z.ltb_spec (Z.of_nat fuel) (countdown_turns count - 1));
        destruct (Z.ltb_spec (Z.of_nat (S fuel)) (countdown_turns count));
        try reflexivity; lia.
Qed.

(** X7.  The boot word only ever carries the ready bits of the two cores:
    in every state reached by boot operations of cores 0 and 1,
    [core_ready_flags] is below 4. *)
Theorem boot_flags_only_existing_cores (flags : Z) :
  Boot.reachable flags -> 0 <= flags < 4.
Proof.
  induction 1 as [|flags self op Hr IH Hself]; [lia|].
  destruct op as [|c e s|f c t|]; cbn [Boot.boot_exec].
  - unfold Boot.amp_boot_init.
    destruct (negb (self =? Boot.AMP_CORE0)); cbn [snd]; [assumption|].
    vm_compute. split; congruence.
  - rewrite boot_core_keeps_flags. assumption.
  - rewrite boot_wait_keeps_flags. assumption.
  - unfold Boot.amp_boot_signal_ready, Boot.AMP_CORE_COUNT in *.
    assert (Hs : self = 0 \/ self = 1) by lia.
    assert (Hf : flags = 0 \/ flags = 1 \/ flags = 2 \/ flags = 3) by lia.
    destruct Hs as [-> | ->]; destruct Hf as [-> | [-> | [-> | ->]]];
      vm_compute; split; congruence.
Qed.

Lemma boot_flags_only_existing_cores_witness :
  0 <= Boot.boot_exec Boot.AMP_CORE1 Boot.op_signal_ready
         (Boot.boot_exec Boot.AMP_CORE0 Boot.op_init 0) < 4.
Proof.
  apply boot_flags_only_existing_cores.
  apply Boot.reach_step; [|vm_compute; split; congruence].
  apply Boot.reach_step; [|vm_compute; split; congruence].
  apply Boot.reach_start.
Defined.

(** X8.  While the awaited ready bit is clear and the timeout is positive,
    [amp_boot_wait_core_ready] polls [countdown_turns (timeout_ms * 1000 mod
    2^32)] times and then answers AMP_BOOT_ERROR_TIMEOUT: that is
    [timeout_ms * 1000] turns only while the product fits 32 bits, and 2^32
    turns when it wraps to 0. *)
Theorem boot_wait_times_out
  (fuel : nat) (core_id timeout_ms flags : Z) :
  0 <= core_id < Boot.AMP_CORE_COUNT ->
  Z.testbit flags core_id = false ->
  0 < timeout_ms ->
  fst (Boot.amp_boot_wait_core_ready fuel core_id timeout_ms flags)
  = if Z.of_nat fuel <? countdown_turns (u32 (timeout_ms * 1000))
    then None else Some Boot.AMP_BOOT_ERROR_TIMEOUT.
Proof.
  intros Hc Hbit Ht. unfold Boot.amp_boot_wait_core_ready.
  unfold Boot.AMP_CORE_COUNT in *.
  destruct (Z.geb_spec core_id 2); [lia|]. cbn [fst].
  apply boot_wait_loop_countdown; try assumption; [|apply u32_range].
  apply Z.eqb_eq. rewrite boot_mask_test by lia. rewrite Hbit. reflexivity.
Qed.

(** A timeout of 4294968 ms: the product wraps and the wait gives up after
    704 polls. *)
Lemma boot_wait_times_out_witness :
  fst (Boot.amp_boot_wait_core_ready 704 Boot.AMP_CORE1 4294968 1)
  = (if Z.of_nat 704 <? countdown_turns (u32 (4294968 * 1000))
     then None else Some Boot.AMP_BOOT_ERROR_TIMEOUT).
Proof.
  apply boot_wait_times_out.
  - vm_compute. split; congruence.
  - reflexivity.
  - lia.
Defined.

Lemma boot_wait_bit_set fuel core_id timeout_ms flags :
  0 <= core_id < Boot.AMP_CORE_COUNT ->
  Z.testbit flags core_id = true ->
  fst (Boot.amp_boot_wait_core_ready (S fuel) core_id timeout_ms flags)
  = Some Boot.AMP_BOOT_SUCCESS.
Proof.
  intros Hc Hbit. unfold Boot.amp_boot_wait_core_ready.
  unfold Boot.AMP_CORE_COUNT in *.
  destruct (Z.geb_spec core_id 2); [lia|]. cbn [fst Boot.wait_loop].
  rewrite boot_mask_test by lia. rewrite Hbit. reflexivity.
Qed.

(** X9.  The handshake: once a core has run [amp_boot_signal_ready], or the
    primary has run [amp_boot_init], [amp_boot_wait_core_ready] for that
    core answers AMP_BOOT_SUCCESS on its first poll, whatever the timeout
    and whatever the flags were before. *)
Theorem boot_signal_then_wait_succeeds
  (self timeout_ms flags : Z) (fuel : nat) :
  0 <= self < Boot.AMP_CORE_COUNT ->
  fst (Boot.amp_boot_wait_core_ready (S fuel) self timeout_ms
         (Boot.amp_boot_signal_ready self flags))
  = Some Boot.AMP_BOOT_SUCCESS /\
  fst (Boot.amp_boot_wait_core_ready (S fuel) Boot.AMP_CORE0 timeout_ms
         (snd (Boot.amp_boot_init Boot.AMP_CORE0 flags)))
  = Some Boot.AMP_BOOT_SUCCESS.
Proof.
  intros Hself. split.
  - apply boot_wait_bit_set; [assumption|].
    unfold Boot.amp_boot_signal_ready, Boot.AMP_CORE_COUNT in *.
    rewrite testbit_u32 by lia.
    rewrite Z.lor_spec, testbit_one_shifted, Z.eqb_refl by lia.
    apply orb_true_r.
  - reflexivity.
Qed.

Lemma boot_signal_then_wait_succeeds_witness :
  fst (Boot.amp_boot_wait_core_ready 1 Boot.AMP_CORE1 0
         (Boot.amp_boot_signal_ready Boot.AMP_CORE1 1))
  = Some Boot.AMP_BOOT_SUCCESS /\
  fst (Boot.amp_boot_wait_core_ready 1 Boot.AMP_CORE0 0
         (snd (Boot.amp_boot_init Boot.AMP_CORE0 1)))
  = Some Boot.AMP_BOOT_SUCCESS.
Proof.
  apply (boot_signal_then_wait_succeeds Boot.AMP_CORE1 0 1 0).
  vm_compute. split; congruence.
Defined.

(** X10.  Signalling ready is idempotent and the order in which two cores
    signal does not matter. *)
Theorem boot_signal_ready_order_free (a b flags : Z) :
  Boot.amp_boot_signal_ready a (Boot.amp_boot_signal_ready a flags)
  = Boot.amp_boot_signal_ready a flags /\
  Boot.amp_boot_signal_ready a (Boot.amp_boot_signal_ready b flags)
  = Boot.amp_boot_signal_ready b (Boot.amp_boot_signal_ready a flags).
Proof.
  unfold Boot.amp_boot_signal_ready.
  split; apply Z.bits_inj'; intros n Hn;
    rewrite ?testbit_u32_any, ?Z.lor_spec, ?testbit_u32_any, ?Z.lor_spec
      by assumption;
    destruct (n <? 32), (Z.testbit flags n), (Z.testbit (Z.shiftl 1 a) n),
      (Z.testbit (Z.shiftl 1 b) n); reflexivity.
Qed.

(** X11.  A build that keeps the generic [amp_get_core_id] runs every boot
    operation as core 0: bit 1 of [core_ready_flags] is never set, so
    [amp_boot_wait_core_ready] for core 1 never answers AMP_BOOT_SUCCESS. *)
Theorem boot_generic_core1_never_ready
  (flags : Z) (fuel : nat) (timeout_ms : Z) :
  Config.reachable flags ->
  (flags = 0 \/ flags = 1) /\
  fst (Boot.amp_boot_wait_core_ready fuel Boot.AMP_CORE1 timeout_ms flags)
  <> Some Boot.AMP_BOOT_SUCCESS.
Proof.
  intros Hr.
  assert (Hf : flags = 0 \/ flags = 1).
  { induction Hr as [|flags op Hr IH]; [auto|].
    destruct op as [|c e s|f c t|]; cbn [Boot.boot_exec].
    - right. reflexivity.
    - rewrite boot_core_keeps_flags. assumption.
    - rewrite boot_wait_keeps_flags. assumption.
    - destruct IH as [-> | ->]; right; reflexivity. }
  split; [assumption|].
  assert (Hclear : Z.land flags (u32 (Z.shiftl 1 Boot.AMP_CORE1)) = 0)
    by (destruct Hf as [-> | ->]; reflexivity).
  unfold Boot.amp_boot_wait_core_ready. cbn [fst].
  change (Boot.AMP_CORE1 >=? Boot.AMP_CORE_COUNT) with false. cbv iota.
  generalize (u32 (timeout_ms * 1000)) as count.
  induction fuel as [|fuel IH]; intros count; cbn [Boot.wait_loop fst];
    [discriminate|].
  rewrite Hclear. cbn [Z.eqb negb].
  destruct (timeout_ms >? 0); [|apply IH].
  destruct (u32 (count - 1) =? 0); [discriminate | apply IH].
Qed.

Lemma boot_generic_core1_never_ready_witness :
  (Boot.boot_exec Config.amp_get_core_id Boot.op_signal_ready 0 = 0 \/
   Boot.boot_exec Config.amp_get_core_id Boot.op_signal_ready 0 = 1) /\
  fst (Boot.amp_boot_wait_core_ready 5 Boot.AMP_CORE1 0
         (Boot.boot_exec Config.amp_get_core_id Boot.op_signal_ready 0))
  <> Some Boot.AMP_BOOT_SUCCESS.
Proof.
  apply boot_generic_core1_never_ready.
  apply Config.reach_step. apply Config.reach_start.
Defined.

(** ** Semaphore: one core *)

Lemma semaphore_wait_loop_countdown s timeout_ms :
  Semaphore.count s = 0 -> 0 < timeout_ms ->
  forall (fuel : nat) (count : Z),
    is_u32 count ->
    Semaphore.wait_loop fuel (Some s) timeout_ms count
    = if Z.of_nat fuel <? countdown_turns count then None
      else Some (-1, Some s).
Proof.
  intros Hzero Ht. induction fuel as [|fuel IH]; intros count Hc.
  - pose proof (countdown_positive count Hc).
    destruct (Z.ltb_spec (Z.of_nat 0) (countdown_turns count)); [reflexivity|lia].
  - cbn [Semaphore.wait_loop]. rewrite semaphore_try_wait_alone, Hzero.
    cbn [Z.eqb negb].
    destruct (Z.gtb_spec timeout_ms 0); [|lia].
    destruct (Z.eqb_spec (u32 (count - 1)) 0) as [Hz|Hnz].
    + rewrite (countdown_last count Hc Hz).
      destruct (Z.ltb_spec (Z.of_nat (S fuel)) 1); [lia|reflexivity].
    + rewrite IH by apply u32_range.
      rewrite (countdown_next count Hc Hnz).
      destruct (Z.ltb_spec (Z.of_nat fuel) (countdown_turns count - 1));
        destruct (Z.ltb_spec (Z.of_nat (S fuel)) (countdown_turns count));
        try reflexivity; lia.
Qed.

(** X12.  [amp_semaphore_wait] on one core: with a unit available it takes
    it on the first attempt, whatever the timeout; with none available and a
    positive timeout it gives up with -1 after the countdown and leaves the
    semaphore as it was. *)
Theorem semaphore_wait_outcome
  (s e : Semaphore.amp_semaphore_s) (timeout_s timeout_e : Z) (fuel : nat) :
  is_u32 (Semaphore.count s) -> Semaphore.count s <> 0 ->
  Semaphore.count e = 0 -> 0 < timeout_e ->
  Semaphore.amp_semaphore_wait (S fuel) (Some s) timeout_s
  = Some (0, Some (Semaphore.mk_sem (Semaphore.count s - 1)
                     (Semaphore.max_count s))) /\
  Semaphore.amp_semaphore_wait fuel (Some e) timeout_e
  = if Z.of_nat fuel <? countdown_turns (u32 (timeout_e * 1000))
    then None else Some (-1, Some e).
Proof.
  intros Hc Hnz Hz Ht. split.
  - unfold Semaphore.amp_semaphore_wait.
    cbn [Semaphore.wait_loop]. rewrite semaphore_try_wait_alone.
    destruct (Z.eqb_spec (Semaphore.count s) 0); [contradiction|].
    cbv beta iota zeta. change (negb (0 =? 0)) with false. cbv iota.
    do 4 f_equal. unwrap. lia.
  - unfold Semaphore.amp_semaphore_wait.
    apply semaphore_wait_loop_countdown; try assumption. apply u32_range.
Qed.

(** A binary semaphore with its unit free is taken at once, even with
    [timeout_ms = 0]; one with the unit gone and a timeout of 4294968 ms,
    whose product wraps to 704, is given up with -1 on the 704th attempt. *)
Lemma semaphore_wait_outcome_witness :
  Semaphore.amp_semaphore_wait 705 (Some (Semaphore.mk_sem 1 1)) 0
  = Some (0, Some (Semaphore.mk_sem 0 1)) /\
  Semaphore.amp_semaphore_wait 704 (Some (Semaphore.mk_sem 0 1)) 4294968
  = Some (-1, Some (Semaphore.mk_sem 0 1)).
Proof.
  exact (semaphore_wait_outcome
           (Semaphore.mk_sem 1 1) (Semaphore.mk_sem 0 1) 0 4294968 704
           ltac:(vm_compute; split; congruence) ltac:(discriminate)
           eq_refl eq_refl).
Defined.

(** X13.  On one core a post undoes a wait and a wait undoes a post: from a
    count below the maximum, [amp_semaphore_post] then
    [amp_semaphore_try_wait] both return 0 and restore the semaphore; from a
    count above 0 and at most the maximum, so do [amp_semaphore_try_wait]
    then [amp_semaphore_post]. *)
Theorem semaphore_post_wait_round_trip
  (s : Semaphore.amp_semaphore_s) (f1 f2 : nat) :
  is_u32 (Semaphore.count s) -> is_u32 (Semaphore.max_count s) ->
  (Semaphore.count s < Semaphore.max_count s ->
   exists s1,
     Semaphore.amp_semaphore_post (S f1) (Some s) = Some (0, Some s1) /\
     Semaphore.amp_semaphore_try_wait (S f2) (Some s1) = Some (0, Some s)) /\
  (0 < Semaphore.count s <= Semaphore.max_count s ->
   exists s1,
     Semaphore.amp_semaphore_try_wait (S f1) (Some s) = Some (0, Some s1) /\
     Semaphore.amp_semaphore_post (S f2) (Some s1) = Some (0, Some s)).
Proof.
  destruct s as [c m]. cbn [Semaphore.count Semaphore.max_count].
  intros Hc Hm. split; intros Hlt.
  - rewrite semaphore_post_alone. cbn [Semaphore.count Semaphore.max_count].
    destruct (Z.geb_spec c m); [lia|].
    eexists. split; [reflexivity|].
    rewrite semaphore_try_wait_alone. cbn [Semaphore.count Semaphore.max_count].
    assert (Hn : u32 (c + 1) = c + 1) by (unwrap; lia). rewrite Hn.
    destruct (Z.eqb_spec (c + 1) 0); [unfold is_u32 in *; lia|].
    do 4 f_equal. unwrap. lia.
  - rewrite semaphore_try_wait_alone. cbn [Semaphore.count Semaphore.max_count].
    destruct (Z.eqb_spec c 0); [lia|].
    eexists. split; [reflexivity|].
    rewrite semaphore_post_alone. cbn [Semaphore.count Semaphore.max_count].
    assert (Hn : u32 (c - 1) = c - 1) by (unwrap; lia). rewrite Hn.
    destruct (Z.geb_spec (c - 1) m); [lia|].
    do 4 f_equal. unwrap. lia.
Qed.

Lemma semaphore_post_wait_round_trip_witness :
  (Semaphore.count (Semaphore.mk_sem 1 3) < Semaphore.max_count (Semaphore.mk_sem 1 3) ->
   exists s1,
     Semaphore.amp_semaphore_post 1 (Some (Semaphore.mk_sem 1 3))
     = Some (0, Some s1) /\
     Semaphore.amp_semaphore_try_wait 1 (Some s1)
     = Some (0, Some (Semaphore.mk_sem 1 3))) /\
  (0 < Semaphore.count (Semaphore.mk_sem 1 3)
   <= Semaphore.max_count (Semaphore.mk_sem 1 3) ->
   exists s1,
     Semaphore.amp_semaphore_try_wait 1 (Some (Semaphore.mk_sem 1 3))
     = Some (0, Some s1) /\
     Semaphore.amp_semaphore_post 1 (Some s1)
     = Some (0, Some (Semaphore.mk_sem 1 3))).
Proof.
  apply (semaphore_post_wait_round_trip (Semaphore.mk_sem 1 3) 0 0);
    vm_compute; split; congruence.
Defined.

(** X14.  [amp_semaphore_create] refuses [initial > max] and [max = 0]
    without touching the arena; otherwise, short of wrap-around, it takes
    exactly 8 bytes from the arena and starts the count at [initial], or
    returns null and leaves the arena alone when 8 bytes do not fit. *)
Theorem semaphore_create_outcome
  (g : Shmem.amp_shmem_pool_t) (initial max : Z) :
  0 <= Shmem.allocated g <= Shmem.size g ->
  0 < Shmem.base g -> Shmem.base g + Shmem.size g <= 2 ^ 32 ->
  Shmem.size g < 2 ^ 32 - 8 ->
  Semaphore.amp_semaphore_create g initial max
  = if (initial >? max) || (max =? 0)
       || (Shmem.allocated g + 8 >? Shmem.size g)
    then (None, g)
    else (Some (Semaphore.mk_sem initial max),
          Shmem.mk_pool (Shmem.base g) (Shmem.size g) (Shmem.allocated g + 8)).
Proof.
  intros Ha Hb Hregion Hsz. unfold Semaphore.amp_semaphore_create.
  destruct ((initial >? max) || (max =? 0)); cbn [orb]; [reflexivity|].
  assert (Hfit : Shmem.round_up8 Semaphore.sizeof_amp_semaphore_s
                 + Shmem.size g < 2 ^ 32)
    by (change (Shmem.round_up8 Semaphore.sizeof_amp_semaphore_s) with 8; lia).
  assert (Hpos : 0 <= Semaphore.sizeof_amp_semaphore_s)
    by (unfold Semaphore.sizeof_amp_semaphore_s; lia).
  rewrite (shmem_alloc_exact g _ Hpos Ha Hfit Hb Hregion).
  change (Shmem.round_up8 Semaphore.sizeof_amp_semaphore_s) with 8.
  change (Semaphore.sizeof_amp_semaphore_s =? 0) with false. cbn [orb].
  destruct (Shmem.allocated g + 8 >? Shmem.size g); [reflexivity|].
  destruct (Z.eqb_spec (Shmem.base g + Shmem.allocated g) NULL);
    [unfold NULL in *; lia | reflexivity].
Qed.

Lemma semaphore_create_outcome_witness :
  Semaphore.amp_semaphore_create (Shmem.mk_pool 537133056 16 16) 1 1
  = if (1 >? 1) || (1 =? 0) || (16 + 8 >? 16)
    then (None, Shmem.mk_pool 537133056 16 16)
    else (Some (Semaphore.mk_sem 1 1), Shmem.mk_pool 537133056 16 (16 + 8)).
Proof.
  apply (semaphore_create_outcome (Shmem.mk_pool 537133056 16 16) 1 1);
    simpl; lia.
Defined.

(** ** Mailbox: failures, bounded waits *)

Lemma try_send_failure_keeps m msg :
  fst (Mailbox.amp_mailbox_try_send m msg) <> 0 ->
  snd (Mailbox.amp_mailbox_try_send m msg) = m.
Proof.
  unfold Mailbox.amp_mailbox_try_send.
  destruct m as [b|], msg as [src|]; cbn [fst snd]; try reflexivity.
  destruct (_ >=? _); cbn [fst snd]; [reflexivity | congruence].
Qed.

Lemma try_recv_failure_keeps m buf :
  fst (fst (Mailbox.amp_mailbox_try_recv m buf)) <> 0 ->
  snd (fst (Mailbox.amp_mailbox_try_recv m buf)) = m /\
  snd (Mailbox.amp_mailbox_try_recv m buf) = buf.
Proof.
  unfold Mailbox.amp_mailbox_try_recv.
  destruct m as [b|], buf as [dst|]; cbn [fst snd]; try (split; reflexivity).
  destruct (_ >=? _); cbn [fst snd]; [split; reflexivity | congruence].
Qed.

Lemma send_loop_failure_keeps msg timeout_ms :
  forall (fuel : nat) m count r m',
    Mailbox.send_loop fuel m msg timeout_ms count = Some (r, m') ->
    r <> 0 -> m' = m.
Proof.
  induction fuel as [|fuel IH]; intros m count r m' Hrun Hr; [discriminate|].
  cbn [Mailbox.send_loop] in Hrun.
  pose proof (try_send_failure_keeps m msg) as Hkeep.
  destruct (Mailbox.amp_mailbox_try_send m msg) as [r1 m1].
  cbn [fst snd] in Hkeep.
  destruct (Z.eqb_spec r1 0) as [->|Hne]; cbn [negb] in Hrun.
  - inversion Hrun; subst. congruence.
  - rewrite (Hkeep Hne) in Hrun.
    destruct (timeout_ms >? 0).
    + destruct (u32 (count - 1) =? 0).
      * inversion Hrun; subst. reflexivity.
      * eapply IH; eassumption.
    + eapply IH; eassumption.
Qed.

Lemma recv_loop_failure_keeps timeout_ms :
  forall (fuel : nat) m buf count r m' buf',
    Mailbox.recv_loop fuel m buf timeout_ms count = Some (r, m', buf') ->
    r <> 0 -> m' = m /\ buf' = buf.
Proof.
  induction fuel as [|fuel IH]; intros m buf count r m' buf' Hrun Hr;
    [discriminate|].
  cbn [Mailbox.recv_loop] in Hrun.
  pose proof (try_recv_failure_keeps m buf) as Hkeep.
  destruct (Mailbox.amp_mailbox_try_recv m buf) as [[r1 m1] b1].
  cbn [fst snd] in Hkeep.
  destruct (Z.eqb_spec r1 0) as [->|Hne]; cbn [negb] in Hrun.
  - inversion Hrun; subst. congruence.
  - destruct (Hkeep Hne) as [-> ->].
    destruct (timeout_ms >? 0).
    + destruct (u32 (count - 1) =? 0).
      * inversion Hrun; subst. split; reflexivity.
      * eapply IH; eassumption.
    + eapply IH; eassumption.
Qed.

(** X15.  A mailbox call that does not return 0 publishes nothing: after a
    failed [amp_mailbox_try_send] or [amp_mailbox_try_recv], and after
    [amp_mailbox_send] or [amp_mailbox_recv] gave up, the mailbox (indices
    and payload) and the caller's buffer are exactly as before. *)
Theorem mailbox_failure_publishes_nothing :
  (forall m msg,
      fst (Mailbox.amp_mailbox_try_send m msg) <> 0 ->
      snd (Mailbox.amp_mailbox_try_send m msg) = m) /\
  (forall m buf,
      fst (fst (Mailbox.amp_mailbox_try_recv m buf)) <> 0 ->
      snd (fst (Mailbox.amp_mailbox_try_recv m buf)) = m /\
      snd (Mailbox.amp_mailbox_try_recv m buf) = buf) /\
  (forall fuel m msg timeout_ms r m',
      Mailbox.amp_mailbox_send fuel m msg timeout_ms = Some (r, m') ->
      r <> 0 -> m' = m) /\
  (forall fuel m buf timeout_ms r m' buf',
      Mailbox.amp_mailbox_recv fuel m buf timeout_ms = Some (r, m', buf') ->
      r <> 0 -> m' = m /\ buf' = buf).
Proof.
  split; [exact try_send_failure_keeps|].
  split; [exact try_recv_failure_keeps|].
  split.
  - intros fuel m msg timeout_ms r m'. unfold Mailbox.amp_mailbox_send.
    apply send_loop_failure_keeps.
  - intros fuel m buf timeout_ms r m' buf'. unfold Mailbox.amp_mailbox_recv.
    apply recv_loop_failure_keeps.
Qed.

(** X16.  The other blocking calls share the null-handle hang of
    [amp_mailbox_send]: with a null handle and [timeout_ms = 0],
    [amp_mailbox_recv] and [amp_semaphore_wait] retry for ever. *)
Theorem blocking_calls_null_handle_never_return :
  (forall fuel buf, Mailbox.amp_mailbox_recv fuel None buf 0 = None) /\
  (forall fuel, Semaphore.amp_semaphore_wait fuel None 0 = None).
Proof.
  split.
  - intros fuel buf. unfold Mailbox.amp_mailbox_recv.
    generalize (u32 (0 * 1000)) as count.
    induction fuel as [|fuel IH]; intros count; [reflexivity|].
    cbn [Mailbox.recv_loop]. apply IH.
  - intros fuel. unfold Semaphore.amp_semaphore_wait.
    generalize (u32 (0 * 1000)) as count.
    induction fuel as [|fuel IH]; intros count; [reflexivity|].
    cbn [Semaphore.wait_loop]. apply IH.
Qed.

Lemma recv_loop_countdown m buf timeout_ms :
  fst (fst (Mailbox.amp_mailbox_try_recv m buf)) <> 0 -> 0 < timeout_ms ->
  forall (fuel : nat) (count : Z),
    is_u32 count ->
    Mailbox.recv_loop fuel m buf timeout_ms count
    = if Z.of_nat fuel <? countdown_turns count then None
      else Some (-1, m, buf).
Proof.
  intros Hfail Ht.
  destruct (try_recv_failure_keeps m buf Hfail) as [Hm Hb].
  induction fuel as [|fuel IH]; intros count Hc.
  - pose proof (countdown_positive count Hc).
    destruct (Z.ltb_spec (Z.of_nat 0) (countdown_turns count)); [reflexivity|lia].
  - cbn [Mailbox.recv_loop].
    destruct (Mailbox.amp_mailbox_try_recv m buf) as [[r1 m1] b1].
    cbn [fst snd] in *. subst m1 b1.
    destruct (Z.eqb_spec r1 0); [contradiction|]. cbn [negb].
    destruct (Z.gtb_spec timeout_ms 0); [|lia].
    destruct (Z.eqb_spec (u32 (count - 1)) 0) as [Hz|Hnz].
    + rewrite (countdown_last count Hc Hz).
      destruct (Z.ltb_spec (Z.of_nat (S fuel)) 1); [lia|reflexivity].
    + rewrite IH by apply u32_range.
      rewrite (countdown_next count Hc Hnz).
      destruct (Z.ltb_spec (Z.of_nat fuel) (countdown_turns count - 1));
        destruct (Z.ltb_spec (Z.of_nat (S fuel)) (countdown_turns count));
        try reflexivity; lia.
Qed.

Lemma send_loop_countdown m msg timeout_ms :
  fst (Mailbox.amp_mailbox_try_send m msg) <> 0 -> 0 < timeout_ms ->
  forall (fuel : nat) (count : Z),
    is_u32 count ->
    Mailbox.send_loop fuel m msg timeout_ms count
    = if Z.of_nat fuel <? countdown_turns count then None
      else Some (-1, m).
Proof.
  intros Hfail Ht.
  pose proof (try_send_failure_keeps m msg Hfail) as Hm.
  induction fuel as [|fuel IH]; intros count Hc.
  - pose proof (countdown_positive count Hc).
    destruct (Z.ltb_spec (Z.of_nat 0) (countdown_turns count)); [reflexivity|lia].
  - cbn [Mailbox.send_loop].
    destruct (Mailbox.amp_mailbox_try_send m msg) as [r1 m1].
    cbn [fst snd] in *. subst m1.
    destruct (Z.eqb_spec r1 0); [contradiction|]. cbn [negb].
    destruct (Z.gtb_spec timeout_ms 0); [|lia].
    destruct (Z.eqb_spec (u32 (count - 1)) 0) as [Hz|Hnz].
    + rewrite (countdown_last count Hc Hz).
      destruct (Z.ltb_spec (Z.of_nat (S fuel)) 1); [lia|reflexivity].
    + rewrite IH by apply u32_range.
      rewrite (countdown_next count Hc Hnz).
      destruct (Z.ltb_spec (Z.of_nat fuel) (countdown_turns count - 1));
        destruct (Z.ltb_spec (Z.of_nat (S fuel)) (countdown_turns count));
        try reflexivity; lia.
Qed.

(** X17.  Bounded waits on one core: while the attempt keeps failing (the
    mailbox is full for a send, holds nothing the receive test accepts, or a
    pointer is null) and the timeout is positive, [amp_mailbox_send] and
    [amp_mailbox_recv] make exactly [countdown_turns (timeout_ms * 1000 mod
    2^32)] attempts, then return -1 with mailbox and buffer untouched. *)
Theorem mailbox_bounded_wait_times_out
  (ms mr : option Mailbox.amp_mailbox_s) (msg buf : option (list byte))
  (timeout_ms : Z) (fuel : nat) :
  0 < timeout_ms ->
  fst (Mailbox.amp_mailbox_try_send ms msg) <> 0 ->
  fst (fst (Mailbox.amp_mailbox_try_recv mr buf)) <> 0 ->
  Mailbox.amp_mailbox_send fuel ms msg timeout_ms
  = (if Z.of_nat fuel <? countdown_turns (u32 (timeout_ms * 1000))
     then None else Some (-1, ms)) /\
  Mailbox.amp_mailbox_recv fuel mr buf timeout_ms
  = (if Z.of_nat fuel <? countdown_turns (u32 (timeout_ms * 1000))
     then None else Some (-1, mr, buf)).
Proof.
  intros Ht Hsend Hrecv. split.
  - unfold Mailbox.amp_mailbox_send.
    apply send_loop_countdown; try assumption. apply u32_range.
  - unfold Mailbox.amp_mailbox_recv.
    apply recv_loop_countdown; try assumption. apply u32_range.
Qed.

(** A full two-slot mailbox for the send, an empty one for the receive, and
    a timeout of 4294968 ms, whose product wraps to 704: both calls return
    -1 on the 704th attempt and leave mailbox and buffer as they were. *)
Lemma mailbox_bounded_wait_times_out_witness :
  Mailbox.amp_mailbox_send 704
    (Some (Mailbox.mk_mbox 2 0 4 2 1 (fun _ => x00)))
    (Some [x01; x02; x03; x04]) 4294968
  = Some (-1, Some (Mailbox.mk_mbox 2 0 4 2 1 (fun _ => x00))) /\
  Mailbox.amp_mailbox_recv 704
    (Some (Mailbox.mk_mbox 0 0 4 2 1 (fun _ => x00)))
    (Some [x00; x00; x00; x00]) 4294968
  = Some (-1, Some (Mailbox.mk_mbox 0 0 4 2 1 (fun _ => x00)),
          Some [x00; x00; x00; x00]).
Proof.
  exact (mailbox_bounded_wait_times_out
           (Some (Mailbox.mk_mbox 2 0 4 2 1 (fun _ => x00)))
           (Some (Mailbox.mk_mbox 0 0 4 2 1 (fun _ => x00)))
           (Some [x01; x02; x03; x04]) (Some [x00; x00; x00; x00])
           4294968 704
           eq_refl ltac:(discriminate) ltac:(discriminate)).
Defined.

(** ** Mailbox: the slot count chosen by [amp_mailbox_create] *)

(** One or-shift step of the rounding widens the window of set bits that
    reach down to a position. *)
Lemma smear_step x y t s :
  0 <= t -> 0 < s <= t + 1 ->
  (forall n, 0 <= n ->
     Z.testbit y n = true <-> exists d, 0 <= d <= t /\ Z.testbit x (n + d) = true) ->
  forall n, 0 <= n ->
    Z.testbit (Z.lor y (Z.shiftr y s)) n = true <->
    exists d, 0 <= d <= t + s /\ Z.testbit x (n + d) = true.
Proof.
  intros Ht Hs Hy n Hn.
  rewrite Z.lor_spec, Z.shiftr_spec, orb_true_iff by assumption.
  rewrite (Hy n Hn), (Hy (n + s)) by lia. split.
  - intros [(d & Hd & Hbit) | (d & Hd & Hbit)].
    + exists d. split; [lia | assumption].
    + exists (s + d). split; [lia|].
      replace (n + (s + d)) with (n + s + d) by lia. assumption.
  - intros (d & Hd & Hbit).
    destruct (Z.le_gt_cases d t).
    + left. exists d. split; [lia | assumption].
    + right. exists (d - s). split; [lia|].
      replace (n + s + (d - s)) with (n + d) by lia. assumption.
Qed.

Lemma smear_all x :
  0 < x < 2 ^ 32 ->
  let y1 := Z.lor x (Z.shiftr x 1) in
  let y2 := Z.lor y1 (Z.shiftr y1 2) in
  let y3 := Z.lor y2 (Z.shiftr y2 4) in
  let y4 := Z.lor y3 (Z.shiftr y3 8) in
  let y5 := Z.lor y4 (Z.shiftr y4 16) in
  y5 = Z.ones (Z.log2 x + 1).
Proof.
  intros Hx y1 y2 y3 y4 y5.
  assert (H0 : forall n, 0 <= n ->
            Z.testbit x n = true <->
            exists d, 0 <= d <= 0 /\ Z.testbit x (n + d) = true).
  { intros n Hn. split.
    - intros Hbit. exists 0. rewrite Z.add_0_r. split; [lia | assumption].
    - intros (d & Hd & Hbit). replace d with 0 in Hbit by lia.
      rewrite Z.add_0_r in Hbit. assumption. }
  pose proof (smear_step x x 0 1 ltac:(lia) ltac:(lia) H0) as H1.
  pose proof (smear_step x y1 1 2 ltac:(lia) ltac:(lia) H1) as H2.
  pose proof (smear_step x y2 3 4 ltac:(lia) ltac:(lia) H2) as H3.
  pose proof (smear_step x y3 7 8 ltac:(lia) ltac:(lia) H3) as H4.
  pose proof (smear_step x y4 15 16 ltac:(lia) ltac:(lia) H4) as H5.
  fold y1 y2 y3 y4 y5 in H5. clear H0 H1 H2 H3 H4.
  assert (HL : 0 <= Z.log2 x < 32).
  { split; [apply Z.log2_nonneg|]. apply Z.log2_lt_pow2; lia. }
  apply Z.bits_inj'. intros n Hn.
  rewrite Z.testbit_ones_nonneg by lia.
  destruct (Z.ltb_spec n (Z.log2 x + 1)) as [Hlow|Hhigh].
  - apply (H5 n Hn). exists (Z.log2 x - n). split; [lia|].
    replace (n + (Z.log2 x - n)) with (Z.log2 x) by lia.
    apply Z.bit_log2. lia.
  - destruct (Z.testbit y5 n) eqn:E; [|reflexivity].
    apply (H5 n Hn) in E. destruct E as (d & Hd & Hbit).
    rewrite Z.bits_above_log2 in Hbit by lia. discriminate.
Qed.

Lemma round_slots_value n :
  2 <= n < 2 ^ 32 ->
  Mailbox.round_slots n = u32 (2 ^ (Z.log2 (n - 1) + 1)).
Proof.
  intros Hn. unfold Mailbox.round_slots.
  assert (Hx : u32 (n - 1) = n - 1) by (unwrap; lia).
  rewrite Hx. cbv zeta.
  pose proof (smear_all (n - 1) ltac:(lia)) as Hs. cbv zeta in Hs.
  rewrite Hs, Z.ones_equiv. f_equal. lia.
Qed.

(** The rounded count: the least power of two at or above a request of at
    most 2^31 slots, and 0 above that. *)
Lemma round_slots_bounds n :
  2 <= n < 2 ^ 32 ->
  (n <= 2 ^ 31 ->
   exists k, 1 <= k <= 31 /\ Mailbox.round_slots n = 2 ^ k /\
             n <= 2 ^ k < 2 * n) /\
  (2 ^ 31 < n -> Mailbox.round_slots n = 0).
Proof.
  intros Hn. rewrite round_slots_value by assumption.
  destruct (Z.log2_spec (n - 1) ltac:(lia)) as [Hlo Hhi].
  assert (HL : 0 <= Z.log2 (n - 1)) by apply Z.log2_nonneg.
  rewrite <- Z.add_1_r in Hhi.
  assert (Hdbl : 2 ^ (Z.log2 (n - 1) + 1) = 2 * 2 ^ Z.log2 (n - 1))
    by (rewrite Z.pow_add_r by lia; lia).
  split.
  - intros Hsmall.
    assert (HL30 : Z.log2 (n - 1) < 31).
    { apply Z.log2_lt_pow2; lia. }
    exists (Z.log2 (n - 1) + 1). split; [lia|].
    assert (Hle : 2 ^ (Z.log2 (n - 1) + 1) <= 2 ^ 31)
      by (apply Z.pow_le_mono_r; lia).
    split; [|lia].
    unfold u32. apply Z.mod_small. rewrite two_32.
    change (2 ^ 31) with 2147483648 in *. lia.
  - intros Hbig.
    assert (HL31 : Z.log2 (n - 1) = 31).
    { apply Z.log2_unique; [lia|]. change (2 ^ Z.succ 31) with (2 ^ 32). lia. }
    rewrite HL31. reflexivity.
Qed.

Lemma mailbox_create_fields g mem cfg m g' :
  Mailbox.amp_mailbox_create g mem (Some cfg) = (Some m, g') ->
  let n := MailboxConfig.msg_slots cfg in
  let slots := if negb (Z.land n (u32 (n - 1)) =? 0)
               then Mailbox.round_slots n else n in
  let total := usize (Mailbox.sizeof_amp_mailbox_s
                      + u32 (MailboxConfig.msg_size cfg * slots)) in
  MailboxConfig.msg_size cfg <> 0 /\ n <> 0 /\
  fst (Shmem.amp_shmem_alloc g total) <> NULL /\
  g' = snd (Shmem.amp_shmem_alloc g total) /\
  m = Mailbox.mk_mbox 0 0 (MailboxConfig.msg_size cfg) slots (u32 (slots - 1))
        (fun i => mem (fst (Shmem.amp_shmem_alloc g total)
                       + Mailbox.sizeof_amp_mailbox_s + i)).
Proof.
  intros Hcreate n slots total. unfold Mailbox.amp_mailbox_create in Hcreate.
  destruct (Z.eqb_spec (MailboxConfig.msg_size cfg) 0); cbn [orb] in Hcreate;
    [discriminate|].
  destruct (Z.eqb_spec (MailboxConfig.msg_slots cfg) 0); cbn [orb] in Hcreate;
    [discriminate|].
  fold n slots total in Hcreate.
  destruct (Shmem.amp_shmem_alloc g total) as [p g1].
  destruct (Z.eqb_spec p NULL); [discriminate|].
  inversion Hcreate; subst. cbn [fst snd]. auto.
Qed.

(** The slot count and the mask of a created mailbox: the request is rounded
    up to a power of two that is at most [2^31]. *)
Lemma mailbox_create_slots
  (g g' : Shmem.amp_shmem_pool_t) (mem : bytes)
  (cfg : MailboxConfig.amp_mailbox_config_t) (m : Mailbox.amp_mailbox_s) :
  1 <= MailboxConfig.msg_slots cfg <= 2 ^ 31 ->
  Mailbox.amp_mailbox_create g mem (Some cfg) = (Some m, g') ->
  Mailbox.write_idx m = 0 /\ Mailbox.read_idx m = 0 /\
  Mailbox.msg_size m = MailboxConfig.msg_size cfg /\
  Mailbox.msg_size m <> 0 /\
  exists k, 0 <= k <= 31 /\ Mailbox.msg_slots m = 2 ^ k /\
            MailboxConfig.msg_slots cfg <= 2 ^ k /\
            2 ^ k < 2 * MailboxConfig.msg_slots cfg /\
            Mailbox.mask m = 2 ^ k - 1.
Proof.
  intros Hn Hcreate.
  destruct (mailbox_create_fields _ _ _ _ _ Hcreate) as (Hsz & _ & _ & _ & ->).
  cbn [Mailbox.write_idx Mailbox.read_idx Mailbox.msg_size Mailbox.msg_slots
       Mailbox.mask].
  repeat split; try assumption.
  set (n := MailboxConfig.msg_slots cfg) in *.
  change (2 ^ 31) with 2147483648 in Hn.
  assert (Hn1 : u32 (n - 1) = n - 1) by (unwrap; lia).
  rewrite Hn1.
  destruct (Z.eqb_spec (Z.land n (n - 1)) 0) as [Hland|Hland]; cbn [negb].
  - pose proof (pow2_of_land n ltac:(lia) Hland) as Hpow.
    assert (HL : 0 <= Z.log2 n < 32).
    { split; [apply Z.log2_nonneg|]. apply Z.log2_lt_pow2; rewrite ?two_32; lia. }
    exists (Z.log2 n). rewrite <- Hpow.
    repeat split; try lia; unwrap; lia.
  - assert (Hn2 : 2 <= n < 2 ^ 32).
    { rewrite two_32. split; [|lia].
      destruct (Z.eq_dec n 1) as [->|]; [|lia]. exfalso. apply Hland. reflexivity. }
    destruct (round_slots_bounds n Hn2) as [Hsmall _].
    destruct Hsmall as (k & Hk & -> & Hle & Hlt);
      [change (2 ^ 31) with 2147483648; lia|].
    assert (2 ^ k <= 2 ^ 31) by (apply Z.pow_le_mono_r; lia).
    change (2 ^ 31) with 2147483648 in *.
    exists k. repeat split; try lia; unwrap; lia.
Qed.

(** X18.  For a request of 1 to 2^31 slots, [amp_mailbox_create] returns an
    empty mailbox whose slot count is the least power of two at or above the
    request, with [mask = msg_slots - 1] and the message size asked for. *)
Theorem mailbox_create_capacity
  (g g' : Shmem.amp_shmem_pool_t) (mem : bytes)
  (cfg : MailboxConfig.amp_mailbox_config_t) (m : Mailbox.amp_mailbox_s) :
  1 <= MailboxConfig.msg_slots cfg <= 2 ^ 31 ->
  Mailbox.amp_mailbox_create g mem (Some cfg) = (Some m, g') ->
  Mailbox.write_idx m = 0 /\ Mailbox.read_idx m = 0 /\
  Mailbox.msg_size m = MailboxConfig.msg_size cfg /\
  Mailbox.msg_size m <> 0 /\
  exists k, 0 <= k <= 31 /\ Mailbox.msg_slots m = 2 ^ k /\
            MailboxConfig.msg_slots cfg <= 2 ^ k /\
            2 ^ k < 2 * MailboxConfig.msg_slots cfg /\
            Mailbox.mask m = 2 ^ k - 1 /\
            (forall j, 0 <= j < k -> 2 ^ j < MailboxConfig.msg_slots cfg).
Proof.
  intros Hn Hcreate.
  destruct (mailbox_create_slots g g' mem cfg m Hn Hcreate)
    as (Hw & Hr & Hms & Hnz & k & Hk & Hslots & Hle & Hlt & Hmask).
  repeat (split; [assumption|]).
  exists k. repeat (split; [assumption|]).
  intros j Hj.
  assert (2 ^ j <= 2 ^ (k - 1)) by (apply Z.pow_le_mono_r; lia).
  assert (2 ^ k = 2 * 2 ^ (k - 1))
    by (rewrite <- Z.pow_succ_r by lia; f_equal; lia).
  lia.
Qed.

Lemma mailbox_create_capacity_witness :
  Mailbox.write_idx (Mailbox.mk_mbox 0 0 4 8 7 (fun _ => x00)) = 0 /\
  Mailbox.read_idx (Mailbox.mk_mbox 0 0 4 8 7 (fun _ => x00)) = 0 /\
  Mailbox.msg_size (Mailbox.mk_mbox 0 0 4 8 7 (fun _ => x00))
  = MailboxConfig.msg_size (MailboxConfig.mk_config 4 5) /\
  Mailbox.msg_size (Mailbox.mk_mbox 0 0 4 8 7 (fun _ => x00)) <> 0 /\
  exists k, 0 <= k <= 31 /\
            Mailbox.msg_slots (Mailbox.mk_mbox 0 0 4 8 7 (fun _ => x00)) = 2 ^ k /\
            MailboxConfig.msg_slots (MailboxConfig.mk_config 4 5) <= 2 ^ k /\
            2 ^ k < 2 * MailboxConfig.msg_slots (MailboxConfig.mk_config 4 5) /\
            Mailbox.mask (Mailbox.mk_mbox 0 0 4 8 7 (fun _ => x00)) = 2 ^ k - 1 /\
            (forall j, 0 <= j < k ->
                       2 ^ j < MailboxConfig.msg_slots (MailboxConfig.mk_config 4 5)).
Proof.
  apply (mailbox_create_capacity
           (Shmem.mk_pool 537133056 16384 0) (Shmem.mk_pool 537133056 16384 56)
           (fun _ => x00) (MailboxConfig.mk_config 4 5)).
  - simpl. lia.
  - reflexivity.
Defined.

(** X19.  A request of more than 2^31 slots is not refused: the rounding
    wraps to 0, and [amp_mailbox_create] returns a mailbox with
    [msg_slots = 0] on which every [amp_mailbox_try_send] and
    [amp_mailbox_try_recv] fails. *)
Theorem mailbox_create_oversized_has_no_slots
  (g g' : Shmem.amp_shmem_pool_t) (mem : bytes)
  (cfg : MailboxConfig.amp_mailbox_config_t) (m : Mailbox.amp_mailbox_s) :
  2 ^ 31 < MailboxConfig.msg_slots cfg < 2 ^ 32 ->
  Mailbox.amp_mailbox_create g mem (Some cfg) = (Some m, g') ->
  Mailbox.msg_slots m = 0 /\
  (forall msg, Mailbox.amp_mailbox_try_send (Some m) msg = (-1, Some m)) /\
  (forall buf, Mailbox.amp_mailbox_try_recv (Some m) buf = (-1, Some m, buf)).
Proof.
  intros Hn Hcreate.
  destruct (mailbox_create_fields _ _ _ _ _ Hcreate) as (_ & _ & _ & _ & ->).
  set (n := MailboxConfig.msg_slots cfg) in *.
  assert (Hn1 : u32 (n - 1) = n - 1).
  { change (2 ^ 31) with 2147483648 in Hn. unwrap. lia. }
  rewrite Hn1.
  assert (Hslots : (if negb (Z.land n (n - 1) =? 0)
                    then Mailbox.round_slots n else n) = 0).
  { destruct (Z.eqb_spec (Z.land n (n - 1)) 0) as [Hland|Hland]; cbn [negb].
    - exfalso. change (2 ^ 31) with 2147483648 in Hn.
      pose proof (pow2_of_land n ltac:(lia) Hland) as Hpow.
      assert (HL : Z.log2 n = 31).
      { apply Z.log2_unique; [lia|]. change (2 ^ Z.succ 31) with (2 ^ 32).
        change (2 ^ 31) with 2147483648. lia. }
      rewrite HL in Hpow. change (2 ^ 31) with 2147483648 in Hpow. lia.
    - apply round_slots_bounds; [|lia].
      change (2 ^ 31) with 2147483648 in Hn. lia. }
  rewrite Hslots. cbn [Mailbox.msg_slots]. split; [reflexivity|].
  split.
  - intros [src|]; [|reflexivity].
    unfold Mailbox.amp_mailbox_try_send.
    cbn [Mailbox.write_idx Mailbox.read_idx Mailbox.msg_slots].
    reflexivity.
  - intros [dst|]; reflexivity.
Qed.

Lemma mailbox_create_oversized_has_no_slots_witness :
  Mailbox.msg_slots (Mailbox.mk_mbox 0 0 4 0 4294967295 (fun _ => x00)) = 0 /\
  (forall msg,
      Mailbox.amp_mailbox_try_send
        (Some (Mailbox.mk_mbox 0 0 4 0 4294967295 (fun _ => x00))) msg
      = (-1, Some (Mailbox.mk_mbox 0 0 4 0 4294967295 (fun _ => x00)))) /\
  (forall buf,
      Mailbox.amp_mailbox_try_recv
        (Some (Mailbox.mk_mbox 0 0 4 0 4294967295 (fun _ => x00))) buf
      = (-1, Some (Mailbox.mk_mbox 0 0 4 0 4294967295 (fun _ => x00)), buf)).
Proof.
  apply (mailbox_create_oversized_has_no_slots
           (Shmem.mk_pool 537133056 16384 0) (Shmem.mk_pool 537133056 16384 24)
           (fun _ => x00) (MailboxConfig.mk_config 4 3000000000)).
  - simpl. lia.
  - reflexivity.
Defined.

(** ** Mailbox: first in, first out *)

Lemma map_peek_firstn (l : list byte) :
  forall n : nat, (n <= length l)%nat ->
    map (fun j => peek l (Z.of_nat j)) (seq 0 n) = firstn n l.
Proof.
  induction l as [|x t IH]; intros [|n] Hn; cbn [length] in Hn;
    try reflexivity; try lia.
  cbn [seq map firstn]. f_equal.
  rewrite <- seq_shift, map_map. rewrite <- IH by lia.
  apply map_ext. intros j. unfold peek. rewrite !Nat2Z.id. reflexivity.
Qed.

Lemma memcpy_out_loop_length m src :
  forall (n : nat) (i : Z) (dst : list byte),
    length (Mailbox.memcpy_out_loop n i dst m src) = length dst.
Proof.
  induction n as [|n IH]; intros i dst; cbn [Mailbox.memcpy_out_loop];
    [reflexivity|]. rewrite IH. apply length_poke.
Qed.

Lemma memcpy_out_loop_elsewhere m src :
  forall (n : nat) (i : Z) (dst : list byte) (j : Z),
    0 <= i -> 0 <= j -> (j < i \/ i + Z.of_nat n <= j) ->
    peek (Mailbox.memcpy_out_loop n i dst m src) j = peek dst j.
Proof.
  induction n as [|n IH]; intros i dst j Hi Hj Hout;
    cbn [Mailbox.memcpy_out_loop]; [reflexivity|].
  rewrite IH by lia. apply peek_poke_other; lia.
Qed.

Lemma memcpy_out_loop_copied m src :
  forall (n : nat) (i : Z) (dst : list byte) (j : Z),
    0 <= i -> i <= j < i + Z.of_nat n -> j < Z.of_nat (length dst) ->
    peek (Mailbox.memcpy_out_loop n i dst m src) j = m (src + j).
Proof.
  induction n as [|n IH]; intros i dst j Hi Hj Hlen; [lia|].
  cbn [Mailbox.memcpy_out_loop].
  destruct (Z.eq_dec j i) as [->|Hne].
  - rewrite memcpy_out_loop_elsewhere by lia. apply peek_poke_same. lia.
  - apply IH; [lia | lia | rewrite length_poke; assumption].
Qed.

(** Where a slot lives, on a well-formed mailbox. *)
Lemma mailbox_slot_offset m y :
  Mailbox.well_formed m ->
  u32 (Z.land (u32 y) (Mailbox.mask m) * Mailbox.msg_size m)
  = (y mod Mailbox.msg_slots m) * Mailbox.msg_size m /\
  0 <= y mod Mailbox.msg_slots m < Mailbox.msg_slots m.
Proof.
  intros (_ & _ & (k & Hk & Hslots) & Hmask & Hsize & Hfit & _).
  rewrite Hmask, Hslots, ringbuf_slot by assumption. rewrite <- Hslots.
  assert (Hpos : 0 < Mailbox.msg_slots m)
    by (rewrite Hslots; apply Z.pow_pos_nonneg; lia).
  pose proof (Z.mod_pos_bound y (Mailbox.msg_slots m) Hpos) as Hq.
  split; [|assumption].
  unfold u32. apply Z.mod_small. nia.
Qed.

Lemma block_disjoint q1 q2 n j :
  0 < n -> q1 <> q2 -> 0 <= j < n ->
  ~ (q2 * n <= q1 * n + j < q2 * n + n).
Proof. intros Hn Hq Hj. nia. Qed.

(** A send leaves the slots of the messages already pending alone. *)
Lemma mailbox_send_keeps_slot m src y :
  Mailbox.well_formed m ->
  y mod Mailbox.msg_slots m <> Mailbox.write_idx m mod Mailbox.msg_slots m ->
  map (fun j =>
         Mailbox.memcpy_in (Mailbox.data m)
           (u32 (Z.land (Mailbox.write_idx m) (Mailbox.mask m) * Mailbox.msg_size m))
           src (Mailbox.msg_size m)
           (u32 (Z.land (u32 y) (Mailbox.mask m) * Mailbox.msg_size m) + Z.of_nat j))
    (seq 0 (Z.to_nat (Mailbox.msg_size m)))
  = Mailbox.slot_bytes m (u32 y).
Proof.
  intros Hwf Hne. unfold Mailbox.slot_bytes.
  pose proof Hwf as (Hw & _ & _ & _ & Hsize & _).
  destruct (mailbox_slot_offset m y Hwf) as [Hoff _].
  destruct (mailbox_slot_offset m (Mailbox.write_idx m) Hwf) as [Hoffw _].
  rewrite (u32_small _ Hw) in Hoffw. rewrite Hoff, Hoffw.
  apply map_ext_in. intros j Hj. apply in_seq in Hj.
  unfold Mailbox.memcpy_in.
  pose proof (block_disjoint (y mod Mailbox.msg_slots m)
                (Mailbox.write_idx m mod Mailbox.msg_slots m)
                (Mailbox.msg_size m) (Z.of_nat j) Hsize Hne ltac:(lia)) as Hout.
  destruct (Z.leb_spec (Mailbox.write_idx m mod Mailbox.msg_slots m * Mailbox.msg_size m)
              (y mod Mailbox.msg_slots m * Mailbox.msg_size m + Z.of_nat j));
    destruct (Z.ltb_spec (y mod Mailbox.msg_slots m * Mailbox.msg_size m + Z.of_nat j)
                (Mailbox.write_idx m mod Mailbox.msg_slots m * Mailbox.msg_size m
                 + Mailbox.msg_size m));
    cbn [andb]; try reflexivity. exfalso. apply Hout. lia.
Qed.

(** A send puts the message into the slot of [write_idx]. *)
Lemma mailbox_send_fills_slot (d : bytes) dest src n :
  0 <= n -> (Z.to_nat n <= length src)%nat ->
  map (fun j => Mailbox.memcpy_in d dest src n (dest + Z.of_nat j))
    (seq 0 (Z.to_nat n))
  = firstn (Z.to_nat n) src.
Proof.
  intros Hn Hlen. rewrite <- map_peek_firstn by assumption.
  apply map_ext_in. intros j Hj. apply in_seq in Hj.
  unfold Mailbox.memcpy_in.
  destruct (Z.leb_spec dest (dest + Z.of_nat j)); [|lia].
  destruct (Z.ltb_spec (dest + Z.of_nat j) (dest + n)); [|lia].
  cbn [andb]. f_equal. lia.
Qed.

Lemma mod_slots_of_u32 k z : 0 <= k < 32 -> u32 z mod 2 ^ k = z mod 2 ^ k.
Proof.
  intros Hk. unfold u32. apply Z.mod_mod_divide.
  exists (2 ^ (32 - k)). rewrite <- Z.pow_add_r by lia. f_equal. lia.
Qed.

(** X20.  Sending appends: on a well-formed mailbox, a successful
    [amp_mailbox_try_send] keeps the mailbox well formed, leaves every
    pending message as it was and adds the first [msg_size] bytes of the
    caller's message behind them. *)
Theorem mailbox_send_appends
  (m : Mailbox.amp_mailbox_s) (src : list byte) :
  Mailbox.well_formed m ->
  Mailbox.msg_size m <= Z.of_nat (length src) ->
  fst (Mailbox.amp_mailbox_try_send (Some m) (Some src)) = 0 ->
  exists m',
    snd (Mailbox.amp_mailbox_try_send (Some m) (Some src)) = Some m' /\
    Mailbox.well_formed m' /\
    Mailbox.pending m'
    = Mailbox.pending m ++ [firstn (Z.to_nat (Mailbox.msg_size m)) src].
Proof.
  intros Hwf Hlen. unfold Mailbox.amp_mailbox_try_send.
  destruct (Z.geb_spec (u32 (Mailbox.write_idx m - Mailbox.read_idx m))
              (Mailbox.msg_slots m)) as [|Hroom]; cbn [fst snd];
    [discriminate|]. intros _.
  eexists. split; [reflexivity|].
  pose proof Hwf as (Hw & Hr & (k & Hk & Hslots) & Hmask & Hsize & Hfit & Hfill).
  pose proof (u32_range (Mailbox.write_idx m - Mailbox.read_idx m)) as Hcount.
  set (count := u32 (Mailbox.write_idx m - Mailbox.read_idx m)) in *.
  assert (Hsmall : Mailbox.msg_slots m < 2 ^ 32)
    by (rewrite Hslots; apply Z.pow_lt_mono_r; lia).
  assert (Hnext : u32 (u32 (Mailbox.write_idx m + 1) - Mailbox.read_idx m)
                  = count + 1) by (subst count; unwrap; lia).
  assert (Hwr : u32 (Mailbox.read_idx m + count) = Mailbox.write_idx m)
    by (subst count; unwrap; lia).
  split.
  - unfold Mailbox.well_formed.
    cbn [Mailbox.write_idx Mailbox.read_idx Mailbox.msg_slots Mailbox.mask
         Mailbox.msg_size].
    rewrite Hnext.
    split; [apply u32_range|]. split; [assumption|].
    split; [exists k; auto|]. split; [assumption|]. split; [assumption|].
    split; [assumption|]. lia.
  - unfold Mailbox.pending.
    cbn [Mailbox.write_idx Mailbox.read_idx]. rewrite Hnext. fold count.
    replace (Z.to_nat (count + 1)) with (S (Z.to_nat count))
      by (unfold is_u32 in Hcount; lia).
    rewrite seq_S, map_app. cbn [map plus]. f_equal.
    + apply map_ext_in. intros i Hi. apply in_seq in Hi.
      unfold Mailbox.slot_bytes at 1.
      cbn [Mailbox.data Mailbox.mask Mailbox.msg_size].
      apply mailbox_send_keeps_slot; [assumption|].
      rewrite <- Hwr at 1. rewrite Hslots, mod_slots_of_u32 by assumption.
      rewrite <- Hslots.
      apply ringbuf_slots_distinct; unfold is_u32 in *; lia.
    + f_equal. rewrite Z2Nat.id by (unfold is_u32 in Hcount; lia).
      rewrite Hwr. unfold Mailbox.slot_bytes.
      cbn [Mailbox.data Mailbox.mask Mailbox.msg_size].
      apply mailbox_send_fills_slot; lia.
Qed.

Lemma mailbox_send_appends_witness :
  exists m',
    snd (Mailbox.amp_mailbox_try_send
           (Some (Mailbox.mk_mbox 1 0 2 4 3 (fun _ => x00)))
           (Some [x01; x02])) = Some m' /\
    Mailbox.well_formed m' /\
    Mailbox.pending m'
    = Mailbox.pending (Mailbox.mk_mbox 1 0 2 4 3 (fun _ => x00))
      ++ [firstn (Z.to_nat 2) [x01; x02]].
Proof.
  apply (mailbox_send_appends (Mailbox.mk_mbox 1 0 2 4 3 (fun _ => x00))
           [x01; x02]).
  - unfold Mailbox.well_formed, is_u32. simpl.
    split; [lia|]. split; [lia|]. split; [exists 2; split; [lia|reflexivity]|].
    split; [reflexivity|]. split; [lia|]. split; [lia|]. unwrap. lia.
  - simpl. lia.
  - reflexivity.
Defined.

(** X21.  Receiving takes the oldest: on a well-formed mailbox, a successful
    [amp_mailbox_try_recv] keeps the mailbox well formed, puts the oldest
    pending message into the first [msg_size] bytes of the caller's buffer,
    leaves the rest of the buffer alone, and leaves the later messages
    pending in their order. *)
Theorem mailbox_recv_takes_oldest
  (m : Mailbox.amp_mailbox_s) (dst : list byte) :
  Mailbox.well_formed m ->
  Mailbox.msg_size m <= Z.of_nat (length dst) ->
  fst (fst (Mailbox.amp_mailbox_try_recv (Some m) (Some dst))) = 0 ->
  exists m' out,
    snd (fst (Mailbox.amp_mailbox_try_recv (Some m) (Some dst))) = Some m' /\
    snd (Mailbox.amp_mailbox_try_recv (Some m) (Some dst)) = Some out /\
    Mailbox.well_formed m' /\
    Mailbox.pending m
    = firstn (Z.to_nat (Mailbox.msg_size m)) out :: Mailbox.pending m' /\
    length out = length dst /\
    (forall j, Mailbox.msg_size m <= j -> peek out j = peek dst j).
Proof.
  intros Hwf Hlen. unfold Mailbox.amp_mailbox_try_recv.
  destruct (Z.geb_spec (Mailbox.read_idx m) (Mailbox.write_idx m)) as [|Hsome];
    cbn [fst snd]; [discriminate|]. intros _.
  eexists. eexists. split; [reflexivity|]. split; [reflexivity|].
  pose proof Hwf as (Hw & Hr & (k & Hk & Hslots) & Hmask & Hsize & Hfit & Hfill).
  assert (Hcount : u32 (Mailbox.write_idx m - Mailbox.read_idx m)
                   = Mailbox.write_idx m - Mailbox.read_idx m)
    by (unwrap; lia).
  assert (Hr1 : u32 (Mailbox.read_idx m + 1) = Mailbox.read_idx m + 1)
    by (unwrap; lia).
  assert (Hcount1 : u32 (Mailbox.write_idx m - (Mailbox.read_idx m + 1))
                    = Mailbox.write_idx m - Mailbox.read_idx m - 1)
    by (unwrap; lia).
  split; [|split; [|split]].
  - unfold Mailbox.well_formed.
    cbn [Mailbox.write_idx Mailbox.read_idx Mailbox.msg_slots Mailbox.mask
         Mailbox.msg_size].
    rewrite Hr1, Hcount1.
    split; [assumption|]. split; [unwrap; lia|].
    split; [exists k; auto|]. split; [assumption|]. split; [assumption|].
    split; [assumption|]. lia.
  - unfold Mailbox.pending.
    cbn [Mailbox.write_idx Mailbox.read_idx]. rewrite Hr1, Hcount, Hcount1.
    replace (Z.to_nat (Mailbox.write_idx m - Mailbox.read_idx m))
      with (S (Z.to_nat (Mailbox.write_idx m - Mailbox.read_idx m - 1))) by lia.
    cbn [seq map]. f_equal.
    + rewrite Z.add_0_r, (u32_small _ Hr).
      unfold Mailbox.slot_bytes, Mailbox.memcpy_out.
      rewrite <- map_peek_firstn
        by (rewrite memcpy_out_loop_length; lia).
      apply map_ext_in. intros j Hj. apply in_seq in Hj.
      symmetry. apply memcpy_out_loop_copied; lia.
    + rewrite <- seq_shift, map_map. apply map_ext. intros i.
      unfold Mailbox.slot_bytes.
      cbn [Mailbox.data Mailbox.mask Mailbox.msg_size].
      replace (Mailbox.read_idx m + 1 + Z.of_nat i)
        with (Mailbox.read_idx m + Z.of_nat (S i)) by lia.
      reflexivity.
  - unfold Mailbox.memcpy_out. apply memcpy_out_loop_length.
  - intros j Hj. unfold Mailbox.memcpy_out.
    apply memcpy_out_loop_elsewhere; lia.
Qed.

Lemma mailbox_recv_takes_oldest_witness :
  exists m' out,
    snd (fst (Mailbox.amp_mailbox_try_recv
                (Some (Mailbox.mk_mbox 1 0 2 4 3 (fun _ => x07)))
                (Some [x00; x00; x00]))) = Some m' /\
    snd (Mailbox.amp_mailbox_try_recv
           (Some (Mailbox.mk_mbox 1 0 2 4 3 (fun _ => x07)))
           (Some [x00; x00; x00])) = Some out /\
    Mailbox.well_formed m' /\
    Mailbox.pending (Mailbox.mk_mbox 1 0 2 4 3 (fun _ => x07))
    = firstn (Z.to_nat 2) out :: Mailbox.pending m' /\
    length out = length [x00; x00; x00] /\
    (forall j, 2 <= j -> peek out j = peek [x00; x00; x00] j).
Proof.
  apply (mailbox_recv_takes_oldest (Mailbox.mk_mbox 1 0 2 4 3 (fun _ => x07))
           [x00; x00; x00]).
  - unfold Mailbox.well_formed, is_u32. simpl.
    split; [lia|]. split; [lia|]. split; [exists 2; split; [lia|reflexivity]|].
    split; [reflexivity|]. split; [lia|]. split; [lia|]. unwrap. lia.
  - simpl. lia.
  - reflexivity.
Defined.

(** X22.  Short of wrap-around, a mailbox that [amp_mailbox_create] returns
    for 1 to 2^31 slots is well formed and empty, and the arena has set
    aside its 20-byte header and its whole payload of [msg_slots * msg_size]
    bytes, rounded up to a multiple of 8, right at the old bump pointer. *)
Theorem mailbox_create_reserves_payload
  (g g' : Shmem.amp_shmem_pool_t) (mem : bytes)
  (cfg : MailboxConfig.amp_mailbox_config_t) (m : Mailbox.amp_mailbox_s) :
  0 <= Shmem.allocated g <= Shmem.size g ->
  0 < Shmem.base g -> Shmem.base g + Shmem.size g <= 2 ^ 32 ->
  0 < MailboxConfig.msg_size cfg ->
  1 <= MailboxConfig.msg_slots cfg <= 2 ^ 31 ->
  Mailbox.amp_mailbox_create g mem (Some cfg) = (Some m, g') ->
  Mailbox.sizeof_amp_mailbox_s + Mailbox.msg_size m * Mailbox.msg_slots m + 7
  + Shmem.size g < 2 ^ 32 ->
  Mailbox.well_formed m /\ Mailbox.pending m = [] /\
  Shmem.allocated g'
  = Shmem.allocated g
    + Shmem.round_up8 (Mailbox.sizeof_amp_mailbox_s
                       + Mailbox.msg_size m * Mailbox.msg_slots m) /\
  Shmem.allocated g' <= Shmem.size g /\
  (forall i, Mailbox.data m i
             = mem (Shmem.base g + Shmem.allocated g
                    + Mailbox.sizeof_amp_mailbox_s + i)).
Proof.
  intros Ha Hb Hregion Hsize Hn Hcreate Hfit.
  destruct (mailbox_create_slots g g' mem cfg m Hn Hcreate)
    as (Hw & Hr & Hms & _ & k & Hk & Hslots & _ & _ & Hmask).
  assert (Hpos : 0 < Mailbox.msg_slots m)
    by (rewrite Hslots; apply Z.pow_pos_nonneg; lia).
  assert (Hprod : 0 < Mailbox.msg_size m * Mailbox.msg_slots m) by nia.
  destruct (mailbox_create_fields _ _ _ _ _ Hcreate) as (_ & _ & Hp & Hg' & Hm).
  cbv zeta in Hp, Hg', Hm.
  set (slots := if negb _ then _ else _) in *.
  set (A := Shmem.amp_shmem_alloc g _) in *.
  assert (Hsl : Mailbox.msg_slots m = slots) by (rewrite Hm; reflexivity).
  assert (Hdata : forall i, Mailbox.data m i
                            = mem (fst A + Mailbox.sizeof_amp_mailbox_s + i))
    by (intros i; rewrite Hm; reflexivity).
  clear Hm.
  set (total := Mailbox.sizeof_amp_mailbox_s
                + Mailbox.msg_size m * Mailbox.msg_slots m) in *.
  assert (Hround : total <= Shmem.round_up8 total <= total + 7)
    by (unfold Shmem.round_up8; lia).
  assert (Htot20 : total = 20 + Mailbox.msg_size m * Mailbox.msg_slots m)
    by reflexivity.
  assert (HA : A = if Shmem.allocated g + Shmem.round_up8 total >? Shmem.size g
                   then (NULL, g)
                   else (Shmem.base g + Shmem.allocated g,
                         Shmem.mk_pool (Shmem.base g) (Shmem.size g)
                           (Shmem.allocated g + Shmem.round_up8 total))).
  { subst A. rewrite <- Hms, <- Hsl.
    assert (Htotal : usize (Mailbox.sizeof_amp_mailbox_s
                            + u32 (Mailbox.msg_size m * Mailbox.msg_slots m))
                     = total).
    { unfold usize, u32. rewrite two_32 in *.
      rewrite (Z.mod_small (Mailbox.msg_size m * Mailbox.msg_slots m)) by lia.
      apply Z.mod_small. fold total. lia. }
    rewrite Htotal.
    rewrite shmem_alloc_exact by (try assumption; lia).
    destruct (Z.eqb_spec total 0); [lia | reflexivity]. }
  rewrite HA in Hp, Hg', Hdata.
  destruct (Z.gtb_spec (Shmem.allocated g + Shmem.round_up8 total) (Shmem.size g));
    cbn [fst snd] in Hp, Hg', Hdata; [congruence|].
  split; [|split; [|split; [|split]]].
  - unfold Mailbox.well_formed. rewrite Hw, Hr, Hmask.
    change (u32 (0 - 0)) with 0. rewrite two_32 in *.
    split; [unfold is_u32; rewrite two_32; lia|].
    split; [unfold is_u32; rewrite two_32; lia|].
    split; [exists k; split; [lia | assumption]|].
    split; [rewrite Hslots; reflexivity|].
    split; [lia|]. split; [lia|]. lia.
  - unfold Mailbox.pending. rewrite Hw, Hr. reflexivity.
  - rewrite Hg'. reflexivity.
  - rewrite Hg'. cbn [Shmem.allocated]. lia.
  - exact Hdata.
Qed.

Lemma mailbox_create_reserves_payload_witness :
  Mailbox.well_formed (Mailbox.mk_mbox 0 0 60 4 3 (fun _ => x00)) /\
  Mailbox.pending (Mailbox.mk_mbox 0 0 60 4 3 (fun _ => x00)) = [] /\
  Shmem.allocated (Shmem.mk_pool 537133056 16384 264)
  = Shmem.allocated (Shmem.mk_pool 537133056 16384 0)
    + Shmem.round_up8
        (Mailbox.sizeof_amp_mailbox_s
         + Mailbox.msg_size (Mailbox.mk_mbox 0 0 60 4 3 (fun _ => x00))
           * Mailbox.msg_slots (Mailbox.mk_mbox 0 0 60 4 3 (fun _ => x00))) /\
  Shmem.allocated (Shmem.mk_pool 537133056 16384 264)
  <= Shmem.size (Shmem.mk_pool 537133056 16384 0) /\
  (forall i, Mailbox.data (Mailbox.mk_mbox 0 0 60 4 3 (fun _ => x00)) i
             = (fun _ => x00)
                 (Shmem.base (Shmem.mk_pool 537133056 16384 0)
                  + Shmem.allocated (Shmem.mk_pool 537133056 16384 0)
                  + Mailbox.sizeof_amp_mailbox_s + i)).
Proof.
  apply (mailbox_create_reserves_payload
           (Shmem.mk_pool 537133056 16384 0) (Shmem.mk_pool 537133056 16384 264)
           (fun _ => x00) (MailboxConfig.mk_config 60 4)).
  - simpl. lia.
  - simpl. lia.
  - simpl. lia.
  - simpl. lia.
  - simpl. lia.
  - reflexivity.
  - simpl. lia.
Defined.

(** ** Ring buffer: creation, accounting, byte order *)

Lemma land_pow2_pred k : 0 <= k -> Z.land (2 ^ k) (2 ^ k - 1) = 0.
Proof.
  intros Hk.
  replace (2 ^ k - 1) with (Z.ones k) by (rewrite Z.ones_equiv; lia).
  rewrite Z.land_ones by assumption. apply Z.mod_same.
  pose proof (Z.pow_pos_nonneg 2 k). lia.
Qed.

(** X23.  [amp_ringbuf_create] refuses a size that is 0 or not a power of
    two and leaves the arena alone; for a power of two, short of wrap-around,
    it either finds no room and leaves the arena alone, or returns an empty
    buffer of exactly that capacity with [mask = size - 1], having set aside
    the 16-byte header and the payload, rounded up to a multiple of 8, at the
    old bump pointer. *)
Theorem ringbuf_create_outcome
  (g : Shmem.amp_shmem_pool_t) (mem : bytes) (c : Z) :
  is_u32 c ->
  ((~ exists k, 0 <= k /\ c = 2 ^ k) ->
   Ringbuf.amp_ringbuf_create g mem c = (None, g)) /\
  ((exists k, 0 <= k /\ c = 2 ^ k) ->
   0 <= Shmem.allocated g <= Shmem.size g ->
   0 < Shmem.base g -> Shmem.base g + Shmem.size g <= 2 ^ 32 ->
   Ringbuf.sizeof_amp_ringbuf_s + c + 7 + Shmem.size g < 2 ^ 32 ->
   Ringbuf.amp_ringbuf_create g mem c
   = if Shmem.allocated g
        + Shmem.round_up8 (Ringbuf.sizeof_amp_ringbuf_s + c) >? Shmem.size g
     then (None, g)
     else (Some (Ringbuf.mk_ringbuf 0 0 c (c - 1)
                   (fun i => mem (Shmem.base g + Shmem.allocated g
                                  + Ringbuf.sizeof_amp_ringbuf_s + i))),
           Shmem.mk_pool (Shmem.base g) (Shmem.size g)
             (Shmem.allocated g
              + Shmem.round_up8 (Ringbuf.sizeof_amp_ringbuf_s + c)))).
Proof.
  intros Hc. unfold is_u32 in Hc. split.
  - intros Hnot. unfold Ringbuf.amp_ringbuf_create.
    destruct (Z.eqb_spec c 0); cbn [orb]; [reflexivity|].
    assert (Hc1 : usize (c - 1) = c - 1) by (unwrap; lia). rewrite Hc1.
    destruct (Z.eqb_spec (Z.land c (c - 1)) 0) as [Hland|]; cbn [negb];
      [|reflexivity].
    exfalso. apply Hnot. exists (Z.log2 c).
    split; [apply Z.log2_nonneg | apply pow2_of_land; [lia | assumption]].
  - intros (k & Hk & Hpow) Ha Hb Hregion Hfit.
    unfold Ringbuf.amp_ringbuf_create, Ringbuf.sizeof_amp_ringbuf_s in *.
    assert (Hpos : 0 < c) by (rewrite Hpow; apply Z.pow_pos_nonneg; lia).
    destruct (Z.eqb_spec c 0); [lia|]. cbn [orb].
    assert (Hc1 : usize (c - 1) = c - 1) by (unwrap; lia). rewrite Hc1.
    assert (Hland : Z.land c (c - 1) = 0)
      by (rewrite Hpow; apply land_pow2_pred; assumption).
    rewrite Hland. cbn [Z.eqb negb].
    assert (Htotal : usize (16 + c) = 16 + c) by (unwrap; lia).
    rewrite Htotal.
    assert (Hround : 16 + c <= Shmem.round_up8 (16 + c) <= 16 + c + 7)
      by (unfold Shmem.round_up8; lia).
    rewrite shmem_alloc_exact by (try assumption; lia).
    destruct (Z.eqb_spec (16 + c) 0); [lia|]. cbn [orb].
    destruct (Z.gtb_spec (Shmem.allocated g + Shmem.round_up8 (16 + c))
                (Shmem.size g)); [reflexivity|].
    destruct (Z.eqb_spec (Shmem.base g + Shmem.allocated g) NULL);
      [unfold NULL in *; lia|].
    assert (Hu : u32 c = c) by (unwrap; lia).
    assert (Hu1 : u32 (c - 1) = c - 1) by (unwrap; lia).
    rewrite Hu, Hu1. reflexivity.
Qed.

Lemma ringbuf_create_outcome_witness :
  ((~ exists k, 0 <= k /\ 16 = 2 ^ k) ->
   Ringbuf.amp_ringbuf_create (Shmem.mk_pool 537133056 16384 0)
     (fun _ => x00) 16
   = (None, Shmem.mk_pool 537133056 16384 0)) /\
  ((exists k, 0 <= k /\ 16 = 2 ^ k) ->
   0 <= Shmem.allocated (Shmem.mk_pool 537133056 16384 0)
   <= Shmem.size (Shmem.mk_pool 537133056 16384 0) ->
   0 < Shmem.base (Shmem.mk_pool 537133056 16384 0) ->
   Shmem.base (Shmem.mk_pool 537133056 16384 0)
   + Shmem.size (Shmem.mk_pool 537133056 16384 0) <= 2 ^ 32 ->
   Ringbuf.sizeof_amp_ringbuf_s + 16 + 7
   + Shmem.size (Shmem.mk_pool 537133056 16384 0) < 2 ^ 32 ->
   Ringbuf.amp_ringbuf_create (Shmem.mk_pool 537133056 16384 0)
     (fun _ => x00) 16
   = if Shmem.allocated (Shmem.mk_pool 537133056 16384 0)
        + Shmem.round_up8 (Ringbuf.sizeof_amp_ringbuf_s + 16)
        >? Shmem.size (Shmem.mk_pool 537133056 16384 0)
     then (None, Shmem.mk_pool 537133056 16384 0)
     else (Some (Ringbuf.mk_ringbuf 0 0 16 (16 - 1)
                   (fun i => (fun _ => x00)
                      (Shmem.base (Shmem.mk_pool 537133056 16384 0)
                       + Shmem.allocated (Shmem.mk_pool 537133056 16384 0)
                       + Ringbuf.sizeof_amp_ringbuf_s + i))),
           Shmem.mk_pool (Shmem.base (Shmem.mk_pool 537133056 16384 0))
             (Shmem.size (Shmem.mk_pool 537133056 16384 0))
             (Shmem.allocated (Shmem.mk_pool 537133056 16384 0)
              + Shmem.round_up8 (Ringbuf.sizeof_amp_ringbuf_s + 16)))).
Proof.
  apply (ringbuf_create_outcome (Shmem.mk_pool 537133056 16384 0)
           (fun _ => x00) 16).
  unfold is_u32. lia.
Defined.

Lemma map_seq_from {A : Type} (f : nat -> A) :
  forall (n a : nat),
    map f (seq a n) = map (fun j => f (a + j)%nat) (seq 0 n).
Proof.
  induction n as [|n IH]; intros a; [reflexivity|].
  cbn [seq map]. rewrite Nat.add_0_r. f_equal.
  rewrite IH, <- seq_shift, map_map.
  apply map_ext. intros j. f_equal. lia.
Qed.

(** On a well-formed buffer a slot is the running index modulo the
    capacity. *)
Lemma ringbuf_wf_slot b x :
  Ringbuf.well_formed b -> Ringbuf.slot b x = x mod Ringbuf.size b.
Proof.
  intros (_ & _ & (k & Hk & Hsize) & Hmask & _).
  unfold Ringbuf.slot. rewrite Hmask, Hsize. apply ringbuf_slot. assumption.
Qed.

Lemma ringbuf_wf_slot_u32 b x y :
  Ringbuf.well_formed b -> Ringbuf.slot b (u32 x + y) = Ringbuf.slot b (x + y).
Proof.
  intros Hwf. rewrite !ringbuf_wf_slot by assumption.
  destruct Hwf as (_ & _ & (k & Hk & Hsize) & _).
  rewrite Hsize.
  rewrite (Z.add_mod (u32 x)), (Z.add_mod x), mod_slots_of_u32
    by (try assumption; pose proof (Z.pow_pos_nonneg 2 k); lia).
  reflexivity.
Qed.

Lemma ringbuf_wf_bounds b :
  Ringbuf.well_formed b ->
  0 < Ringbuf.size b < 2 ^ 32 /\
  0 <= u32 (Ringbuf.write_idx b - Ringbuf.read_idx b) <= Ringbuf.size b.
Proof.
  intros (_ & _ & (k & Hk & Hsize) & _ & Hfill).
  pose proof (u32_range (Ringbuf.write_idx b - Ringbuf.read_idx b)) as Hr.
  unfold is_u32 in Hr. rewrite Hsize in *.
  pose proof (Z.pow_pos_nonneg 2 k ltac:(lia) ltac:(lia)).
  pose proof (Z.pow_lt_mono_r 2 k 32 ltac:(lia) ltac:(lia) ltac:(lia)).
  lia.
Qed.

Lemma ringbuf_write_keeps_wf b src n b' :
  Ringbuf.well_formed b ->
  0 <= n <= Ringbuf.amp_ringbuf_free_space (Some b) ->
  Ringbuf.stored b src n b' ->
  Ringbuf.well_formed b' /\
  u32 (Ringbuf.write_idx b' - Ringbuf.read_idx b')
  = u32 (Ringbuf.write_idx b - Ringbuf.read_idx b) + n.
Proof.
  intros Hwf Hn (Hw' & Hr' & Hs' & Hm' & _).
  pose proof (ringbuf_wf_bounds b Hwf) as [Hsz Hfill].
  rewrite ringbuf_wf_free_space in Hn by assumption.
  destruct Hwf as (Hw & Hr & Hpow & Hmask & _).
  assert (Hcount : u32 (Ringbuf.write_idx b' - Ringbuf.read_idx b')
                   = u32 (Ringbuf.write_idx b - Ringbuf.read_idx b) + n)
    by (rewrite Hw', Hr'; unwrap; lia).
  split; [|assumption].
  unfold Ringbuf.well_formed. rewrite Hcount, Hs', Hm', Hr', Hw'.
  split; [apply u32_range|]. split; [assumption|]. split; [assumption|].
  split; [assumption|]. lia.
Qed.

Lemma ringbuf_read_keeps_wf b dst n b' out :
  Ringbuf.well_formed b ->
  0 <= n <= Ringbuf.amp_ringbuf_available (Some b) ->
  Ringbuf.loaded b dst n b' out ->
  Ringbuf.well_formed b' /\
  u32 (Ringbuf.write_idx b' - Ringbuf.read_idx b')
  = u32 (Ringbuf.write_idx b - Ringbuf.read_idx b) - n.
Proof.
  intros Hwf Hn (Hw' & Hr' & Hs' & Hm' & _).
  pose proof (ringbuf_wf_bounds b Hwf) as [Hsz Hfill].
  unfold Ringbuf.amp_ringbuf_available in Hn.
  destruct Hwf as (Hw & Hr & Hpow & Hmask & _).
  assert (Hcount : u32 (Ringbuf.write_idx b' - Ringbuf.read_idx b')
                   = u32 (Ringbuf.write_idx b - Ringbuf.read_idx b) - n)
    by (rewrite Hw', Hr'; unwrap; lia).
  split; [|assumption].
  unfold Ringbuf.well_formed. rewrite Hcount, Hs', Hm', Hr', Hw'.
  split; [assumption|]. split; [apply u32_range|]. split; [assumption|].
  split; [assumption|]. lia.
Qed.

Lemma ringbuf_slot_of_mask b b' x :
  Ringbuf.mask b' = Ringbuf.mask b -> Ringbuf.slot b' x = Ringbuf.slot b x.
Proof. unfold Ringbuf.slot. intros ->. reflexivity. Qed.

(** The write index is the read index plus the fill level, as slots go. *)
Lemma ringbuf_slot_from_read b j :
  Ringbuf.well_formed b ->
  Ringbuf.slot b (Ringbuf.write_idx b + j)
  = Ringbuf.slot b (Ringbuf.read_idx b
                    + (u32 (Ringbuf.write_idx b - Ringbuf.read_idx b) + j)).
Proof.
  intros Hwf. pose proof Hwf as (Hw & Hr & _).
  assert (Hwr : Ringbuf.write_idx b
                = u32 (Ringbuf.read_idx b
                       + u32 (Ringbuf.write_idx b - Ringbuf.read_idx b)))
    by (unwrap; lia).
  rewrite Hwr at 1. rewrite ringbuf_wf_slot_u32 by assumption.
  f_equal. lia.
Qed.

(** X24.  Writing appends: on a well-formed ring buffer, [amp_ringbuf_write]
    keeps the buffer well formed, leaves the unread bytes as they were and
    adds the first [n] bytes of the caller's data behind them, [n] being the
    count it returns. *)
Theorem ringbuf_write_appends
  (b : Ringbuf.amp_ringbuf_s) (src : list byte) (len : Z) :
  Ringbuf.well_formed b ->
  0 <= len <= Z.of_nat (length src) ->
  exists b',
    snd (Ringbuf.amp_ringbuf_write (Some b) (Some src) len) = Some b' /\
    Ringbuf.well_formed b' /\
    Ringbuf.contents b'
    = Ringbuf.contents b
      ++ firstn (Z.to_nat (fst (Ringbuf.amp_ringbuf_write (Some b) (Some src) len)))
           src.
Proof.
  intros Hwf Hlen.
  destruct (ringbuf_write_stores b src len Hwf) as (b' & Hb' & Hst).
  exists b'. split; [assumption|].
  rewrite ringbuf_write_count.
  pose proof (ringbuf_wf_bounds b Hwf) as [Hsz Hfill].
  pose proof (ringbuf_wf_free_space b Hwf) as Hfree.
  set (count := u32 (Ringbuf.write_idx b - Ringbuf.read_idx b)) in *.
  set (n := Z.min len (Ringbuf.amp_ringbuf_free_space (Some b))) in *.
  assert (Hn : 0 <= n <= Ringbuf.amp_ringbuf_free_space (Some b)) by lia.
  destruct (ringbuf_write_keeps_wf b src n b' Hwf Hn Hst) as [Hwf' Hcount'].
  split; [assumption|].
  destruct Hst as (_ & Hr' & _ & Hm' & Hput & Hkeep).
  unfold Ringbuf.contents. rewrite Hcount'. fold count. rewrite Hr'.
  replace (Z.to_nat (count + n)) with (Z.to_nat count + Z.to_nat n)%nat by lia.
  rewrite seq_app, map_app. f_equal.
  - apply map_ext_in. intros i Hi. apply in_seq in Hi.
    rewrite (ringbuf_slot_of_mask b b') by assumption.
    apply Hkeep. intros j Hj.
    rewrite ringbuf_slot_from_read by assumption. fold count.
    rewrite !ringbuf_wf_slot by assumption.
    apply not_eq_sym. apply ringbuf_slots_distinct; lia.
  - rewrite map_seq_from. rewrite <- map_peek_firstn by lia.
    apply map_ext_in. intros j Hj. apply in_seq in Hj.
    rewrite (ringbuf_slot_of_mask b b') by assumption.
    rewrite <- (Hput (Z.of_nat j)) by lia.
    rewrite ringbuf_slot_from_read by assumption. fold count.
    do 2 f_equal. lia.
Qed.

(** A buffer of 16 bytes holding 4: of 14 bytes offered, 12 are appended. *)
Lemma ringbuf_write_appends_witness :
  exists b',
    snd (Ringbuf.amp_ringbuf_write
           (Some (Ringbuf.mk_ringbuf 10 6 16 15 (fun _ => x00)))
           (Some (repeat x01 14)) 14) = Some b' /\
    Ringbuf.well_formed b' /\
    Ringbuf.contents b'
    = Ringbuf.contents (Ringbuf.mk_ringbuf 10 6 16 15 (fun _ => x00))
      ++ firstn (Z.to_nat
                   (fst (Ringbuf.amp_ringbuf_write
                           (Some (Ringbuf.mk_ringbuf 10 6 16 15 (fun _ => x00)))
                           (Some (repeat x01 14)) 14)))
           (repeat x01 14).
Proof.
  apply (ringbuf_write_appends (Ringbuf.mk_ringbuf 10 6 16 15 (fun _ => x00))
           (repeat x01 14) 14).
  - unfold Ringbuf.well_formed, is_u32. simpl.
    split; [lia|]. split; [lia|].
    split; [exists 4; split; [lia | reflexivity]|].
    split; [reflexivity|]. unwrap. lia.
  - simpl. lia.
Defined.

(** X25.  Reading takes the oldest bytes: on a well-formed ring buffer,
    [amp_ringbuf_read] keeps the buffer well formed, puts the [n] oldest
    unread bytes, in order, at the start of the caller's buffer, leaves the
    rest of that buffer alone and keeps the later bytes unread, [n] being
    the count it returns. *)
Theorem ringbuf_read_takes_oldest
  (b : Ringbuf.amp_ringbuf_s) (dst : list byte) (len : Z) :
  Ringbuf.well_formed b ->
  0 <= len <= Z.of_nat (length dst) ->
  exists b' out,
    snd (fst (Ringbuf.amp_ringbuf_read (Some b) (Some dst) len)) = Some b' /\
    snd (Ringbuf.amp_ringbuf_read (Some b) (Some dst) len) = Some out /\
    Ringbuf.well_formed b' /\
    Ringbuf.contents b
    = firstn (Z.to_nat (fst (fst (Ringbuf.amp_ringbuf_read (Some b) (Some dst) len))))
        out
      ++ Ringbuf.contents b' /\
    length out = length dst /\
    (forall j,
        fst (fst (Ringbuf.amp_ringbuf_read (Some b) (Some dst) len)) <= j ->
        peek out j = peek dst j).
Proof.
  intros Hwf Hlen. pose proof Hwf as (_ & Hr & _).
  destruct (ringbuf_read_loads b dst len Hr) as (b' & out & Hb' & Hout & Hld).
  exists b', out. split; [assumption|]. split; [assumption|].
  rewrite ringbuf_read_count.
  pose proof (ringbuf_wf_bounds b Hwf) as [Hsz Hfill].
  assert (Hav : Ringbuf.amp_ringbuf_available (Some b)
                = u32 (Ringbuf.write_idx b - Ringbuf.read_idx b)) by reflexivity.
  set (count := u32 (Ringbuf.write_idx b - Ringbuf.read_idx b)) in *.
  set (n := Z.min len (Ringbuf.amp_ringbuf_available (Some b))) in *.
  assert (Hn : 0 <= n <= Ringbuf.amp_ringbuf_available (Some b)) by lia.
  destruct (ringbuf_read_keeps_wf b dst n b' out Hwf Hn Hld) as [Hwf' Hcount'].
  split; [assumption|].
  destruct Hld as (_ & Hr' & _ & Hm' & Hdata & Hlen_out & Hget & Hrest).
  split; [|split; [assumption|]].
  - unfold Ringbuf.contents. rewrite Hcount'. fold count.
    replace (Z.to_nat count) with (Z.to_nat n + Z.to_nat (count - n))%nat by lia.
    rewrite seq_app, map_app. f_equal.
    + rewrite <- map_peek_firstn by lia.
      apply map_ext_in. intros j Hj. apply in_seq in Hj.
      symmetry. apply Hget; lia.
    + cbn [plus]. rewrite map_seq_from.
      apply map_ext_in. intros i Hi. apply in_seq in Hi.
      rewrite Hdata, Hr', (ringbuf_slot_of_mask b b') by assumption.
      rewrite ringbuf_wf_slot_u32 by assumption.
      do 2 f_equal. lia.
  - intros j Hj. apply Hrest; lia.
Qed.

Lemma ringbuf_read_takes_oldest_witness :
  exists b' out,
    snd (fst (Ringbuf.amp_ringbuf_read
                (Some (Ringbuf.mk_ringbuf 10 6 16 15 (fun _ => x07)))
                (Some (repeat x00 8)) 8)) = Some b' /\
    snd (Ringbuf.amp_ringbuf_read
           (Some (Ringbuf.mk_ringbuf 10 6 16 15 (fun _ => x07)))
           (Some (repeat x00 8)) 8) = Some out /\
    Ringbuf.well_formed b' /\
    Ringbuf.contents (Ringbuf.mk_ringbuf 10 6 16 15 (fun _ => x07))
    = firstn (Z.to_nat
                (fst (fst (Ringbuf.amp_ringbuf_read
                             (Some (Ringbuf.mk_ringbuf 10 6 16 15 (fun _ => x07)))
                             (Some (repeat x00 8)) 8))))
        out
      ++ Ringbuf.contents b' /\
    length out = length (repeat x00 8) /\
    (forall j,
        fst (fst (Ringbuf.amp_ringbuf_read
                    (Some (Ringbuf.mk_ringbuf 10 6 16 15 (fun _ => x07)))
                    (Some (repeat x00 8)) 8)) <= j ->
        peek out j = peek (repeat x00 8) j).
Proof.
  apply (ringbuf_read_takes_oldest
           (Ringbuf.mk_ringbuf 10 6 16 15 (fun _ => x07)) (repeat x00 8) 8).
  - unfold Ringbuf.well_formed, is_u32. simpl.
    split; [lia|]. split; [lia|].
    split; [exists 4; split; [lia | reflexivity]|].
    split; [reflexivity|]. unwrap. lia.
  - simpl. lia.
Defined.

(** X26.  Fill accounting and [amp_ringbuf_clear]: on a well-formed ring
    buffer the unread bytes number [amp_ringbuf_available], and available
    plus free space is the capacity; clearing keeps the buffer well formed
    and leaves nothing unread and the whole capacity free; clearing twice is
    clearing once, and clearing an empty buffer changes nothing. *)
Theorem ringbuf_clear_empties (b : Ringbuf.amp_ringbuf_s) :
  Ringbuf.well_formed b ->
  Z.of_nat (length (Ringbuf.contents b))
  = Ringbuf.amp_ringbuf_available (Some b) /\
  Ringbuf.amp_ringbuf_available (Some b)
  + Ringbuf.amp_ringbuf_free_space (Some b) = Ringbuf.size b /\
  (exists b',
      Ringbuf.amp_ringbuf_clear (Some b) = Some b' /\
      Ringbuf.well_formed b' /\ Ringbuf.contents b' = [] /\
      Ringbuf.amp_ringbuf_available (Some b') = 0 /\
      Ringbuf.amp_ringbuf_free_space (Some b') = Ringbuf.size b /\
      Ringbuf.write_idx b' = Ringbuf.write_idx b /\
      Ringbuf.amp_ringbuf_clear (Some b') = Some b') /\
  (Ringbuf.read_idx b = Ringbuf.write_idx b ->
   Ringbuf.amp_ringbuf_clear (Some b) = Some b).
Proof.
  intros Hwf. pose proof (ringbuf_wf_bounds b Hwf) as [Hsz Hfill].
  split; [|split; [|split]].
  - unfold Ringbuf.contents, Ringbuf.amp_ringbuf_available.
    rewrite length_map, length_seq. lia.
  - rewrite ringbuf_wf_free_space by assumption.
    unfold Ringbuf.amp_ringbuf_available. lia.
  - eexists. split; [reflexivity|].
    destruct Hwf as (Hw & Hr & Hpow & Hmask & _).
    assert (Hzero : u32 (Ringbuf.write_idx b - Ringbuf.write_idx b) = 0)
      by (rewrite Z.sub_diag; reflexivity).
    split; [|split; [|split; [|split; [|split]]]].
    + unfold Ringbuf.well_formed.
      cbn [Ringbuf.write_idx Ringbuf.read_idx Ringbuf.size Ringbuf.mask].
      rewrite Hzero. repeat split; try assumption; try apply Hw; lia.
    + unfold Ringbuf.contents. cbn [Ringbuf.write_idx Ringbuf.read_idx].
      rewrite Hzero. reflexivity.
    + unfold Ringbuf.amp_ringbuf_available.
      cbn [Ringbuf.write_idx Ringbuf.read_idx]. exact Hzero.
    + unfold Ringbuf.amp_ringbuf_free_space, Ringbuf.amp_ringbuf_available.
      cbn [Ringbuf.write_idx Ringbuf.read_idx Ringbuf.size]. rewrite Hzero.
      unwrap. lia.
    + reflexivity.
    + reflexivity.
  - intros Heq. destruct b as [w r sz mk d]. cbn in Heq. subst r. reflexivity.
Qed.

Lemma ringbuf_clear_empties_witness :
  Z.of_nat (length (Ringbuf.contents (Ringbuf.mk_ringbuf 10 6 16 15 (fun _ => x00))))
  = Ringbuf.amp_ringbuf_available
      (Some (Ringbuf.mk_ringbuf 10 6 16 15 (fun _ => x00))) /\
  Ringbuf.amp_ringbuf_available
    (Some (Ringbuf.mk_ringbuf 10 6 16 15 (fun _ => x00)))
  + Ringbuf.amp_ringbuf_free_space
      (Some (Ringbuf.mk_ringbuf 10 6 16 15 (fun _ => x00)))
  = Ringbuf.size (Ringbuf.mk_ringbuf 10 6 16 15 (fun _ => x00)).
Proof.
  destruct (ringbuf_clear_empties (Ringbuf.mk_ringbuf 10 6 16 15 (fun _ => x00)))
    as (H1 & H2 & _).
  - unfold Ringbuf.well_formed, is_u32. simpl.
    split; [lia|]. split; [lia|].
    split; [exists 4; split; [lia | reflexivity]|].
    split; [reflexivity|]. unwrap. lia.
  - split; [exact H1 | exact H2].
Defined.

(** ** Ring buffer: one writer and one reader *)

Ltac ringbuf_fields :=
  cbn [Ringbuf.rb Ringbuf.writer Ringbuf.reader
       Ringbuf.set_write_idx Ringbuf.set_read_idx Ringbuf.set_data
       Ringbuf.write_idx Ringbuf.read_idx Ringbuf.size Ringbuf.mask
       Ringbuf.writer_ok Ringbuf.reader_ok] in *.

Lemma ringbuf_wf_unfold b :
  Ringbuf.well_formed b ->
  is_u32 (Ringbuf.write_idx b) /\ is_u32 (Ringbuf.read_idx b) /\
  0 < Ringbuf.size b < 2 ^ 32 /\
  u32 (Ringbuf.write_idx b - Ringbuf.read_idx b) <= Ringbuf.size b.
Proof.
  intros Hwf. pose proof (ringbuf_wf_bounds b Hwf) as [Hsz _].
  destruct Hwf as (Hw & Hr & _ & _ & Hfill). auto.
Qed.

Lemma ringbuf_wf_indices b w r d :
  Ringbuf.well_formed b ->
  is_u32 w -> is_u32 r -> u32 (w - r) <= Ringbuf.size b ->
  Ringbuf.well_formed (Ringbuf.mk_ringbuf w r (Ringbuf.size b) (Ringbuf.mask b) d).
Proof.
  intros (_ & _ & Hpow & Hmask & _) Hw Hr Hfill.
  unfold Ringbuf.well_formed.
  cbn [Ringbuf.write_idx Ringbuf.read_idx Ringbuf.size Ringbuf.mask]. auto.
Qed.

Lemma ringbuf_writer_step_invariant s :
  Ringbuf.invariant s ->
  Ringbuf.invariant (Ringbuf.system_step Ringbuf.step_writer s).
Proof.
  destruct s as [b p q tx rx]. unfold Ringbuf.invariant.
  cbn [Ringbuf.system_step Ringbuf.rb Ringbuf.writer Ringbuf.reader].
  intros (Hwf & Hp & Hq).
  pose proof (ringbuf_wf_unfold b Hwf) as (Hw & Hr & Hsz & Hfill).
  pose proof (u32_range (Ringbuf.write_idx b - Ringbuf.read_idx b)) as Hcount.
  destruct p as [|src len|src len w|src len|src len w|len w];
    cbn [Ringbuf.writer_step]; ringbuf_fields.
  - tauto.
  - tauto.
  - destruct Hp as (Hlen & ->).
    split; [assumption|]. split; [|assumption].
    rewrite ringbuf_clamp. unwrap. lia.
  - tauto.
  - split; [|split; [assumption|]].
    + apply ringbuf_wf_indices; assumption.
    + assumption.
  - destruct Hp as (Hlen & -> & Hroom).
    assert (Hnext : u32 (u32 (Ringbuf.write_idx b + u32 len) - Ringbuf.read_idx b)
                    = u32 (Ringbuf.write_idx b - Ringbuf.read_idx b) + len)
      by (unwrap; lia).
    split; [|split; [exact I|]].
    + apply ringbuf_wf_indices; try assumption; [apply u32_range|].
      rewrite Hnext. lia.
    + destruct q as [|dst n|dst n w|dst n|dst n r|dst n r]; ringbuf_fields;
        rewrite ?Hnext; try tauto; try lia.
      destruct Hq as (Hn & Hw0 & Hbetween).
      split; [assumption|]. split; [assumption|]. unwrap. lia.
Qed.

Lemma ringbuf_reader_step_invariant s :
  Ringbuf.invariant s ->
  Ringbuf.invariant (Ringbuf.system_step Ringbuf.step_reader s).
Proof.
  destruct s as [b p q tx rx]. unfold Ringbuf.invariant.
  cbn [Ringbuf.system_step Ringbuf.rb Ringbuf.writer Ringbuf.reader].
  intros (Hwf & Hp & Hq).
  pose proof (ringbuf_wf_unfold b Hwf) as (Hw & Hr & Hsz & Hfill).
  pose proof (u32_range (Ringbuf.write_idx b - Ringbuf.read_idx b)) as Hcount.
  destruct q as [|dst n|dst n w|dst n|dst n r|dst n r];
    cbn [Ringbuf.reader_step]; ringbuf_fields.
  - tauto.
  - split; [assumption|]. split; [assumption|].
    split; [assumption|]. split; [assumption|]. unwrap. lia.
  - destruct Hq as (Hn & Hw0 & Hbetween).
    split; [assumption|]. split; [assumption|].
    rewrite ringbuf_clamp. unwrap. lia.
  - tauto.
  - tauto.
  - destruct Hq as (-> & Hn).
    assert (Hnext : u32 (Ringbuf.write_idx b - u32 (Ringbuf.read_idx b + u32 n))
                    = u32 (Ringbuf.write_idx b - Ringbuf.read_idx b) - n)
      by (unwrap; lia).
    split; [|split; [|exact I]].
    + apply ringbuf_wf_indices; try assumption; [apply u32_range|].
      rewrite Hnext. lia.
    + destruct p as [|src len|src len w|src len|src len w|len w];
        ringbuf_fields; rewrite ?Hnext; try tauto; try lia.
Qed.

Lemma ringbuf_step_invariant a s :
  Ringbuf.typed a ->
  Ringbuf.invariant s -> Ringbuf.invariant (Ringbuf.system_step a s).
Proof.
  destruct a as [src len|dst len| |]; cbn [Ringbuf.typed]; intros Ht.
  - intros Hinv. cbn [Ringbuf.system_step].
    destruct (Ringbuf.writer s) eqn:E; try assumption.
    unfold Ringbuf.invariant in *. rewrite E in Hinv.
    destruct (len =? 0); cbn; unfold is_u32 in Ht; tauto.
  - intros Hinv. cbn [Ringbuf.system_step].
    destruct (Ringbuf.reader s) eqn:E; try assumption.
    unfold Ringbuf.invariant in *. rewrite E in Hinv.
    destruct (len =? 0); cbn; unfold is_u32 in Ht; tauto.
  - apply ringbuf_writer_step_invariant.
  - apply ringbuf_reader_step_invariant.
Qed.

(** X27.  Take a well-formed ring buffer (such as [amp_ringbuf_create]
    returns) and let a writer core run [amp_ringbuf_write] calls and a
    reader core run [amp_ringbuf_read] calls, their loads and stores of the
    two indices interleaved in any order.  At every point the buffer is
    still well formed: in particular [write_idx - read_idx], modulo 2^32,
    never exceeds the capacity, so the writer never overwrites unread bytes
    and the reader never reads past the writer. *)
Theorem ringbuf_spsc_keeps_capacity
  (b : Ringbuf.amp_ringbuf_s) (sched : list Ringbuf.action) :
  Ringbuf.well_formed b ->
  Forall Ringbuf.typed sched ->
  Ringbuf.well_formed (Ringbuf.rb (Ringbuf.run sched (Ringbuf.start b))) /\
  u32 (Ringbuf.write_idx (Ringbuf.rb (Ringbuf.run sched (Ringbuf.start b)))
       - Ringbuf.read_idx (Ringbuf.rb (Ringbuf.run sched (Ringbuf.start b))))
  <= Ringbuf.size b.
Proof.
  intros Hwf Hsched.
  assert (Hinv : Ringbuf.invariant (Ringbuf.start b)
                 /\ Ringbuf.size (Ringbuf.rb (Ringbuf.start b)) = Ringbuf.size b).
  { unfold Ringbuf.invariant, Ringbuf.start. cbn. tauto. }
  revert Hinv. generalize (Ringbuf.start b) as s. unfold Ringbuf.run.
  induction Hsched as [|a sched Ha _ IH]; intros s [Hinv Hsize];
    cbn [fold_left].
  - destruct Hinv as (Hwf' & _). split; [assumption|].
    rewrite <- Hsize. apply Hwf'.
  - apply IH. split; [apply ringbuf_step_invariant; assumption|].
    rewrite <- Hsize. clear -a.
    destruct a as [src len|dst len| |]; cbn [Ringbuf.system_step].
    + destruct (Ringbuf.writer s); try reflexivity.
      destruct (len =? 0); reflexivity.
    + destruct (Ringbuf.reader s); try reflexivity.
      destruct (len =? 0); reflexivity.
    + destruct (Ringbuf.writer s); reflexivity.
    + destruct (Ringbuf.reader s); reflexivity.
Qed.

(** ** The shared counter of the example *)

Lemma shared_counter_invariant_sym se sh p q :
  SharedCounter.invariant_of se sh p q -> SharedCounter.invariant_of se sh q p.
Proof.
  unfold SharedCounter.invariant_of.
  intros (Hm & Hc & Hsum & Hcnt & Hp & Hq).
  repeat split; try assumption; try lia.
  rewrite Hcnt. f_equal. lia.
Qed.

Lemma shared_counter_holding_range p :
  0 <= SharedCounter.holding p <= 1 /\
  0 <= SharedCounter.tallying p <= SharedCounter.holding p.
Proof. destruct p; cbn; lia. Qed.

Lemma shared_counter_thread_step c se sh p q se' sh' p' :
  SharedCounter.invariant_of se sh p q ->
  SharedCounter.thread_step c se sh p = (se', sh', p') ->
  SharedCounter.invariant_of se' sh' p' q.
Proof.
  unfold SharedCounter.invariant_of.
  intros (Hm & Hc & Hsum & Hcnt & Hp & Hq) Hstep.
  pose proof (shared_counter_holding_range q) as [Hhq Htq].
  destruct p as [|n|n cur| |old| | |cur];
    cbn [SharedCounter.thread_step SharedCounter.holding
         SharedCounter.tallying SharedCounter.pc_ok] in *.
  - inversion Hstep; subst. cbn. tauto.
  - destruct (Z.eqb_spec (Semaphore.count se) 0).
    + destruct (SharedCounter.WAIT_TIMEOUT_MS >? 0);
        [destruct (u32 (n - 1) =? 0)|]; inversion Hstep; subst; cbn; tauto.
    + inversion Hstep; subst. cbn. tauto.
  - unfold Semaphore.atomic_cas in Hstep.
    destruct (Z.eqb_spec (Semaphore.count se) cur) as [He|Hne];
      inversion Hstep; subst; cbn; [|tauto].
    assert (Hq0 : SharedCounter.holding q = 0)
      by (destruct q; cbn in *; lia).
    assert (Hcount : Semaphore.count se = 1) by lia.
    rewrite Hcount in *.
    repeat split; try assumption; try (vm_compute; congruence); lia.
  - inversion Hstep; subst. cbn. tauto.
  - inversion Hstep; subst. cbn.
    assert (Hq0 : SharedCounter.holding q = 0) by lia.
    split; [assumption|]. split; [assumption|]. split; [lia|].
    split; [rewrite Hcnt; unwrap; lia|]. split; [exact I|].
    destruct q; cbn in *; try exact I; try assumption; lia.
  - assert (Hq0 : SharedCounter.holding q = 0) by lia.
    destruct c; inversion Hstep; subst; cbn;
      (split; [assumption|]; split; [assumption|]; split; [lia|];
       split; [rewrite Hcnt; unwrap; lia|]; split; [exact I|];
       destruct q; cbn in *; try exact I; try assumption; lia).
  - destruct (Z.geb_spec (Semaphore.count se) (Semaphore.max_count se));
      inversion Hstep; subst; cbn; [lia | tauto].
  - unfold Semaphore.atomic_cas in Hstep.
    destruct (Z.eqb_spec (Semaphore.count se) cur) as [He|Hne];
      inversion Hstep; subst; cbn; [|tauto].
    assert (Hq0 : SharedCounter.holding q = 0) by lia.
    assert (Hcount : Semaphore.count se = 0) by lia.
    rewrite Hcount in *.
    repeat split; try assumption; try (vm_compute; congruence); lia.
Qed.

Lemma shared_counter_step_invariant a s :
  SharedCounter.invariant s ->
  SharedCounter.invariant (SharedCounter.system_step a s).
Proof.
  unfold SharedCounter.invariant. intros Hinv.
  destruct a as [[|]|[|]]; cbn [SharedCounter.system_step].
  - destruct (SharedCounter.pc0 s) eqn:E; rewrite ?E; exact Hinv.
  - destruct (SharedCounter.pc1 s) eqn:E; rewrite ?E; exact Hinv.
  - destruct (SharedCounter.thread_step core0 (SharedCounter.sem s)
                (SharedCounter.shared s) (SharedCounter.pc0 s))
      as [[se sh] p] eqn:Hstep.
    cbn [SharedCounter.sem SharedCounter.shared SharedCounter.pc0
         SharedCounter.pc1].
    eapply shared_counter_thread_step; eassumption.
  - destruct (SharedCounter.thread_step core1 (SharedCounter.sem s)
                (SharedCounter.shared s) (SharedCounter.pc1 s))
      as [[se sh] p] eqn:Hstep.
    cbn [SharedCounter.sem SharedCounter.shared SharedCounter.pc0
         SharedCounter.pc1].
    apply shared_counter_invariant_sym.
    eapply shared_counter_thread_step; [|eassumption].
    apply shared_counter_invariant_sym. assumption.
Qed.

Lemma shared_counter_run_invariant sched s :
  SharedCounter.invariant s ->
  SharedCounter.invariant (SharedCounter.run sched s).
Proof.
  revert s. unfold SharedCounter.run.
  induction sched as [|a sched IH]; intros s Hinv; cbn [fold_left].
  - assumption.
  - apply IH. apply shared_counter_step_invariant. assumption.
Qed.

(** X28.  The shared-counter example: both cores run [increment_counter]
    any number of times, their accesses to the semaphore and to the counter
    interleaved in any order, waits timing out or not.  At every point at
    most one core is between taking and releasing the binary semaphore, the
    semaphore count is 1 exactly when none is, and no increment is lost:
    the counter equals the sum of the two per-core tallies (modulo 2^32)
    whenever no core sits between its counter store and its tally. *)
Theorem shared_counter_no_lost_update (sched : list SharedCounter.action) :
  SharedCounter.holding
    (SharedCounter.pc0 (SharedCounter.run sched SharedCounter.start))
  + SharedCounter.holding
      (SharedCounter.pc1 (SharedCounter.run sched SharedCounter.start)) <= 1 /\
  Semaphore.count (SharedCounter.sem (SharedCounter.run sched SharedCounter.start))
  = 1 - SharedCounter.holding
          (SharedCounter.pc0 (SharedCounter.run sched SharedCounter.start))
      - SharedCounter.holding
          (SharedCounter.pc1 (SharedCounter.run sched SharedCounter.start)) /\
  (SharedCounter.tallying
     (SharedCounter.pc0 (SharedCounter.run sched SharedCounter.start)) = 0 ->
   SharedCounter.tallying
     (SharedCounter.pc1 (SharedCounter.run sched SharedCounter.start)) = 0 ->
   SharedCounter.counter
     (SharedCounter.shared (SharedCounter.run sched SharedCounter.start))
   = u32 (SharedCounter.core0_increments
            (SharedCounter.shared (SharedCounter.run sched SharedCounter.start))
          + SharedCounter.core1_increments
              (SharedCounter.shared (SharedCounter.run sched SharedCounter.start)))).
Proof.
  assert (Hstart : SharedCounter.invariant SharedCounter.start).
  { unfold SharedCounter.invariant, SharedCounter.invariant_of,
      SharedCounter.start. cbn. repeat split; try lia. }
  apply (shared_counter_run_invariant sched) in Hstart.
  destruct Hstart as (_ & Hc & Hsum & Hcnt & _).
  split; [lia|]. split; [lia|].
  intros H0 H1. rewrite Hcnt, H0, H1. f_equal. lia.
Qed.

(** A run in which both cores contend: core 1 takes the semaphore while
    core 0 is still waiting, both finish, and the counter reads 2. *)
Example shared_counter_two_increments :
  let sched :=
    [SharedCounter.call core0; SharedCounter.call core1;
     SharedCounter.step core0; SharedCounter.step core1;
     SharedCounter.step core1; SharedCounter.step core0;
     SharedCounter.step core0; SharedCounter.step core1;
     SharedCounter.step core1; SharedCounter.step core1;
     SharedCounter.step core0; SharedCounter.step core1;
     SharedCounter.step core1; SharedCounter.step core0;
     SharedCounter.step core0; SharedCounter.step core0;
     SharedCounter.step core0; SharedCounter.step core0;
     SharedCounter.step core0; SharedCounter.step core0] in
  SharedCounter.run sched SharedCounter.start
  = SharedCounter.mk_system (Semaphore.mk_sem 1 1)
      (SharedCounter.mk_counter 2 1 1) SharedCounter.idle SharedCounter.idle.
Proof. vm_compute. reflexivity. Qed.

(** A reader that sampled the indices early, overtaken by a write. *)
Lemma ringbuf_spsc_keeps_capacity_witness :
  let b := Ringbuf.mk_ringbuf 0 0 8 7 (fun _ => x00) in
  let sched :=
    [Ringbuf.call_write [x01; x02; x03] 3; Ringbuf.call_read [x00; x00] 2;
     Ringbuf.step_reader; Ringbuf.step_writer; Ringbuf.step_writer;
     Ringbuf.step_writer; Ringbuf.step_writer; Ringbuf.step_writer;
     Ringbuf.step_reader; Ringbuf.step_reader;
     Ringbuf.call_write [x04; x05; x06; x07; x08; x09] 6;
     Ringbuf.step_writer; Ringbuf.step_writer; Ringbuf.step_writer;
     Ringbuf.call_read [x00; x00] 2; Ringbuf.step_reader;
     Ringbuf.step_writer; Ringbuf.step_writer] in
  Ringbuf.well_formed (Ringbuf.rb (Ringbuf.run sched (Ringbuf.start b))) /\
  u32 (Ringbuf.write_idx (Ringbuf.rb (Ringbuf.run sched (Ringbuf.start b)))
       - Ringbuf.read_idx (Ringbuf.rb (Ringbuf.run sched (Ringbuf.start b))))
  <= Ringbuf.size b.
Proof.
  apply ringbuf_spsc_keeps_capacity.
  - unfold Ringbuf.well_formed, is_u32. simpl.
    split; [lia|]. split; [lia|].
    split; [exists 3; split; [lia | reflexivity]|].
    split; [reflexivity|]. unwrap. lia.
  - repeat constructor; unfold is_u32; lia.
Defined.
